(** * Vega workflow engine: schedule gate, tick gate, template resolver,
      graph validation and dialogue orchestration.

    A shallow embedding of the TypeScript sources
    - [src/execution/scheduler.service.ts]   (AgentScheduler, TickManager)
    - [src/workflow/yaml-parser.service.ts]  (WorkflowYAMLParser: validateYAML,
      parseSchedule, parseTickConfig, yamlToWorkflowSpec, parse)
    - [packages/agentic-cli] parser          (WorkflowYAMLParser.validate / parse)
    - [docs/CHALLENGES.md] listings          (detectCycles, TemplateResolver,
      checkCircular)
    - the CLI [ExecutionEngine]              (resolveTemplateString,
      resolveInputs, executeNode, computeOutputs, execute)
    - [src/execution/dialogue-executor.service.ts] (DialogueExecutor)

    Conventions.  JavaScript numbers that hold millisecond instants, counters
    and indices are integers [Z]; [NaN] and [undefined] are [None] where a
    function can produce them.  Strings are byte strings; all syntax the code
    inspects (braces, brackets, dots, digits, colons, hyphens) is ASCII.
    Maps keyed by agent ids are [gmap string _].  A plain object is the list
    of its own entries in enumeration order; where the code looks a name up
    in an object that a document or a caller supplies ([yaml.nodes[key]],
    [key in workflowInputs], [agentEndpoints[ref]]) the properties inherited
    from [Object.prototype] are found as well.  Property reads on the values
    of a template context ([get_prop]) see own properties only. *)

From Stdlib Require Import ZArith Ascii String List Bool Lia.
From stdpp Require Import base option list gmap strings.

Local Open Scope string_scope.
Local Open Scope Z_scope.

#[local] Set Warnings "-register-all,-clear-no-such-hyp".

(** stdpp freezes string concatenation under [simpl]; the proofs below compute
    with it. *)
#[local] Arguments String.append !_ _ / : simpl nomatch.

(* ===================================================================== *)
(** * Part I.  Definitions                                                *)
(* ===================================================================== *)

(** ** JavaScript primitives used by the sources *)

Module Js.

(** Truthiness of an optional string: [undefined] and [""] are falsy. *)
Definition truthy_str (o : option string) : bool :=
  match o with
  | Some s => negb (String.eqb s "")
  | None => false
  end.

(** Truthiness of an optional number: [undefined] and [0] are falsy. *)
Definition truthy_num (o : option Z) : bool :=
  match o with
  | Some n => negb (n =? 0)
  | None => false
  end.

(** [x || d] on an optional number. *)
Definition num_or (o : option Z) (d : Z) : Z :=
  match o with
  | Some n => if n =? 0 then d else n
  | None => d
  end.

Definition is_digit (c : ascii) : bool :=
  let n := nat_of_ascii c in (48 <=? n)%nat && (n <=? 57)%nat.

Definition digit_val (c : ascii) : Z := Z.of_nat (nat_of_ascii c) - 48.

(** White space recognised by [trim], [Number] and [parseInt] (ASCII part). *)
Definition is_space (c : ascii) : bool :=
  let n := nat_of_ascii c in
  (n =? 32)%nat || ((9 <=? n)%nat && (n <=? 13)%nat).

Fixpoint trim_start (s : string) : string :=
  match s with
  | String c r => if is_space c then trim_start r else s
  | EmptyString => EmptyString
  end.

Definition rev_string (s : string) : string :=
  string_of_list_ascii (List.rev (list_ascii_of_string s)).

Definition trim (s : string) : string :=
  rev_string (trim_start (rev_string (trim_start s))).

(** Decimal value of a digit string read left to right from accumulator
    [acc]; [None] when a non-digit occurs. *)
Fixpoint all_digits_from (acc : Z) (s : string) : option Z :=
  match s with
  | EmptyString => Some acc
  | String c r =>
      if is_digit c then all_digits_from (10 * acc + digit_val c) r else None
  end.

(** [Number(s)] on the strings the scheduler feeds it: surrounding white
    space is ignored, the empty string is 0, a run of decimal digits is its
    value, anything else is NaN ([None]).  Signs, fractions, exponents and
    radix prefixes are not modelled and read as NaN. *)
Definition Number (s : string) : option Z :=
  all_digits_from 0 (trim s).

(** Longest decimal prefix, as [parseInt] reads it. *)
Fixpoint digits_prefix (acc : Z) (seen : bool) (s : string) : option Z :=
  match s with
  | String c r =>
      if is_digit c then digits_prefix (10 * acc + digit_val c) true r
      else if seen then Some acc else None
  | EmptyString => if seen then Some acc else None
  end.

(** [parseInt(s)] in radix 10: leading white space, optional sign, longest
    digit prefix; NaN ([None]) when there is no digit.  The hexadecimal
    prefix [0x] is not modelled. *)
Definition parseInt (s : string) : option Z :=
  match trim_start s with
  | String c r as t =>
      if Ascii.eqb c "-" then option_map Z.opp (digits_prefix 0 false r)
      else if Ascii.eqb c "+" then digits_prefix 0 false r
      else digits_prefix 0 false t
  | EmptyString => None
  end.

(** [s.split(sep)] for a one-character separator. *)
Fixpoint split_on (sep : ascii) (s : string) : list string :=
  match s with
  | EmptyString => [EmptyString]
  | String c r =>
      if Ascii.eqb c sep then EmptyString :: split_on sep r
      else match split_on sep r with
           | h :: t => String c h :: t
           | [] => [String c EmptyString]
           end
  end.

(** [s.includes(c)] for a one-character needle. *)
Fixpoint includes_char (c : ascii) (s : string) : bool :=
  match s with
  | EmptyString => false
  | String d r => Ascii.eqb d c || includes_char c r
  end.

(** Decimal rendering of a natural number, most significant digit first. *)
Fixpoint dec_digits (fuel : nat) (n : Z) (acc : string) : string :=
  match fuel with
  | O => acc
  | S f =>
      let acc' := String (ascii_of_nat (Z.to_nat (48 + n mod 10))) acc in
      if n / 10 =? 0 then acc' else dec_digits f (n / 10) acc'
  end.

(** [n.toString()] for an integer. *)
Definition Z_toString (n : Z) : string :=
  if n <? 0 then String "-" (dec_digits (Z.to_nat (Z.log2 (- n)) + 1) (- n) "")
  else dec_digits (Z.to_nat (Z.log2 n) + 1) n "".

(** [s.padStart(2, "0")]. *)
Definition padStart2 (s : string) : string :=
  match s with
  | EmptyString => "00"
  | String c EmptyString => String "0" s
  | _ => s
  end.

(** [a < b] and [a > b] on strings: lexicographic on code units. *)
Definition str_lt (a b : string) : bool := String.ltb a b.
Definition str_gt (a b : string) : bool := String.ltb b a.

(** ASCII part of [toUpperCase]. *)
Definition upper_char (c : ascii) : ascii :=
  let n := nat_of_ascii c in
  if (97 <=? n)%nat && (n <=? 122)%nat then ascii_of_nat (n - 32) else c.

Fixpoint toUpperCase (s : string) : string :=
  match s with
  | EmptyString => EmptyString
  | String c r => String (upper_char c) (toUpperCase r)
  end.

(** [xs.join(sep)]. *)
Fixpoint join (sep : string) (xs : list string) : string :=
  match xs with
  | [] => ""
  | [x] => x
  | x :: r => x ++ sep ++ join sep r
  end.

(** [xs.slice(-n)]: the last [n] elements. *)
Definition slice_last {A} (n : nat) (xs : list A) : list A :=
  skipn (length xs - n) xs.

(** A property key that is an array index: the canonical decimal numeral of
    an integer below 2^32 - 1. *)
Definition indexKey (key : string) : option Z :=
  match key with
  | EmptyString => None
  | _ =>
      match all_digits_from 0 key with
      | Some n =>
          if String.eqb (Z_toString n) key && (n <? 4294967295)
          then Some n else None
      | None => None
      end
  end.

(** [Object.entries(o)] for the object whose properties were added in the
    order of [l]: the array-index keys first, in ascending order, then the
    other keys in the order they were added. *)
Fixpoint insertIndexed {A} (n : Z) (entry : string * A)
    (sorted : list (Z * (string * A))) : list (Z * (string * A)) :=
  match sorted with
  | [] => [(n, entry)]
  | (m, other) :: rest =>
      if n <? m then (n, entry) :: sorted
      else (m, other) :: insertIndexed n entry rest
  end.

Fixpoint indexedEntries {A} (l : list (string * A))
    : list (Z * (string * A)) :=
  match l with
  | [] => []
  | entry :: rest =>
      match indexKey (fst entry) with
      | Some n => insertIndexed n entry (indexedEntries rest)
      | None => indexedEntries rest
      end
  end.

Fixpoint namedEntries {A} (l : list (string * A)) : list (string * A) :=
  match l with
  | [] => []
  | entry :: rest =>
      match indexKey (fst entry) with
      | Some _ => namedEntries rest
      | None => entry :: namedEntries rest
      end
  end.

Definition ownEntries {A} (l : list (string * A)) : list (string * A) :=
  (List.map snd (indexedEntries l) ++ namedEntries l)%list.

(** The properties a plain object inherits from [Object.prototype], each with
    the text [String(...)] gives for what it holds: a built-in function prints
    as its native-code source, and [__proto__] reads the prototype object.
    Each of them holds a truthy value. *)
Definition objectPrototype : list (string * string) :=
  [("constructor", "function Object() { [native code] }");
   ("__defineGetter__", "function __defineGetter__() { [native code] }");
   ("__defineSetter__", "function __defineSetter__() { [native code] }");
   ("hasOwnProperty", "function hasOwnProperty() { [native code] }");
   ("__lookupGetter__", "function __lookupGetter__() { [native code] }");
   ("__lookupSetter__", "function __lookupSetter__() { [native code] }");
   ("isPrototypeOf", "function isPrototypeOf() { [native code] }");
   ("propertyIsEnumerable", "function propertyIsEnumerable() { [native code] }");
   ("toString", "function toString() { [native code] }");
   ("valueOf", "function valueOf() { [native code] }");
   ("__proto__", "[object Object]");
   ("toLocaleString", "function toLocaleString() { [native code] }")].

(** [String(({})[key])] for an inherited [key]. *)
Definition inheritedText (key : string) : option string :=
  option_map snd (List.find (fun p => String.eqb (fst p) key) objectPrototype).

(** [key in {}]: [key] names an inherited property. *)
Definition inherited (key : string) : bool :=
  bool_decide (is_Some (inheritedText key)).

End Js.

(** ** Tick gate: [TickManager] of scheduler.service.ts *)

Module Tick.

(** [AgentTickConfig]. *)
Record AgentTickConfig := {
  enabled : bool;
  intervalMs : option Z;
  intervalSeconds : option Z;
  intervalMinutes : option Z;
  maxTicksPerRound : option Z
}.

(** The two private maps of the class. *)
Record TickManager := {
  tickCounts : gmap string Z;
  lastTickTimes : gmap string Z
}.

Definition empty : TickManager :=
  {| tickCounts := ∅; lastTickTimes := ∅ |}.

(** [this.tickCounts.get(agentId) || 0] *)
Definition getTickCount (tm : TickManager) (agentId : string) : Z :=
  Js.num_or (tickCounts tm !! agentId) 0.

(** [this.lastTickTimes.get(agentId) || 0] *)
Definition lastTickAt (tm : TickManager) (agentId : string) : Z :=
  Js.num_or (lastTickTimes tm !! agentId) 0.

(** [shouldExecute]; [now] is the value of [Date.now()]. *)
Definition shouldExecute (tm : TickManager) (now : Z)
    (agentId : string) (tickConfig : AgentTickConfig) : bool :=
  if negb (enabled tickConfig) then true
  else
    let lastTick := lastTickAt tm agentId in
    let interval := Js.num_or (intervalMs tickConfig) 1000 in
    if now - lastTick <? interval then false
    else
      if Js.truthy_num (maxTicksPerRound tickConfig) then
        let currentTicks := getTickCount tm agentId in
        match maxTicksPerRound tickConfig with
        | Some m => if currentTicks >=? m then false else true
        | None => true
        end
      else true.

(** [recordTick] *)
Definition recordTick (tm : TickManager) (now : Z) (agentId : string)
    : TickManager :=
  let currentTicks := getTickCount tm agentId in
  {| lastTickTimes := <[agentId := now]> (lastTickTimes tm);
     tickCounts := <[agentId := currentTicks + 1]> (tickCounts tm) |}.

(** [resetRound] *)
Definition resetRound (tm : TickManager) (agentId : string) : TickManager :=
  {| tickCounts := <[agentId := 0]> (tickCounts tm);
     lastTickTimes := lastTickTimes tm |}.

(** [getTimeUntilNextTick] *)
Definition getTimeUntilNextTick (tm : TickManager) (now : Z)
    (agentId : string) (tickConfig : AgentTickConfig) : Z :=
  if negb (enabled tickConfig) || negb (Js.truthy_num (intervalMs tickConfig))
  then 0
  else
    let interval := Js.num_or (intervalMs tickConfig) 0 in
    let timeSinceLastTick := now - lastTickAt tm agentId in
    if timeSinceLastTick >=? interval then 0
    else interval - timeSinceLastTick.

(** A manager whose actor ticked at time 10000 and used up a round of three
    ticks; 100 ms later, with a 5000 ms interval, the reset does not open the
    gate. *)
Definition busyManager : TickManager :=
  {| tickCounts := {[ "agent-1" := 3 ]}; lastTickTimes := {[ "agent-1" := 10000 ]} |}.

Definition fiveSeconds : AgentTickConfig :=
  {| enabled := true; intervalMs := Some 5000; intervalSeconds := None;
     intervalMinutes := None; maxTicksPerRound := Some 3 |}.

(** An enabled configuration whose [maxTicksPerRound] is 0, and one that
    gives its interval in seconds only. *)
Definition zeroMaximum : AgentTickConfig :=
  {| enabled := true; intervalMs := Some 1000; intervalSeconds := None;
     intervalMinutes := None; maxTicksPerRound := Some 0 |}.

Definition secondsOnly : AgentTickConfig :=
  {| enabled := true; intervalMs := None; intervalSeconds := Some 5;
     intervalMinutes := None; maxTicksPerRound := None |}.

(** The [{ valid, errors }] object the two validators of
    scheduler.service.ts return: [valid] is [errors.length === 0]. *)
Record Checked := {
  valid : bool;
  errors : list string
}.

Definition checked (errs : list string) : Checked :=
  {| valid := (length errs =? 0)%nat; errors := errs |}.

(** [x !== undefined && x <= 0] *)
Definition defined_nonpositive (o : option Z) : bool :=
  match o with
  | Some n => n <=? 0
  | None => false
  end.

(** [errors.push(message)] under a condition. *)
Definition pushIf (cond : bool) (message : string) : list string :=
  if cond then [message] else [].

(** [validateTickConfig] *)
Definition validateTickConfig (tickConfig : AgentTickConfig) : Checked :=
  checked
    (if enabled tickConfig then
       (pushIf (negb (Js.truthy_num (intervalMs tickConfig))
                && negb (Js.truthy_num (intervalSeconds tickConfig))
                && negb (Js.truthy_num (intervalMinutes tickConfig)))
          "Tick config must specify at least one interval (intervalMs, intervalSeconds, or intervalMinutes)"
        ++ pushIf (defined_nonpositive (intervalMs tickConfig))
             "intervalMs must be positive"
        ++ pushIf (defined_nonpositive (intervalSeconds tickConfig))
             "intervalSeconds must be positive"
        ++ pushIf (defined_nonpositive (intervalMinutes tickConfig))
             "intervalMinutes must be positive"
        ++ pushIf (defined_nonpositive (maxTicksPerRound tickConfig))
             "maxTicksPerRound must be positive")%list
     else []).

(** What the caller of test-advanced-features.ts does at one instant:
    [if (shouldExecute(id, cfg)) recordTick(id)]. *)
Definition tickIfDue (tickConfig : AgentTickConfig) (agentId : string)
    (tm : TickManager) (now : Z) : TickManager :=
  if shouldExecute tm now agentId tickConfig
  then recordTick tm now agentId else tm.

(** The polling loop of that caller over a list of instants. *)
Definition poll (tickConfig : AgentTickConfig) (agentId : string)
    (tm : TickManager) (times : list Z) : TickManager :=
  fold_left (tickIfDue tickConfig agentId) times tm.

End Tick.


(** ** Schedule gate: [AgentScheduler] of scheduler.service.ts

    A [Date] is the number of milliseconds since the epoch.  The host process
    runs in UTC, so the local fields [getDay], [getHours], [getMinutes],
    [setHours] and [setDate] are the UTC ones, and a configured time zone is the
    fixed offset [zoneOffsetMs tz] from UTC (no daylight-saving changes). *)

Module Schedule.

(** [AgentSchedule] (agent.types). *)
Record AgentSchedule := {
  startTime : option string;
  endTime : option string;
  timezone : option string;
  daysOfWeek : option (list Z)
}.

Definition MS_PER_SECOND : Z := 1000.
Definition MS_PER_MINUTE : Z := 60000.
Definition MS_PER_HOUR : Z := 3600000.
Definition MS_PER_DAY : Z := 86400000.

(** [date.getDay()]: 0 is Sunday; the epoch was a Thursday. *)
Definition getDay (t : Z) : Z := (t / MS_PER_DAY + 4) mod 7.

Definition getHours (t : Z) : Z := (t mod MS_PER_DAY) / MS_PER_HOUR.

Definition getMinutes (t : Z) : Z := (t mod MS_PER_HOUR) / MS_PER_MINUTE.

(** [date.setHours(h, m, 0, 0)] *)
Definition setHours (t h m : Z) : Z :=
  (t / MS_PER_DAY) * MS_PER_DAY + h * MS_PER_HOUR + m * MS_PER_MINUTE.

(** [date.setDate(date.getDate() + 1)] *)
Definition addOneDay (t : Z) : Z := t + MS_PER_DAY.

(** [getTimeString]: the time of day as HH:MM. *)
Definition getTimeString (date : Z) : string :=
  let hours := Js.padStart2 (Js.Z_toString (getHours date)) in
  let minutes := Js.padStart2 (Js.Z_toString (getMinutes date)) in
  hours ++ ":" ++ minutes.

(** [xs.includes(d)] on numbers. *)
Definition includes (xs : list Z) (d : Z) : bool := existsb (Z.eqb d) xs.

Section WithZones.

(** Offset from UTC, in milliseconds, of a named time zone. *)
Variable zoneOffsetMs : string -> Z.

(** [schedule.timezone || 'UTC'] *)
Definition zoneOf (schedule : AgentSchedule) : string :=
  if Js.truthy_str (timezone schedule)
  then default "UTC" (timezone schedule) else "UTC".

(** [new Date(now.toLocaleString('en-US', { timeZone }))]: the wall clock of
    the zone, to the second, read back as a host-local date. *)
Definition toLocalTime (now : Z) (tz : string) : Z :=
  ((now + zoneOffsetMs tz) / MS_PER_SECOND) * MS_PER_SECOND.

(** [isWithinSchedule]; [now] is the instant [new Date()] returns. *)
Definition isWithinSchedule (now : Z) (schedule : AgentSchedule) : bool :=
  if negb (Js.truthy_str (startTime schedule))
     && negb (Js.truthy_str (endTime schedule))
     && negb (bool_decide (is_Some (daysOfWeek schedule)))
  then true
  else
    let localTime := toLocalTime now (zoneOf schedule) in
    let dayRejected :=
      match daysOfWeek schedule with
      | Some days =>
          (0 <? Z.of_nat (length days))
          && negb (includes days (getDay localTime))
      | None => false
      end in
    if dayRejected then false
    else if Js.truthy_str (startTime schedule)
            || Js.truthy_str (endTime schedule) then
      let currentTime := getTimeString localTime in
      if Js.truthy_str (startTime schedule)
         && Js.str_lt currentTime (default EmptyString (startTime schedule))
      then false
      else if Js.truthy_str (endTime schedule)
              && Js.str_gt currentTime (default EmptyString (endTime schedule))
      then false
      else true
    else true.

(** [parts[i] ?? 0] on the array [split(':').map(Number)]: a missing element
    is 0, a NaN element stays NaN. *)
Definition partOrZero (parts : list (option Z)) (i : nat) : option Z :=
  match nth_error parts i with
  | Some v => v
  | None => Some 0
  end.

(** [getWaitTimeMs]; [None] is the NaN the subtraction yields when the start
    time does not parse to numbers. *)
Definition getWaitTimeMs (now : Z) (schedule : AgentSchedule) : option Z :=
  if isWithinSchedule now schedule then Some 0
  else
    let localTime := toLocalTime now (zoneOf schedule) in
    if Js.truthy_str (startTime schedule) then
      let parts :=
        List.map Js.Number
          (Js.split_on ":" (default EmptyString (startTime schedule))) in
      match partOrZero parts 0, partOrZero parts 1 with
      | Some hours, Some minutes =>
          let startDate := setHours localTime hours minutes in
          let startDate :=
            if startDate <? localTime then addOneDay startDate else startDate in
          Some (startDate - now)
      | _, _ => None
      end
    else Some 0.

End WithZones.

(** Every zone at offset zero: the host and the schedules are all in UTC. *)
Definition utcOnly : string -> Z := fun _ => 0.

(** The schedule of the test fixture: weekdays, nine to five. *)
Definition weekdayOffice : AgentSchedule :=
  {| startTime := Some "09:00"; endTime := Some "17:00";
     timezone := Some "UTC"; daysOfWeek := Some [1; 2; 3; 4; 5] |}.

(** Saturday 2026-01-03 20:00:00 UTC, Sunday 2026-01-04 09:00:00 UTC and
    Monday 2026-01-05 09:00:00 UTC. *)
Definition saturdayEvening : Z := 1767470400000.
Definition sundayNine : Z := 1767517200000.
Definition mondayNine : Z := 1767603600000.

(** [lo <= c <= hi] on code units: a character class [[lo-hi]]. *)
Definition in_class (lo hi c : ascii) : bool :=
  (nat_of_ascii lo <=? nat_of_ascii c)%nat
  && (nat_of_ascii c <=? nat_of_ascii hi)%nat.

(** [/^([0-1][0-9]|2[0-3]):[0-5][0-9]$/.test(s)] *)
Definition timeRegex_test (s : string) : bool :=
  match s with
  | String h1 (String h2 (String c (String m1 (String m2 EmptyString)))) =>
      ((in_class "0" "1" h1 && in_class "0" "9" h2)
       || (Ascii.eqb h1 "2" && in_class "0" "3" h2))
      && Ascii.eqb c ":"
      && in_class "0" "5" m1 && in_class "0" "9" m2
  | _ => false
  end.

(** The double-quote character of the error messages. *)
Definition dquote : string := String (ascii_of_nat 34) EmptyString.

Definition invalidTime (field time example1 example2 : string) : string :=
  "Invalid " ++ field ++ " format: " ++ time
  ++ ". Use HH:MM in 24-hour format (e.g., "
  ++ dquote ++ example1 ++ dquote ++ ", " ++ dquote ++ example2 ++ dquote
  ++ ")".

Definition invalidDay (day : Z) : string :=
  "Invalid day of week: " ++ Js.Z_toString day
  ++ ". Must be 0-6 (Sunday-Saturday)".

(** [validateSchedule].  Days are integers here, so the [Number.isInteger]
    test of the loop always passes. *)
Definition validateSchedule (schedule : AgentSchedule) : Tick.Checked :=
  let start := default EmptyString (startTime schedule) in
  let stop := default EmptyString (endTime schedule) in
  Tick.checked
    (Tick.pushIf (Js.truthy_str (startTime schedule)
                  && negb (timeRegex_test start))
       (invalidTime "startTime" start "09:00" "14:30")
     ++ Tick.pushIf (Js.truthy_str (endTime schedule)
                     && negb (timeRegex_test stop))
          (invalidTime "endTime" stop "17:00" "23:30")
     ++ Tick.pushIf (Js.truthy_str (startTime schedule)
                     && Js.truthy_str (endTime schedule)
                     && negb (Js.str_lt start stop))
          "startTime must be before endTime"
     ++ match daysOfWeek schedule with
        | Some days =>
            flat_map (fun day =>
                        Tick.pushIf ((day <? 0) || (day >? 6)) (invalidDay day))
              days
        | None => []
        end)%list.

(** Minutes since midnight of an instant and of an [HH:MM] string, as
    [getWaitTimeMs] reads the latter ([split(':').map(Number)]). *)
Definition minuteOfDay (t : Z) : Z := getHours t * 60 + getMinutes t.

Definition minutesOf (time : string) : option Z :=
  let parts := List.map Js.Number (Js.split_on ":" time) in
  match partOrZero parts 0, partOrZero parts 1 with
  | Some hours, Some minutes => Some (hours * 60 + minutes)
  | _, _ => None
  end.

(** The [HH:MM] string of minute [n] of a day. *)
Definition timeOfMinute (n : Z) : string := getTimeString (n * MS_PER_MINUTE).

(** The integers from 0 up to [k], [k] excluded. *)
Definition upTo (k : nat) : list Z := List.map Z.of_nat (seq 0 k).


(** The two schedules of test-advanced-features.ts. *)
Definition kolkataOffice : AgentSchedule :=
  {| startTime := Some "09:00"; endTime := Some "17:00";
     timezone := Some "Asia/Kolkata"; daysOfWeek := Some [1; 2; 3; 4; 5] |}.

Definition malformedSchedule : AgentSchedule :=
  {| startTime := Some "9:00"; endTime := Some "25:00";
     timezone := Some "Asia/Kolkata"; daysOfWeek := None |}.

End Schedule.

(** ** Template resolution

    [TemplateResolver] as listed in docs/CHALLENGES.md (the class the dialogue
    executor imports) and [ExecutionEngine.resolveTemplateString] of the CLI. *)

Module Template.

(** Context trees: the JSON-like values a template path walks through. *)
Inductive value :=
| VUndefined
| VNull
| VBool (b : bool)
| VNum (n : Z)
| VStr (s : string)
| VArr (items : list value)
| VObj (fields : list (string * value)).

(** Outcome of code that may throw [Error(message)]. *)
Inductive result (A : Type) :=
| Ok (a : A)
| Throw (message : string).
Arguments Ok {A} a.
Arguments Throw {A} message.

(** [value === undefined] *)
Definition is_undefined (v : value) : bool :=
  match v with VUndefined => true | _ => false end.

(** [value === null || value === undefined] *)
Definition is_nullish (v : value) : bool :=
  match v with VUndefined | VNull => true | _ => false end.

(** JavaScript truthiness. *)
Definition truthy (v : value) : bool :=
  match v with
  | VUndefined | VNull => false
  | VBool b => b
  | VNum n => negb (n =? 0)
  | VStr s => negb (String.eqb s EmptyString)
  | VArr _ | VObj _ => true
  end.

(** [String(value)]: arrays join their elements with a comma (null and
    undefined elements print as nothing), plain objects print as
    [object Object]. *)
Fixpoint toString (v : value) : string :=
  match v with
  | VUndefined => "undefined"
  | VNull => "null"
  | VBool true => "true"
  | VBool false => "false"
  | VNum n => Js.Z_toString n
  | VStr s => s
  | VArr items =>
      Js.join ","
        (List.map (fun x => if is_nullish x then EmptyString else toString x)
                  items)
  | VObj _ => "[object Object]"
  end.

(** First field named [key] of an object literal. *)
Fixpoint assoc {A} (key : string) (fields : list (string * A)) : option A :=
  match fields with
  | [] => None
  | (k, v) :: rest => if String.eqb k key then Some v else assoc key rest
  end.

(** [obj[key] = v]: overwrite in place, or append a new last property. *)
Fixpoint obj_set {A} (key : string) (v : A) (fields : list (string * A))
    : list (string * A) :=
  match fields with
  | [] => [(key, v)]
  | (k, w) :: rest =>
      if String.eqb k key then (k, v) :: rest
      else (k, w) :: obj_set key v rest
  end.

(** A property key that is an array index: a canonical decimal numeral. *)
Definition array_index (key : string) : option nat :=
  match key with
  | EmptyString => None
  | _ =>
      match Js.all_digits_from 0 key with
      | Some n =>
          if String.eqb (Js.Z_toString n) key then Some (Z.to_nat n) else None
      | None => None
      end
  end.

(** [current[key]] on own properties; inherited methods are not modelled. *)
Definition get_prop (current : value) (key : string) : value :=
  match current with
  | VObj fields => default VUndefined (assoc key fields)
  | VArr items =>
      if String.eqb key "length" then VNum (Z.of_nat (length items))
      else match array_index key with
           | Some i => nth i items VUndefined
           | None => VUndefined
           end
  | VStr s =>
      if String.eqb key "length" then VNum (Z.of_nat (String.length s))
      else match array_index key with
           | Some i =>
               match String.get i s with
               | Some c => VStr (String c EmptyString)
               | None => VUndefined
               end
           | None => VUndefined
           end
  | _ => VUndefined
  end.

(** The property key a number turns into: [String(idx)]. *)
Definition index_key (idx : option Z) : string :=
  match idx with
  | Some n => Js.Z_toString n
  | None => "NaN"
  end.

(** [base?.[idx]] *)
Definition get_index_opt (base : value) (idx : option Z) : value :=
  if is_nullish base then VUndefined else get_prop base (index_key idx).

(** *** The pattern [/\{\{([^}]+)\}\}/g] *)

(** Longest run of characters other than the closing brace, and what follows. *)
Fixpoint take_body (s : string) : string * string :=
  match s with
  | EmptyString => (EmptyString, EmptyString)
  | String c r =>
      if Ascii.eqb c "}" then (EmptyString, s)
      else let '(body, rest) := take_body r in (String c body, rest)
  end.

(** A match of the pattern anchored at the start of [s]: the matched text. *)
Definition match_at (s : string) : option string :=
  match s with
  | String c1 (String c2 r) =>
      if Ascii.eqb c1 "{" && Ascii.eqb c2 "{" then
        match take_body r with
        | (EmptyString, _) => None
        | (body, String d1 (String d2 _)) =>
            if Ascii.eqb d1 "}" && Ascii.eqb d2 "}"
            then Some ("{{" ++ body ++ "}}") else None
        | _ => None
        end
      else None
  | _ => None
  end.

(** [template.match(re)] with the global flag: all matches, left to right,
    none overlapping.  [skip] counts the characters of the last match still to
    be passed over. *)
Fixpoint match_all_from (skip : nat) (s : string) : list string :=
  match s with
  | EmptyString => []
  | String _ r =>
      match skip with
      | S k => match_all_from k r
      | O =>
          match match_at s with
          | Some m => m :: match_all_from (String.length m - 1) r
          | None => match_all_from O r
          end
      end
  end.

Definition match_all (template : string) : list string :=
  match_all_from O template.

(** [m.slice(2, -2)] *)
Definition slice_2_m2 (m : string) : string :=
  let n := String.length m in
  String.substring 2 (n - 4) m.

(** *** [String.prototype.replace] with a string pattern *)

(** First occurrence of [pat] in [s]: the text before it and the text after. *)
Fixpoint find_first (pat s : string) : option (string * string) :=
  if String.prefix pat s
  then Some (EmptyString, String.substring (String.length pat)
                            (String.length s - String.length pat) s)
  else match s with
       | EmptyString => None
       | String c r =>
           match find_first pat r with
           | Some (before, after) => Some (String c before, after)
           | None => None
           end
       end.

(** The replacement text after its dollar patterns are expanded: two dollars
    are one, dollar-ampersand is the match, dollar-backquote the text before
    it, dollar-quote the text after it. *)
Fixpoint expand_replacement (repl matched before after : string) : string :=
  match repl with
  | EmptyString => EmptyString
  | String d (String c r as tail) =>
      if negb (Ascii.eqb d "$") then
        String d (expand_replacement tail matched before after)
      else if Ascii.eqb c "$" then
        String "$" (expand_replacement r matched before after)
      else if Ascii.eqb c "&" then
        matched ++ expand_replacement r matched before after
      else if Ascii.eqb c "`" then
        before ++ expand_replacement r matched before after
      else if Ascii.eqb c "'" then
        after ++ expand_replacement r matched before after
      else String "$" (expand_replacement tail matched before after)
  | String c EmptyString => String c EmptyString
  end.

(** [s.replace(pat, repl)] *)
Definition replace (s pat repl : string) : string :=
  match find_first pat s with
  | Some (before, after) =>
      before ++ expand_replacement repl pat before after ++ after
  | None => s
  end.

(** *** [TemplateResolver] *)

(** One step of the loop of [getNestedValue]. *)
Definition step_part (current : value) (part : string) : value :=
  if Js.includes_char "[" part then
    match Js.split_on "[" part with
    | key :: index :: _ =>
        let idx := Js.parseInt (replace index "]" EmptyString) in
        get_index_opt (get_prop current key) idx
    | _ => VUndefined
    end
  else get_prop current part.

Fixpoint walk_parts (current : value) (parts : list string) : value :=
  match parts with
  | [] => current
  | part :: rest =>
      if is_nullish current then VUndefined
      else walk_parts (step_part current part) rest
  end.

(** [getNestedValue(obj, path)] *)
Definition getNestedValue (obj : value) (path : string) : value :=
  walk_parts obj (Js.split_on "." path).

(** The loop of [resolve] over the matches. *)
Fixpoint resolve_matches (matches : list string) (context : value)
    (resolved : string) : result string :=
  match matches with
  | [] => Ok resolved
  | m :: rest =>
      let path := Js.trim (slice_2_m2 m) in
      let v := getNestedValue context path in
      if is_undefined v
      then Throw ("Template variable not found: " ++ path)
      else resolve_matches rest context (replace resolved m (toString v))
  end.

(** [TemplateResolver.resolve(template, context)] *)
Definition resolve (template : string) (context : value) : result string :=
  match match_all template with
  | [] => Ok template
  | matches => resolve_matches matches context template
  end.

(** Refinement target for the matcher, in the words of the specification: a
    template contains a marker when two opening braces, a non-empty text free
    of closing braces, and two closing braces occur in it in a row. *)
Definition has_marker (template : string) : Prop :=
  exists pre body post,
    template = pre ++ "{{" ++ body ++ "}}" ++ post
    /\ body <> EmptyString
    /\ Js.includes_char "}" body = false.

(** Every character of [s] satisfies [P]. *)
Fixpoint all_chars (P : ascii -> bool) (s : string) : bool :=
  match s with
  | EmptyString => true
  | String c r => P c && all_chars P r
  end.

(** The characters of a decimal numeral. *)
Definition numeral_char (c : ascii) : bool :=
  Js.is_digit c || Ascii.eqb c "-".

(** The path [history[n]], for any integer [n]. *)
Definition historyAt (n : Z) : string := "history[" ++ Js.Z_toString n ++ "]".

(** The context of the specification's example: history is x, y, z. *)
Definition historyXYZ : value :=
  VObj [("history", VArr [VStr "x"; VStr "y"; VStr "z"])].

(** The path a marker names: [match.slice(2, -2).trim()]. *)
Definition markerPath (m : string) : string := Js.trim (slice_2_m2 m).

(** *** [checkCircular] (docs/CHALLENGES.md)

    The closure keeps the set [refs] between calls; the state after the call
    is returned beside the outcome. *)
Fixpoint checkCircular_loop (matches : list string) (refs : gset string)
    : result unit * gset string :=
  match matches with
  | [] => (Ok tt, refs)
  | m :: rest =>
      let path := markerPath m in
      if bool_decide (path ∈ refs)
      then (Throw ("Circular template reference: " ++ path), refs)
      else checkCircular_loop rest ({[ path ]} ∪ refs)
  end.

(** [template.match(re) || []] goes through the loop. *)
Definition checkCircular (refs : gset string) (template : string)
    : result unit * gset string :=
  checkCircular_loop (match_all template) refs.

(** The context of the listing's example: a step with an output. *)
Definition stepContext : value :=
  VObj [("step1", VObj [("output", VStr "hello"); ("note", VNull)])].


End Template.

(** ** The CLI execution engine's template substitution *)

Module Engine.

Import Template.

(** [NodeResult]: the fields template substitution reads. *)
Record NodeResult := {
  id : string;
  status : string;
  output : value
}.

Section WithJson.

(** [JSON.stringify] on a defined value. *)
Variable JSON_stringify : value -> string.

(** [typeof v === 'string' ? v : JSON.stringify(v)], as the text
    [String.prototype.replace] receives. *)
Definition valueStr (v : value) : string :=
  match v with
  | VStr s => s
  | VUndefined => "undefined"
  | _ => JSON_stringify v
  end.

(** [inputKey in workflowInputs ? String(workflowInputs[inputKey]) : none]:
    the [in] operator and the property read go through the prototype chain,
    so a key that was not supplied but names an inherited property is found,
    and prints as that property. *)
Definition inputText (workflowInputs : list (string * value))
    (inputKey : string) : option string :=
  match assoc inputKey workflowInputs with
  | Some v => Some (toString v)
  | None => Js.inheritedText inputKey
  end.

(** The body of the loop over the matches. *)
Definition substitute_match (workflowInputs : list (string * value))
    (previousResults : list NodeResult) (resolvedValue m : string) : string :=
  let path := Js.trim (slice_2_m2 m) in
  let parts := Js.split_on "." path in
  if String.eqb (nth 0 parts EmptyString) "inputs" then
    let inputKey := nth 1 parts "undefined" in
    match inputText workflowInputs inputKey with
    | Some text => replace resolvedValue m text
    | None => resolvedValue
    end
  else
    let nodeId := nth 0 parts EmptyString in
    let outputKey := nth_error parts 1 in
    match List.find (fun r => String.eqb (id r) nodeId) previousResults with
    | Some nodeResult =>
        if truthy (output nodeResult) then
          let outputValue :=
            if Js.truthy_str outputKey
            then get_prop (output nodeResult) (default EmptyString outputKey)
            else output nodeResult in
          replace resolvedValue m (valueStr outputValue)
        else resolvedValue
    | None => resolvedValue
    end.

(** [ExecutionEngine.resolveTemplateString] *)
Definition resolveTemplateString (template : string)
    (workflowInputs : list (string * value))
    (previousResults : list NodeResult) : string :=
  match match_all template with
  | [] => template
  | matches =>
      fold_left (substitute_match workflowInputs previousResults)
        matches template
  end.

End WithJson.

(** The history of the specification's example, offered to the engine both as
    a workflow input and as the output of a node called history. *)
Definition historyInputs : list (string * value) :=
  [("history", VArr [VStr "x"; VStr "y"; VStr "z"])].

Definition historyResults : list NodeResult :=
  [{| id := "history"; status := "completed";
      output := VArr [VStr "x"; VStr "y"; VStr "z"] |}].

End Engine.

(** ** Structural validation of parsed workflow documents *)

Module Validate.

Import Template.

(** *** [WorkflowYAMLParser.validateYAML] of yaml-parser.service.ts *)

(** A node entry of the YAML document. *)
Record YamlNode := {
  node_id : string;
  node_name : string;
  node_agent : option string
}.

(** [nodes] is either an array of nodes or an object keyed by node id, given
    by its entries in the order of the document. *)
Inductive YamlNodes :=
| NodesArray (nodes : list YamlNode)
| NodesObject (entries : list (string * YamlNode)).

Record YamlEdge := {
  from : string;
  to : string;
  condition : option string
}.

(** [WorkflowYAMLSpec]: the fields validation reads. *)
Record WorkflowYAMLSpec := {
  name : option string;
  chain : option string;
  token : option string;
  maxBudget : option string;
  entryNode : option string;
  nodes : option YamlNodes;
  edges : option (list YamlEdge)
}.

(** [Array.isArray(nodes) ? nodes.length : Object.keys(nodes).length] *)
Definition nodeCount (ns : YamlNodes) : nat :=
  match ns with
  | NodesArray l => length l
  | NodesObject l => length l
  end.

(** [nodes.some(n => n.id === key)], or [nodes[key]] being truthy: the
    property read goes through the prototype chain, so besides the keys of
    [nodes] every inherited property name gives a truthy value. *)
Definition nodeExists (ns : YamlNodes) (key : string) : bool :=
  match ns with
  | NodesArray l => existsb (fun n => String.eqb (node_id n) key) l
  | NodesObject l => bool_decide (is_Some (assoc key l)) || Js.inherited key
  end.


(** The loop over the edges: the first edge with a missing endpoint throws. *)
Fixpoint checkEdges (ns : YamlNodes) (es : list YamlEdge) : result unit :=
  match es with
  | [] => Ok tt
  | edge :: rest =>
      if negb (nodeExists ns (from edge)) then
        Throw ("Edge references non-existent node: " ++ from edge)
      else if negb (nodeExists ns (to edge)) then
        Throw ("Edge references non-existent node: " ++ to edge)
      else checkEdges ns rest
  end.

(** [validateYAML]: returns normally or throws [WorkflowValidationError]. *)
Definition validateYAML (yaml : WorkflowYAMLSpec) : result unit :=
  if negb (Js.truthy_str (name yaml)) then
    Throw "Workflow name is required"
  else if negb (Js.truthy_str (chain yaml))
          || negb (Js.truthy_str (token yaml)) then
    Throw "Chain and token are required"
  else if negb (Js.truthy_str (maxBudget yaml)) then
    Throw "maxBudget is required"
  else
    match nodes yaml with
    | None => Throw "Workflow must have at least one node"
    | Some ns =>
        if (nodeCount ns =? 0)%nat then
          Throw "Workflow must have at least one node"
        else if negb (Js.truthy_str (entryNode yaml)) then
          Throw "entryNode is required"
        else
          let entry := default EmptyString (entryNode yaml) in
          if negb (nodeExists ns entry) then
            Throw ("Entry node " ++ entry ++ " does not exist")
          else
            match edges yaml with
            | Some es => checkEdges ns es
            | None => Ok tt
            end
    end.

(** *** [WorkflowYAMLParser.validate] and [parse] of the CLI parser *)

(** [ValidationError] *)
Record ValidationError := {
  type : string;
  message : string;
  path : option string
}.

Definition validationError (msg : string) (p : option string)
    : ValidationError :=
  {| type := "validation"; message := msg; path := p |}.

(** A node of the parsed document: [id] and [ref] may be missing. *)
Record ParsedNode := {
  p_id : option string;
  p_ref : option string
}.

Record ParsedEdge := {
  p_from : option string;
  p_to : option string
}.

(** A field that should hold an array. *)
Inductive arrayField (A : Type) :=
| Missing
| NotArray
| IsArray (items : list A).
Arguments Missing {A}.
Arguments NotArray {A}.
Arguments IsArray {A} items.

Record Parsed := {
  p_name : option string;
  p_version : option string;
  p_nodes : arrayField ParsedNode;
  p_edges : arrayField ParsedEdge
}.

(** The callback of [parsed.nodes.forEach]; [seen] is the set [nodeIds] so
    far; the result is the errors pushed and the set afterwards. *)
Definition checkNode (seen : list string) (index : nat) (node : ParsedNode)
    : list ValidationError * list string :=
  let idx := Js.Z_toString (Z.of_nat index) in
  let '(idErrors, seen') :=
    if negb (Js.truthy_str (p_id node)) then
      ([validationError ("Node at index " ++ idx ++ " missing id")
          (Some ("nodes[" ++ idx ++ "]"))], seen)
    else
      let i := default EmptyString (p_id node) in
      ((if existsb (String.eqb i) seen
        then [validationError ("Duplicate node ID: " ++ i)
                (Some ("nodes[" ++ idx ++ "].id"))]
        else []),
       (seen ++ [i])%list) in
  let refErrors :=
    if negb (Js.truthy_str (p_ref node)) then
      [validationError
         ("Node " ++ (if Js.truthy_str (p_id node)
                      then default EmptyString (p_id node) else idx)
          ++ " missing ref (agent reference)")
         (Some ("nodes[" ++ idx ++ "]"))]
    else [] in
  ((idErrors ++ refErrors)%list, seen').

Fixpoint checkNodes (seen : list string) (index : nat)
    (ns : list ParsedNode) : list ValidationError :=
  match ns with
  | [] => []
  | node :: rest =>
      let '(errs, seen') := checkNode seen index node in
      (errs ++ checkNodes seen' (S index) rest)%list
  end.

(** [nodeIds.has(x)] for the set built from every [n.id] plus "output". *)
Definition knownId (ns : list ParsedNode) (x : string) : bool :=
  existsb (fun n => match p_id n with
                    | Some i => String.eqb i x
                    | None => false
                    end) ns
  || String.eqb x "output".

(** The callback of [parsed.edges.forEach]. *)
Definition checkEdge (ns : list ParsedNode) (index : nat) (edge : ParsedEdge)
    : list ValidationError :=
  let idx := Js.Z_toString (Z.of_nat index) in
  let here := Some ("edges[" ++ idx ++ "]") in
  let missingFrom :=
    if negb (Js.truthy_str (p_from edge))
    then [validationError ("Edge at index " ++ idx ++ " missing 'from' field")
            here]
    else [] in
  let missingTo :=
    if negb (Js.truthy_str (p_to edge))
    then [validationError ("Edge at index " ++ idx ++ " missing 'to' field")
            here]
    else [] in
  let danglingFrom :=
    if Js.truthy_str (p_from edge)
       && negb (knownId ns (default EmptyString (p_from edge)))
    then [validationError
            ("Edge references non-existent node: "
             ++ default EmptyString (p_from edge))
            (Some ("edges[" ++ idx ++ "].from"))]
    else [] in
  let danglingTo :=
    if Js.truthy_str (p_to edge)
       && negb (knownId ns (default EmptyString (p_to edge)))
    then [validationError
            ("Edge references non-existent node: "
             ++ default EmptyString (p_to edge))
            (Some ("edges[" ++ idx ++ "].to"))]
    else [] in
  (missingFrom ++ missingTo ++ danglingFrom ++ danglingTo)%list.

Fixpoint checkParsedEdges (ns : list ParsedNode) (index : nat)
    (es : list ParsedEdge) : list ValidationError :=
  match es with
  | [] => []
  | edge :: rest =>
      (checkEdge ns index edge ++ checkParsedEdges ns (S index) rest)%list
  end.

(** The message of the [TypeError] raised when [map] is called on a value
    that is not an array; its wording is the engine's. *)
Definition notAFunction : string := "(parsed.nodes || []).map is not a function".

(** [validate(parsed)]: the accumulated errors; it throws only when [nodes]
    holds a non-array while [edges] is an array. *)
Definition validate (parsed : Parsed) : result (list ValidationError) :=
  let e1 :=
    if negb (Js.truthy_str (p_name parsed))
    then [validationError "Workflow name is required" None] else [] in
  let e2 :=
    if negb (Js.truthy_str (p_version parsed))
    then [validationError "Workflow version is required" None] else [] in
  let e3 :=
    match p_nodes parsed with
    | IsArray _ => []
    | _ => [validationError "Workflow must have nodes array" None]
    end in
  let e4 :=
    match p_nodes parsed with
    | IsArray ns => checkNodes [] 0 ns
    | _ => []
    end in
  match p_edges parsed with
  | IsArray es =>
      match p_nodes parsed with
      | NotArray => Throw notAFunction
      | Missing => Ok (e1 ++ e2 ++ e3 ++ e4 ++ checkParsedEdges [] 0 es)%list
      | IsArray ns => Ok (e1 ++ e2 ++ e3 ++ e4 ++ checkParsedEdges ns 0 es)%list
      end
  | _ => Ok (e1 ++ e2 ++ e3 ++ e4)%list
  end.

(** [ParseResult]; the workflow definition itself is not needed here. *)
Record ParseResult := {
  valid : bool;
  hasWorkflow : bool;
  errors : option (list ValidationError)
}.

(** [parse] from the parsed document on: validation errors make the result
    invalid; an exception is reported as a single syntax error. *)
Definition parse (parsed : Parsed) : ParseResult :=
  match validate parsed with
  | Throw msg =>
      {| valid := false; hasWorkflow := false;
         errors := Some [{| type := "syntax"; message := msg; path := None |}] |}
  | Ok validationErrors =>
      if (0 <? length validationErrors)%nat then
        {| valid := false; hasWorkflow := false;
           errors := Some validationErrors |}
      else
        match p_edges parsed with
        | NotArray =>
            {| valid := false; hasWorkflow := false;
               errors := Some [{| type := "syntax";
                                  message := "(parsed.edges || []).map is not a function";
                                  path := None |}] |}
        | _ => {| valid := true; hasWorkflow := true; errors := None |}
        end
  end.




(** The cycle fixture as a YAML document: edges A to B, B to C, C to A. *)
Definition yamlNode (i : string) : YamlNode :=
  {| node_id := i; node_name := i; node_agent := Some "echo-agent-v1" |}.

Definition cycleYaml : WorkflowYAMLSpec :=
  {| name := Some "wf"; chain := Some "base"; token := Some "USDC";
     maxBudget := Some "5.0"; entryNode := Some "A";
     nodes := Some (NodesArray [yamlNode "A"; yamlNode "B"; yamlNode "C"]);
     edges := Some [{| from := "A"; to := "B"; condition := None |};
                    {| from := "B"; to := "C"; condition := None |};
                    {| from := "C"; to := "A"; condition := None |}] |}.






End Validate.

(** ** Cycle detection: [detectCycles] as listed in docs/CHALLENGES.md *)

Module Cycles.

(** A node of the workflow specification: its id and the ids it depends on. *)
Record SpecNode := {
  id : string;
  depends : option (list string)
}.

Record WorkflowSpec := {
  nodes : list SpecNode
}.

Record ValidationResult := {
  valid : bool;
  errors : list string;
  warnings : list string
}.

(** The variables the closure [dfs] captures and mutates. *)
Record DfsState := {
  visited : gset string;
  recursionStack : gset string;
  found : list string
}.

Definition initial : DfsState :=
  {| visited := ∅; recursionStack := ∅; found := [] |}.

(** [visited.add(nodeId); recursionStack.add(nodeId)] *)
Definition enter (nodeId : string) (st : DfsState) : DfsState :=
  {| visited := {[nodeId]} ∪ visited st;
     recursionStack := {[nodeId]} ∪ recursionStack st;
     found := found st |}.

(** [recursionStack.delete(nodeId)] *)
Definition leave (nodeId : string) (st : DfsState) : DfsState :=
  {| visited := visited st;
     recursionStack := recursionStack st ∖ {[nodeId]};
     found := found st |}.

(** The separator of the reported path: space, rightwards arrow, space. *)
Definition arrow : string := " → ".

(** [errors.push(`Circular dependency detected: ...`)] *)
Definition report (path : list string) (st : DfsState) : DfsState :=
  {| visited := visited st;
     recursionStack := recursionStack st;
     found :=
       (found st
        ++ [("Circular dependency detected: " ++ Js.join arrow path)%string])%list |}.

(** [spec.nodes.find(n => n.id === nodeId)] *)
Definition findNode (spec : WorkflowSpec) (nodeId : string) : option SpecNode :=
  List.find (fun n => String.eqb (id n) nodeId) (nodes spec).

(** The loop over the dependencies of one node; [recur] is the recursive
    call of [dfs].  The result is what [dfs] is about to return from inside
    the loop ([true]) or that the loop ran to its end ([false]). *)
Fixpoint visitDeps (recur : string -> list string -> DfsState -> option (bool * DfsState))
    (path : list string) (deps : list string) (st : DfsState)
    : option (bool * DfsState) :=
  match deps with
  | [] => Some (false, st)
  | depId :: rest =>
      if negb (bool_decide (depId ∈ visited st)) then
        match recur depId (path ++ [depId])%list st with
        | None => None
        | Some (true, st') => Some (true, st')
        | Some (false, st') => visitDeps recur path rest st'
        end
      else if bool_decide (depId ∈ recursionStack st) then
        Some (true, report (path ++ [depId])%list st)
      else visitDeps recur path rest st
  end.

(** The closure [dfs]; [fuel] bounds the depth of the recursion and [None]
    means it was exhausted. *)
Fixpoint dfs (spec : WorkflowSpec) (fuel : nat) (nodeId : string)
    (path : list string) (st : DfsState) : option (bool * DfsState) :=
  match fuel with
  | O => None
  | S fuel' =>
      let st := enter nodeId st in
      match findNode spec nodeId with
      | None => Some (false, st)
      | Some node =>
          match visitDeps (dfs spec fuel') path (default [] (depends node)) st with
          | None => None
          | Some (true, st') => Some (true, st')
          | Some (false, st') => Some (false, leave nodeId st')
          end
      end
  end.

(** The loop over all nodes that starts a traversal at every node not yet
    visited; the boolean [dfs] returns is dropped. *)
Fixpoint visitAll (spec : WorkflowSpec) (fuel : nat) (ns : list SpecNode)
    (st : DfsState) : option DfsState :=
  match ns with
  | [] => Some st
  | node :: rest =>
      if negb (bool_decide (id node ∈ visited st)) then
        match dfs spec fuel (id node) [id node] st with
        | None => None
        | Some (_, st') => visitAll spec fuel rest st'
        end
      else visitAll spec fuel rest st
  end.

(** Every id the traversal can meet: node ids and dependency ids. *)
Definition universe (spec : WorkflowSpec) : gset string :=
  list_to_set
    (List.flat_map (fun n => id n :: default [] (depends n)) (nodes spec)).

(** [detectCycles(spec)] *)
Definition detectCycles (spec : WorkflowSpec) : option ValidationResult :=
  match visitAll spec (S (size (universe spec))) (nodes spec) initial with
  | Some st =>
      Some {| valid := (length (found st) =? 0)%nat;
              errors := found st;
              warnings := [] |}
  | None => None
  end.

(** The cycle fixture A → B → C → A as docs/CHALLENGES.md writes it: an
    arrow runs from a node to the node that lists it in [depends], so A lists
    C, B lists A and C lists B. *)
Definition cycleABC : WorkflowSpec :=
  {| nodes := [ {| id := "A"; depends := Some ["C"] |};
                {| id := "B"; depends := Some ["A"] |};
                {| id := "C"; depends := Some ["B"] |} ] |}.

(** The same cycle where every node first depends on a self-dependent Z. *)
Definition cycleBehindZ : WorkflowSpec :=
  {| nodes := [ {| id := "A"; depends := Some ["Z"; "C"] |};
                {| id := "B"; depends := Some ["Z"; "A"] |};
                {| id := "C"; depends := Some ["Z"; "B"] |};
                {| id := "Z"; depends := Some ["Z"] |} ] |}.

(** The cycle next to a node [start] that has no dependencies and comes
    first: the cycle is not reachable from it. *)
Definition cycleApart : WorkflowSpec :=
  {| nodes := [ {| id := "start"; depends := None |};
                {| id := "A"; depends := Some ["C"] |};
                {| id := "B"; depends := Some ["A"] |};
                {| id := "C"; depends := Some ["B"] |} ] |}.

(** The id A is used twice, and only its second node depends on itself. *)
Definition repeatedId : WorkflowSpec :=
  {| nodes := [ {| id := "A"; depends := None |};
                {| id := "A"; depends := Some ["A"] |} ] |}.

(** The dependency the traversal follows from [a]: [find] returns the first
    node whose id is [a], and [b] is among its dependencies. *)
Definition follows (spec : WorkflowSpec) (a b : string) : Prop :=
  exists node, findNode spec a = Some node /\ b ∈ default [] (depends node).

(** [a] depends on [b]: some node with the id [a] lists [b]. *)
Definition depends_on (spec : WorkflowSpec) (a b : string) : Prop :=
  exists node, node ∈ nodes spec /\ id node = a /\ b ∈ default [] (depends node).

(** No two nodes share an id. *)
Definition uniqueIds (spec : WorkflowSpec) : bool :=
  bool_decide (NoDup (List.map id (nodes spec))).

(** The arrow [a → b] of the repository's notation: [b] lists [a] in its
    [depends]. *)
Definition edge (spec : WorkflowSpec) (a b : string) : Prop :=
  depends_on spec b a.

(** The specification contains the cycle a → b, b → c, c → a. *)
Definition contains_cycle (spec : WorkflowSpec) (a b c : string) : Prop :=
  edge spec a b /\ edge spec b c /\ edge spec c a.

(** Each id of the path depends on the one after it. *)
Fixpoint walk (spec : WorkflowSpec) (path : list string) : Prop :=
  match path with
  | a :: (b :: _) as rest => depends_on spec a b /\ walk spec rest
  | _ => True
  end.

(** The message of a reported path. *)
Definition cycleMessage (path : list string) : string :=
  "Circular dependency detected: " ++ Js.join arrow path.

(** A path that closes a cycle: a walk whose last id occurs earlier on it. *)
Definition closes_cycle (spec : WorkflowSpec) (path : list string) : Prop :=
  walk spec path
  /\ exists pre d mid, path = (pre ++ d :: mid ++ [d])%list.

(** A node is finished once it was visited and has left the recursion stack. *)
Definition finished (st : DfsState) (x : string) : Prop :=
  x ∈ visited st /\ x ∉ recursionStack st.

(** *** Conditions used to reason about the traversal *)

Section Conditions.

Variable spec : WorkflowSpec.

Implicit Types (st : DfsState) (x nodeId : string) (path deps : list string).

(** What one call of [dfs] on a fresh node guarantees, whatever it returns:
    the visited set only grows and now holds the node; nodes visited before
    keep their place on or off the stack; errors are never dropped; a [true]
    answer comes with an error; a [false] answer for a declared node leaves
    it off the stack. *)
Definition dfs_post nodeId st (b : bool) st' : Prop :=
  visited st ⊆ visited st'
  /\ nodeId ∈ visited st'
  /\ (forall x, x ∈ visited st -> x ∈ recursionStack st' <-> x ∈ recursionStack st)
  /\ (found st <> [] -> found st' <> [])
  /\ (b = true -> found st' <> [])
  /\ (b = false -> findNode spec nodeId <> None -> nodeId ∉ recursionStack st').

(** What the loop over the dependencies guarantees: as above, and when it
    runs to its end every dependency is visited and is off the stack or
    undeclared. *)
Definition loop_post deps st (b : bool) st' : Prop :=
  visited st ⊆ visited st'
  /\ (forall x, x ∈ visited st -> x ∈ recursionStack st' <-> x ∈ recursionStack st)
  /\ (found st <> [] -> found st' <> [])
  /\ (b = true -> found st' <> [])
  /\ (b = false ->
      forall d, d ∈ deps ->
        d ∈ visited st'
        /\ (d ∉ recursionStack st' \/ findNode spec d = None)).

Definition recur_ok
    (recur : string -> list string -> DfsState -> option (bool * DfsState))
    : Prop :=
  forall nodeId path st b st',
    recur nodeId path st = Some (b, st') ->
    nodeId ∉ visited st -> dfs_post nodeId st b st'.

(** Ids of the universe not visited yet: each call of [dfs] removes one. *)
Definition unvisited (st : DfsState) : nat :=
  size (universe spec ∖ visited st).

Definition recur_total
    (recur : string -> list string -> DfsState -> option (bool * DfsState))
    (bound : nat) : Prop :=
  forall nodeId path st,
    nodeId ∈ universe spec -> nodeId ∉ visited st ->
    (unvisited st <= bound)%nat -> is_Some (recur nodeId path st).

(** What a call guarantees when no error was on record before it: a [true]
    answer comes with exactly one error, whose path closes a cycle; a [false]
    answer leaves the errors empty and the stack as it was. *)
Definition path_post st (b : bool) st' : Prop :=
  visited st ⊆ visited st'
  /\ (if b
      then exists path,
             found st' = [cycleMessage path] /\ closes_cycle spec path
      else found st' = [] /\ recursionStack st' = recursionStack st).

(** What holds when [dfs] is called for a fresh, declared node before any
    error: the path is a walk that ends at the node, and the stack holds the
    ids before it on the path. *)
Definition path_pre nodeId path st : Prop :=
  (nodeId ∉ visited st) /\ findNode spec nodeId <> None /\ found st = []
  /\ walk spec path
  /\ (exists init, path = (init ++ [nodeId])%list
                   /\ forall x, x ∈ recursionStack st <-> x ∈ init)
  /\ recursionStack st ⊆ visited st.

(** A set of declared nodes each of which depends on another member can
    never finish; the nodes of a dependency cycle are such a set. *)
Variable trapped : string -> Prop.

(** No trapped node is finished. *)
Definition none_finished st : Prop :=
  forall x, trapped x -> ~ finished st x.

(** Once a trapped node was visited an error is on record. *)
Definition visit_recorded st : Prop :=
  (exists x, trapped x /\ x ∈ visited st) -> found st <> [].

Definition recur_inv
    (recur : string -> list string -> DfsState -> option (bool * DfsState))
    : Prop :=
  forall nodeId path st b st',
    recur nodeId path st = Some (b, st') ->
    nodeId ∉ visited st -> none_finished st ->
    none_finished st' /\ (visit_recorded st -> visit_recorded st').

End Conditions.

(** Every listed dependency is the id of a declared node. *)
Definition declared (spec : WorkflowSpec) : bool :=
  forallb
    (fun n =>
       forallb (fun d => bool_decide (is_Some (findNode spec d)))
         (default [] (depends n)))
    (nodes spec).

(** No node depends on itself through one or more dependencies. *)
Definition acyclic (spec : WorkflowSpec) : Prop :=
  forall x, ~ tc (depends_on spec) x x.

(** A diamond: A depends on B and C, which both depend on D. *)
Definition diamond : WorkflowSpec :=
  {| nodes := [ {| id := "A"; depends := Some ["B"; "C"] |};
                {| id := "B"; depends := Some ["D"] |};
                {| id := "C"; depends := Some ["D"] |};
                {| id := "D"; depends := None |} ] |}.

(** Two nodes that share a dependency no node declares. *)
Definition sharedDangling : WorkflowSpec :=
  {| nodes := [ {| id := "A"; depends := Some ["X"] |};
                {| id := "B"; depends := Some ["X"] |} ] |}.

(** An error message mentions every one of the given ids. *)
Fixpoint contains (needle s : string) : bool :=
  String.prefix needle s
  || match s with
     | EmptyString => false
     | String _ r => contains needle r
     end.

Definition mentions_all (ids : list string) (message : string) : bool :=
  forallb (fun i => contains i message) ids.

End Cycles.

(** ** Dialogue orchestration: [DialogueExecutor] of
    dialogue-executor.service.ts *)

Module Dialogue.

Import Template.

(** [DialogueTurn] *)
Record DialogueTurn := {
  speaker : string;
  prompt : string;
  respondTo : option (list string)
}.

(** [DialogueConfig]; [mode] is the string the YAML document carries. *)
Record DialogueConfig := {
  mode : string;
  participants : list string;
  turns : list DialogueTurn;
  maxTurns : option Z;
  endCondition : option string
}.

(** [WorkflowNode]: the fields the executor reads. *)
Record WorkflowNode := {
  node_id : string;
  node_name : string;
  agentRef : option string;
  dialogue : option DialogueConfig
}.

(** [AgentDefinition]: the fields the executor reads. *)
Record Agent := {
  ref : string;
  endpointUrl : option string
}.

(** [DialogueTurnResult] *)
Record DialogueTurnResult := {
  turnId : string;
  t_speaker : string;
  t_prompt : string;
  response : value;
  timestamp : Z;
  cost : value
}.

(** [DialogueContext]; the [Map] of participants keeps insertion order. *)
Record DialogueContext := {
  c_turns : list DialogueTurnResult;
  c_participants : list (string * Agent);
  conversationHistory : list string
}.

Record DialogueSummary := {
  totalTurns : nat;
  s_participants : list string;
  startTime : option Z;
  endTime : option Z;
  s_conversationHistory : list string
}.

Record DialogueOutput := {
  o_turns : list DialogueTurnResult;
  o_conversationHistory : list string;
  summary : DialogueSummary
}.

(** [NodeRun] *)
Record NodeRun := {
  nodeRunId : string;
  runId : string;
  nodeId : string;
  r_agentRef : string;
  status : string;
  startedAt : Z;
  endedAt : Z;
  inputs : list (string * value);
  output : DialogueOutput;
  r_cost : string;
  retryCount : Z;
  logs : list string
}.

(** Code that mutates the shared [DialogueContext] and may throw: the context
    is returned in either case, as the caller keeps its reference to it. *)
Definition M (A : Type) : Type := DialogueContext -> result A * DialogueContext.

Definition ret {A} (a : A) : M A := fun ctx => (Ok a, ctx).

Definition throw {A} (msg : string) : M A := fun ctx => (Throw msg, ctx).

Definition bind {A B} (m : M A) (k : A -> M B) : M B :=
  fun ctx =>
    match m ctx with
    | (Ok a, ctx') => k a ctx'
    | (Throw msg, ctx') => (Throw msg, ctx')
    end.

Notation "'do' x <- m ; k" := (bind m (fun x => k))
  (at level 10, x name, m at level 99, k at level 200).

Definition getContext : M DialogueContext := fun ctx => (Ok ctx, ctx).

Definition newline : string := String (ascii_of_nat 10) EmptyString.

(** [getSpeakerName]: the text before the first hyphen, upper-cased. *)
Definition getSpeakerName (speakerRef : string) : string :=
  match Js.split_on "-" speakerRef with
  | first :: _ =>
      Js.toUpperCase (if String.eqb first EmptyString then "UNKNOWN" else first)
  | [] => "UNKNOWN"
  end.

(** A turn result as the template resolver sees it in [previousTurns]. *)
Definition turnValue (t : DialogueTurnResult) : value :=
  VObj [("turnId", VStr (turnId t)); ("speaker", VStr (t_speaker t));
        ("prompt", VStr (t_prompt t)); ("response", response t);
        ("timestamp", VNum (timestamp t)); ("cost", cost t)].

(** [{...workflowContext, conversationHistory, previousTurns}] *)
Definition turnContext (context : DialogueContext)
    (workflowContext : list (string * value)) : value :=
  VObj (obj_set "previousTurns" (VArr (List.map turnValue (c_turns context)))
         (obj_set "conversationHistory"
            (VArr (List.map VStr (conversationHistory context)))
            workflowContext)).

(** [context.turns[context.turns.length - 1]?.response || ''] *)
Definition lastResponse (context : DialogueContext) : value :=
  match last (c_turns context) with
  | Some t => if truthy (response t) then response t else VStr EmptyString
  | None => VStr EmptyString
  end.

(** [{...workflowContext, turnCount, lastResponse}] *)
Definition conditionContext (context : DialogueContext)
    (workflowContext : list (string * value)) : value :=
  VObj (obj_set "lastResponse" (lastResponse context)
         (obj_set "turnCount" (VNum (Z.of_nat (length (c_turns context))))
            workflowContext)).

(** [Object.values(v)] *)
Definition objectValues (v : value) : list value :=
  match v with
  | VObj fields => List.map snd fields
  | VArr items => items
  | VStr s => List.map (fun c => VStr (String c EmptyString)) (list_ascii_of_string s)
  | _ => []
  end.

(** [generateDynamicPrompt] *)
Definition generateDynamicPrompt (speaker : string) (context : DialogueContext)
    (workflowContext : list (string * value)) : string :=
  let recentHistory :=
    Js.join newline (Js.slice_last 3 (conversationHistory context)) in
  let source :=
    match assoc "inputs" workflowContext with
    | Some v => if truthy v then v else VObj workflowContext
    | None => VObj workflowContext
    end in
  let joined :=
    Js.join ", "
      (List.map (fun x => if is_nullish x then EmptyString else toString x)
         (objectValues source)) in
  let topic :=
    if String.eqb joined EmptyString then "the current topic" else joined in
  "Based on the conversation so far:" ++ newline ++ recentHistory ++ newline
  ++ newline ++ "Please provide your perspective on: " ++ topic.

(** [selectNextSpeaker] *)
Definition selectNextSpeaker (participants : list string)
    (context : DialogueContext) : string :=
  let recentSpeakers := List.map t_speaker (Js.slice_last 2 (c_turns context)) in
  match List.find (fun p => negb (existsb (String.eqb p) recentSpeakers))
          participants with
  | Some p => p
  | None => nth 0 participants EmptyString
  end.

(** [generateDialogueSummary] *)
Definition generateDialogueSummary (context : DialogueContext)
    : DialogueSummary :=
  {| totalTurns := length (c_turns context);
     s_participants := List.map fst (c_participants context);
     startTime := option_map timestamp (head (c_turns context));
     endTime := option_map timestamp (last (c_turns context));
     s_conversationHistory := conversationHistory context |}.

(** The response an agent result yields, or the [TypeError] raised on the
    way: by the [in] operator on a result that is no object, by reading the
    [kind] of a part that is null or undefined, or by iterating parts that
    cannot be iterated.  The characters of a string iterate but have no
    [kind], so they contribute nothing. *)
Section Extraction.

Variable JSON_stringify : value -> string.

(** What one part adds to the response. *)
Definition partText (part : value) : result string :=
  match part with
  | VUndefined => Throw "Cannot read properties of undefined (reading 'kind')"
  | VNull => Throw "Cannot read properties of null (reading 'kind')"
  | _ =>
      Ok match get_prop part "kind" with
         | VStr k =>
             if String.eqb k "text" then toString (get_prop part "text")
             else if String.eqb k "data" then
               let data := get_prop part "data" in
               let r :=
                 if is_nullish data then VUndefined
                 else get_prop data "response" in
               if truthy r then toString r else EmptyString
             else EmptyString
         | _ => EmptyString
         end
  end.

(** The loop over [message.parts]; [response] is the text so far. *)
Fixpoint partsText (parts : list value) (response : string) : result string :=
  match parts with
  | [] => Ok response
  | part :: rest =>
      match partText part with
      | Throw message => Throw message
      | Ok text => partsText rest (response ++ text)
      end
  end.

Definition hasKey (key : string) (v : value) : bool :=
  match v with
  | VObj fields => bool_decide (is_Some (assoc key fields))
  | _ => false
  end.

(** [typeof v === 'object' && v !== null]: what the [in] operator accepts
    on its right. *)
Definition isObject (v : value) : bool :=
  match v with
  | VObj _ | VArr _ => true
  | _ => false
  end.

Definition extractResponse (res : value) : result value :=
  if negb (isObject res) then
    Throw ("Cannot use 'in' operator to search for 'kind' in " ++ toString res)
  else
    let isMessage :=
      hasKey "kind" res
      && match get_prop res "kind" with
         | VStr k => String.eqb k "message"
         | _ => false
         end
      && hasKey "parts" res in
    if isMessage then
      match get_prop res "parts" with
      | VArr parts =>
          match partsText parts EmptyString with
          | Ok text => Ok (VStr text)
          | Throw message => Throw message
          end
      | VStr _ => Ok (VStr EmptyString)
      | _ => Throw "message.parts is not iterable"
      end
    else if hasKey "output" res && truthy (get_prop res "output") then
      let out := get_prop res "output" in
      if truthy (get_prop out "response") then Ok (get_prop out "response")
      else if truthy (get_prop out "text") then Ok (get_prop out "text")
      else Ok (VStr (JSON_stringify out))
    else if hasKey "text" res then Ok (get_prop res "text")
    else Ok (VStr (JSON_stringify res)).

(** [('cost' in result ? result.cost : '0') || '0'] *)
Definition extractCost (res : value) : value :=
  let c := if hasKey "cost" res then get_prop res "cost" else VStr "0" in
  if truthy c then c else VStr "0".

End Extraction.

(** The line of a turn in the transcript: [`${speaker}: ${turn.response}`]. *)
Definition turnLine (t : DialogueTurnResult) : string :=
  getSpeakerName (t_speaker t) ++ ": " ++ toString (response t).



(** Every recorded turn was spoken by a key of the participants map. *)
Definition spokenByParticipants (context : DialogueContext) : Prop :=
  forall t, t ∈ c_turns context ->
    is_Some (assoc (t_speaker t) (c_participants context)).

(** [context'] is [context] with the turns [extra] recorded after it. *)
Definition extendedBy (context context' : DialogueContext)
    (extra : list DialogueTurnResult) : Prop :=
  c_turns context' = (c_turns context ++ extra)%list
  /\ conversationHistory context'
     = (conversationHistory context ++ List.map turnLine extra)%list
  /\ c_participants context' = c_participants context.




(** The context after one more turn was recorded. *)
Definition appended (context : DialogueContext) (t : DialogueTurnResult)
    (line : string) : DialogueContext :=
  {| c_turns := (c_turns context ++ [t])%list;
     c_participants := c_participants context;
     conversationHistory := (conversationHistory context ++ [line])%list |}.

Section Executor.

(** The collaborators of the executor.  [resolve] is the template resolver;
    [getAgent] the registry lookup; [callAgent n url prompt] the outcome of
    the agent call made when [n] turns have been recorded (a failed call ends
    the dialogue, so [n] numbers the calls); [uuidv4 n] and [clock n] the
    identifier and the time drawn at that point; [addCost] the floating-point
    sum of the cost fold. *)
Variable resolve : string -> value -> result string.
Variable getAgent : string -> option Agent.
Variable callAgent : nat -> string -> string -> result value.
Variable JSON_stringify : value -> string.
Variable uuidv4 : nat -> string.
Variable clock : nat -> Z.
Variable addCost : string -> value -> string.

(** [shouldEndDialogue]: a resolution error is caught and counts as false. *)
Definition shouldEndDialogue (endCondition : string)
    (context : DialogueContext) (workflowContext : list (string * value))
    : bool :=
  match resolve endCondition (conditionContext context workflowContext) with
  | Ok s => String.eqb s "true"
  | Throw _ => false
  end.

(** [dialogue.endCondition && this.shouldEndDialogue(...)] *)
Definition endConditionMet (d : DialogueConfig) (context : DialogueContext)
    (workflowContext : list (string * value)) : bool :=
  Js.truthy_str (endCondition d)
  && shouldEndDialogue (default EmptyString (endCondition d)) context
       workflowContext.

(** [context.turns.push(turnResult); context.conversationHistory.push(line)] *)
Definition recordTurn (t : DialogueTurnResult) (line : string) : M unit :=
  fun ctx => (Ok tt, appended ctx t line).

(** [executeTurn] *)
Definition executeTurn (turn : DialogueTurn)
    (workflowContext : list (string * value)) : M unit :=
  do context <- getContext;
  let n := length (c_turns context) in
  match assoc (speaker turn) (c_participants context) with
  | None => ret tt
  | Some agent =>
      match resolve (prompt turn) (turnContext context workflowContext) with
      | Throw msg => throw msg
      | Ok resolvedPrompt =>
          if negb (Js.truthy_str (endpointUrl agent)) then
            throw ("Agent " ++ ref agent ++ " has no endpoint URL configured")
          else
            match callAgent n (default EmptyString (endpointUrl agent))
                    resolvedPrompt with
            | Throw msg => throw msg
            | Ok res =>
                match extractResponse JSON_stringify res with
                | Throw msg => throw msg
                | Ok resp =>
                    let turnResult :=
                      {| turnId := uuidv4 n; t_speaker := speaker turn;
                         t_prompt := resolvedPrompt; response := resp;
                         timestamp := clock n; cost := extractCost res |} in
                    do _ <- recordTurn turnResult
                              (getSpeakerName (speaker turn) ++ ": "
                               ++ toString resp);
                    if is_nullish resp
                    then throw "Cannot read properties of undefined (reading 'length')"
                    else ret tt
                end
            end
      end
  end.

(** [executeSequentialDialogue]: the loop over the first
    [Math.min(dialogue.turns.length, maxTurns)] predefined turns. *)
Fixpoint sequentialLoop (d : DialogueConfig) (remaining : list DialogueTurn)
    (workflowContext : list (string * value)) : M unit :=
  match remaining with
  | [] => ret tt
  | turn :: rest =>
      do context <- getContext;
      if endConditionMet d context workflowContext then ret tt
      else
        do _ <- executeTurn turn workflowContext;
        sequentialLoop d rest workflowContext
  end.

Definition executeSequentialDialogue (d : DialogueConfig)
    (workflowContext : list (string * value)) (maxTurns : Z) : M unit :=
  sequentialLoop d
    (firstn (Z.to_nat (Z.min (Z.of_nat (length (turns d))) maxTurns)) (turns d))
    workflowContext.

(** [participants[currentIndex % participants.length]]; an empty list gives
    [undefined]. *)
Definition speakerAt (participants : list string) (currentIndex : nat)
    : option string :=
  match participants with
  | [] => None
  | _ => nth_error participants (currentIndex mod length participants)
  end.

(** [executeRoundRobinDialogue]: [count] iterations remain and [currentIndex]
    is the loop's index variable. *)
Fixpoint roundRobinLoop (d : DialogueConfig) (count : nat) (currentIndex : nat)
    (workflowContext : list (string * value)) : M unit :=
  match count with
  | O => ret tt
  | S count' =>
      do context <- getContext;
      if endConditionMet d context workflowContext then ret tt
      else
        if Js.truthy_str (speakerAt (participants d) currentIndex) then
          let who := default EmptyString (speakerAt (participants d) currentIndex) in
          let turn :=
            {| speaker := who;
               prompt := generateDynamicPrompt who context workflowContext;
               respondTo :=
                 Some (List.map turnId (Js.slice_last 3 (c_turns context))) |} in
          do _ <- executeTurn turn workflowContext;
          roundRobinLoop d count' (S currentIndex) workflowContext
        else roundRobinLoop d count' (S currentIndex) workflowContext
  end.

Definition executeRoundRobinDialogue (d : DialogueConfig)
    (workflowContext : list (string * value)) (maxTurns : Z) : M unit :=
  roundRobinLoop d (Z.to_nat maxTurns) 0 workflowContext.

(** [executeDynamicDialogue] *)
Fixpoint dynamicLoop (d : DialogueConfig) (count : nat)
    (workflowContext : list (string * value)) : M unit :=
  match count with
  | O => ret tt
  | S count' =>
      do context <- getContext;
      if endConditionMet d context workflowContext then ret tt
      else
        let nextSpeaker := selectNextSpeaker (participants d) context in
        if String.eqb nextSpeaker EmptyString then ret tt
        else
          let turn :=
            {| speaker := nextSpeaker;
               prompt := generateDynamicPrompt nextSpeaker context workflowContext;
               respondTo :=
                 Some (List.map turnId (Js.slice_last 2 (c_turns context))) |} in
          do _ <- executeTurn turn workflowContext;
          dynamicLoop d count' workflowContext
  end.

Definition executeDynamicDialogue (d : DialogueConfig)
    (workflowContext : list (string * value)) (maxTurns : Z) : M unit :=
  dynamicLoop d (Z.to_nat maxTurns) workflowContext.

(** The loop that fills the participants map from the registry. *)
Fixpoint initParticipants (refs : list string)
    (acc : list (string * Agent)) : list (string * Agent) :=
  match refs with
  | [] => acc
  | participantRef :: rest =>
      match getAgent participantRef with
      | Some agent => initParticipants rest (obj_set participantRef agent acc)
      | None => initParticipants rest acc
      end
  end.

(** The [switch] over [dialogue.mode]. *)
Definition runMode (d : DialogueConfig)
    (workflowContext : list (string * value)) (maxTurns : Z) : M unit :=
  if String.eqb (mode d) "sequential" then
    executeSequentialDialogue d workflowContext maxTurns
  else if String.eqb (mode d) "round-robin" then
    executeRoundRobinDialogue d workflowContext maxTurns
  else if String.eqb (mode d) "dynamic" then
    executeDynamicDialogue d workflowContext maxTurns
  else ret tt.

(** The context a dialogue starts from. *)
Definition startContext (d : DialogueConfig) : DialogueContext :=
  {| c_turns := [];
     c_participants := initParticipants (participants d) [];
     conversationHistory := [] |}.

(** The [NodeRun] built once the mode's loop has returned. *)
Definition completedRun (dialogueNode : WorkflowNode)
    (workflowContext : list (string * value)) (theRunId : string)
    (context : DialogueContext) : NodeRun :=
  let n := length (c_turns context) in
  {| nodeRunId := uuidv4 n;
     runId := theRunId;
     nodeId := node_id dialogueNode;
     r_agentRef :=
       if Js.truthy_str (agentRef dialogueNode)
       then default EmptyString (agentRef dialogueNode) else "dialogue";
     status := "completed";
     startedAt := clock n;
     endedAt := clock n;
     inputs := workflowContext;
     output :=
       {| o_turns := c_turns context;
          o_conversationHistory := conversationHistory context;
          summary := generateDialogueSummary context |};
     r_cost := fold_left (fun sum turn => addCost sum (cost turn))
                 (c_turns context) "0";
     retryCount := 0;
     logs := ["Completed "
              ++ Js.Z_toString (Z.of_nat (length (c_turns context)))
              ++ " dialogue turns"] |}.

(** [executeDialogue]: the outcome, and the dialogue context as the run left
    it (also when it threw). *)
Definition executeDialogue (dialogueNode : WorkflowNode)
    (workflowContext : list (string * value)) (theRunId : string)
    : result NodeRun * DialogueContext :=
  match dialogue dialogueNode with
  | None =>
      (Throw "No dialogue configuration found",
       {| c_turns := []; c_participants := []; conversationHistory := [] |})
  | Some d =>
      let maxTurns := Js.num_or (maxTurns d) (Z.of_nat (length (turns d))) in
      match runMode d workflowContext maxTurns (startContext d) with
      | (Throw msg, context) => (Throw msg, context)
      | (Ok _, context) =>
          (Ok (completedRun dialogueNode workflowContext theRunId context),
           context)
      end
  end.

End Executor.

(** A small world to run the executor in: the registry knows one agent, every
    call answers with a one-part text message, the resolver is
    [TemplateResolver]. *)
Definition demoAgent : Agent :=
  {| ref := "ceo-agent-v1"; endpointUrl := Some "http://localhost:3010" |}.

Definition demoRegistry (agentRef : string) : option Agent :=
  if String.eqb agentRef "ceo-agent-v1" then Some demoAgent else None.

Definition demoReply : value :=
  VObj [("kind", VStr "message");
        ("parts", VArr [VObj [("kind", VStr "text"); ("text", VStr "ship it")]])].

Definition demoCall (n : nat) (url message : string) : result value :=
  Ok demoReply.

Definition demoJson (v : value) : string := "{}".
Definition demoUuid (n : nat) : string := "id-" ++ Js.Z_toString (Z.of_nat n).
Definition demoClock (n : nat) : Z := 1767470400000 + Z.of_nat n.
Definition demoAddCost (sum : string) (c : value) : string := sum.

Definition demoTurn : DialogueTurn :=
  {| speaker := "ceo-agent-v1"; prompt := "What is our plan?"; respondTo := None |}.

Definition demoDialogue : DialogueConfig :=
  {| mode := "sequential"; participants := ["ceo-agent-v1"; "cto-agent-v1"];
     turns := [demoTurn;
               {| speaker := "cto-agent-v1"; prompt := "Can we build it?";
                  respondTo := None |}];
     maxTurns := None; endCondition := Some "{{done}}" |}.

Definition demoNode : WorkflowNode :=
  {| node_id := "talk"; node_name := "Planning"; agentRef := None;
     dialogue := Some demoDialogue |}.


(** A registry that knows the three executives, and a round-robin dialogue
    among them. *)
Definition boardRegistry (agentRef : string) : option Agent :=
  if String.eqb agentRef "ceo-agent-v1" || String.eqb agentRef "cto-agent-v1"
     || String.eqb agentRef "cmo-agent-v1"
  then Some {| ref := agentRef; endpointUrl := Some "http://localhost:3010" |}
  else None.

Definition boardNode : WorkflowNode :=
  {| node_id := "board"; node_name := "Board"; agentRef := None;
     dialogue :=
       Some {| mode := "round-robin";
               participants := ["ceo-agent-v1"; "cto-agent-v1"; "cmo-agent-v1"];
               turns := []; maxTurns := Some 4; endCondition := None |} |}.





(** The context after a first turn by the CEO, and a reply that quotes the
    last message the way the example workflows do. *)
Definition afterFirstTurn : DialogueContext :=
  {| c_turns :=
       [{| turnId := "id-0"; t_speaker := "ceo-agent-v1";
           t_prompt := "What is our plan?"; response := VStr "ship it";
           timestamp := 1767470400000; cost := VStr "0" |}];
     c_participants := [("ceo-agent-v1", demoAgent)];
     conversationHistory := ["CEO: ship it"] |}.

Definition quotingTurn : DialogueTurn :=
  {| speaker := "ceo-agent-v1";
     prompt := "CEO said: {{conversationHistory[-1]}}"; respondTo := None |}.

End Dialogue.

(** ** YAML to [WorkflowSpec]: [WorkflowYAMLParser] of yaml-parser.service.ts

    The YAML text is read by the [yaml] library; the model starts from the
    object it returns. *)

Module WorkflowParser.

Import Template.

(** [parseSchedule] *)
Definition parseSchedule (schedule : Schedule.AgentSchedule)
    : Schedule.AgentSchedule :=
  {| Schedule.startTime := Schedule.startTime schedule;
     Schedule.endTime := Schedule.endTime schedule;
     Schedule.timezone := Some (Schedule.zoneOf schedule);
     Schedule.daysOfWeek := Schedule.daysOfWeek schedule |}.

(** [if (x) config.x = x]: a falsy number is left out. *)
Definition keepTruthy (o : option Z) : option Z :=
  if Js.truthy_num o then o else None.

(** [parseTickConfig] *)
Definition parseTickConfig (ticks : Tick.AgentTickConfig)
    : Tick.AgentTickConfig :=
  let '(ms, seconds, minutes) :=
    if Js.truthy_num (Tick.intervalMs ticks) then
      (Tick.intervalMs ticks, None, None)
    else if Js.truthy_num (Tick.intervalSeconds ticks) then
      (option_map (fun s => s * 1000) (Tick.intervalSeconds ticks),
       Tick.intervalSeconds ticks, None)
    else if Js.truthy_num (Tick.intervalMinutes ticks) then
      (option_map (fun m => m * 60 * 1000) (Tick.intervalMinutes ticks),
       None, Tick.intervalMinutes ticks)
    else (None, None, None) in
  {| Tick.enabled := Tick.enabled ticks;
     Tick.intervalMs := ms;
     Tick.intervalSeconds := seconds;
     Tick.intervalMinutes := minutes;
     Tick.maxTicksPerRound := keepTruthy (Tick.maxTicksPerRound ticks) |}.

(** [retry] *)
Record RetryPolicy := {
  maxAttempts : Z;
  backoffMs : Z
}.

(** A node entry of the document: [core] holds what validation reads (the
    [id] of the array format, [name], the [agent] of the object format), the
    other fields are what the conversion copies. *)
Record NodeEntry := {
  core : Validate.YamlNode;
  n_type : option string;
  n_ref : option string;
  n_inputs : option (list (string * value));
  n_condition : option string;
  n_retry : option RetryPolicy;
  n_schedule : option Schedule.AgentSchedule;
  n_ticks : option Tick.AgentTickConfig;
  n_dialogue : option Dialogue.DialogueConfig
}.

(** [nodes]: an array, or an object given by its entries in the order of the
    document, which is the order its properties are added in. *)
Inductive DocNodes :=
| DocArray (nodes : list NodeEntry)
| DocObject (entries : list (string * NodeEntry)).

(** [execution] *)
Record Execution := {
  x_mode : option string;
  x_rounds : option Z;
  x_schedule : option Schedule.AgentSchedule;
  x_ticks : option Tick.AgentTickConfig
}.

(** The parsed YAML document, [WorkflowYAMLSpec] in full. *)
Record YamlDocument := {
  d_name : option string;
  d_description : option string;
  d_version : option string;
  d_chain : option string;
  d_token : option string;
  d_maxBudget : option string;
  d_entryNode : option string;
  d_execution : option Execution;
  d_nodes : option DocNodes;
  d_edges : option (list Validate.YamlEdge);
  d_tags : option (list string)
}.

(** The document as [validateYAML] reads it. *)
Definition validatedNodes (ns : DocNodes) : Validate.YamlNodes :=
  match ns with
  | DocArray l => Validate.NodesArray (List.map core l)
  | DocObject l =>
      Validate.NodesObject (List.map (fun '(k, n) => (k, core n)) l)
  end.

(** [!Array.isArray(yaml.nodes)] for a document that has nodes. *)
Definition isObjectFormat (yaml : YamlDocument) : bool :=
  match d_nodes yaml with
  | Some (DocObject _) => true
  | _ => false
  end.

Definition validated (yaml : YamlDocument) : Validate.WorkflowYAMLSpec :=
  {| Validate.name := d_name yaml;
     Validate.chain := d_chain yaml;
     Validate.token := d_token yaml;
     Validate.maxBudget := d_maxBudget yaml;
     Validate.entryNode := d_entryNode yaml;
     Validate.nodes := option_map validatedNodes (d_nodes yaml);
     Validate.edges := d_edges yaml |}.

(** [WorkflowNode] *)
Record WorkflowNode := {
  id : string;
  type : option string;
  agentRef : option string;
  name : string;
  inputs : list (string * value);
  condition : option string;
  retryPolicy : option RetryPolicy;
  schedule : option Schedule.AgentSchedule;
  tickConfig : option Tick.AgentTickConfig;
  dialogue : option Dialogue.DialogueConfig
}.

(** [WorkflowExecutionConfig] *)
Record WorkflowExecutionConfig := {
  c_mode : option string;
  c_rounds : option Z;
  c_schedule : option Schedule.AgentSchedule;
  c_tickConfig : option Tick.AgentTickConfig
}.

(** [WorkflowSpec] *)
Record WorkflowSpec := {
  w_id : string;
  w_name : option string;
  w_description : option string;
  w_version : option string;
  w_userId : string;
  w_chain : option string;
  w_token : option string;
  w_maxBudget : option string;
  w_nodes : list WorkflowNode;
  w_edges : list Validate.YamlEdge;
  w_entryNodeId : option string;
  w_executionConfig : option WorkflowExecutionConfig;
  w_createdAt : Z;
  w_updatedAt : Z;
  w_tags : list string
}.

(** [x || 'agent'] *)
Definition str_or (o : option string) (d : string) : option string :=
  if Js.truthy_str o then o else Some d.

(** The callback of [yaml.nodes.map] in the array format. *)
Definition arrayNode (node : NodeEntry) : WorkflowNode :=
  {| id := Validate.node_id (core node);
     type := str_or (n_type node) "agent";
     agentRef := n_ref node;
     name := Validate.node_name (core node);
     inputs := default [] (n_inputs node);
     condition := n_condition node;
     retryPolicy := n_retry node;
     schedule := option_map parseSchedule (n_schedule node);
     tickConfig := option_map parseTickConfig (n_ticks node);
     dialogue := n_dialogue node |}.

(** The callback of [Object.entries(yaml.nodes).map] in the object format. *)
Definition objectNode (entry : string * NodeEntry) : WorkflowNode :=
  let '(key, node) := entry in
  {| id := key;
     type := n_type node;
     agentRef := Validate.node_agent (core node);
     name := Validate.node_name (core node);
     inputs := default [] (n_inputs node);
     condition := n_condition node;
     retryPolicy := n_retry node;
     schedule := option_map parseSchedule (n_schedule node);
     tickConfig := option_map parseTickConfig (n_ticks node);
     dialogue := n_dialogue node |}.

Definition convertNodes (ns : DocNodes) : list WorkflowNode :=
  match ns with
  | DocArray l => List.map arrayNode l
  | DocObject l => List.map objectNode (Js.ownEntries l)
  end.

Definition parseExecution (e : Execution) : WorkflowExecutionConfig :=
  {| c_mode := x_mode e;
     c_rounds := x_rounds e;
     c_schedule := option_map parseSchedule (x_schedule e);
     c_tickConfig := option_map parseTickConfig (x_ticks e) |}.

Section WithClock.

(** The identifier built from [Date.now()] and [Math.random()], and the
    instant of [new Date()]. *)
Variable workflowId : string.
Variable now : Z.

(** [yamlToWorkflowSpec].  [yaml.edges.map] on a missing [edges] is the
    [TypeError] of the runtime. *)
Definition yamlToWorkflowSpec (yaml : YamlDocument) (userId : string)
    : result WorkflowSpec :=
  match Validate.validateYAML (validated yaml) with
  | Throw msg => Throw msg
  | Ok _ =>
      match d_nodes yaml with
      | None => Throw "Cannot convert undefined or null to object"
      | Some ns =>
          match d_edges yaml with
          | None => Throw "Cannot read properties of undefined (reading 'map')"
          | Some es =>
              Ok {| w_id := workflowId;
                    w_name := d_name yaml;
                    w_description := d_description yaml;
                    w_version := d_version yaml;
                    w_userId := userId;
                    w_chain := d_chain yaml;
                    w_token := d_token yaml;
                    w_maxBudget := d_maxBudget yaml;
                    w_nodes := convertNodes ns;
                    w_edges := es;
                    w_entryNodeId := d_entryNode yaml;
                    w_executionConfig := option_map parseExecution (d_execution yaml);
                    w_createdAt := now;
                    w_updatedAt := now;
                    w_tags := default [] (d_tags yaml) |}
          end
      end
  end.

(** [parse], from the parsed document on: every error is rethrown as a
    [WorkflowValidationError] with a prefix. *)
Definition parse (yaml : YamlDocument) (userId : string)
    : result WorkflowSpec :=
  match yamlToWorkflowSpec yaml userId with
  | Ok spec => Ok spec
  | Throw msg => Throw ("Failed to parse YAML: " ++ msg)
  end.

End WithClock.

(** A two-node document in the array format, and the same without [edges]. *)
Definition plainNode (i : string) : NodeEntry :=
  {| core := {| Validate.node_id := i; Validate.node_name := i;
                Validate.node_agent := None |};
     n_type := None; n_ref := Some "echo-agent-v1"; n_inputs := None;
     n_condition := None; n_retry := None; n_schedule := None;
     n_ticks := None; n_dialogue := None |}.

Definition twoNodes (es : option (list Validate.YamlEdge)) : YamlDocument :=
  {| d_name := Some "demo"; d_description := None; d_version := Some "1.0.0";
     d_chain := Some "base"; d_token := Some "USDC"; d_maxBudget := Some "10";
     d_entryNode := Some "a"; d_execution := None;
     d_nodes := Some (DocArray [plainNode "a"; plainNode "b"]);
     d_edges := es; d_tags := None |}.

Definition edgeAB : Validate.YamlEdge :=
  {| Validate.from := "a"; Validate.to := "b"; Validate.condition := None |}.

(** A document in the object format whose keys are b, 10 and 2, in this
    order. *)
Definition numberedDocument : YamlDocument :=
  {| d_name := Some "demo"; d_description := None; d_version := Some "1.0.0";
     d_chain := Some "base"; d_token := Some "USDC"; d_maxBudget := Some "10";
     d_entryNode := Some "b"; d_execution := None;
     d_nodes := Some (DocObject [("b", plainNode "b"); ("10", plainNode "10");
                                 ("2", plainNode "2")]);
     d_edges := Some []; d_tags := None |}.

(** A one-node document in the object format whose entry node and edge name
    inherited properties instead of nodes. *)
Definition constructorDocument : YamlDocument :=
  {| d_name := Some "demo"; d_description := None; d_version := Some "1.0.0";
     d_chain := Some "base"; d_token := Some "USDC"; d_maxBudget := Some "10";
     d_entryNode := Some "constructor"; d_execution := None;
     d_nodes := Some (DocObject [("a", plainNode "a")]);
     d_edges := Some [{| Validate.from := "a"; Validate.to := "toString";
                         Validate.condition := None |}];
     d_tags := None |}.

(** The tick settings of tick-based monitoring: every five seconds. *)
Definition everyFiveSeconds : Tick.AgentTickConfig :=
  {| Tick.enabled := true; Tick.intervalMs := None;
     Tick.intervalSeconds := Some 5; Tick.intervalMinutes := None;
     Tick.maxTicksPerRound := Some 10 |}.

End WorkflowParser.

(** ** The CLI execution engine: [ExecutionEngine] (unnamed/part_011)

    Console output is left out; the steps that compute what is printed are
    kept where they can throw. *)

Module Runner.

Import Template.

(** A node of the [WorkflowDefinition], as [toWorkflowDefinition] builds it:
    [ref] is whatever truthy value the document gives. *)
Record NodeDef := {
  n_id : string;
  n_ref : value;
  n_name : string;
  n_inputs : list (string * value)
}.

(** The [WorkflowDefinition]: its nodes, and the entries of its [outputs],
    each key with its output definition. *)
Record Workflow := {
  w_nodes : list NodeDef;
  w_outputs : list (string * value)
}.

(** A full [NodeResult]: the fields template substitution reads, and the
    error and duration beside them. *)
Record NodeOutcome := {
  shown : Engine.NodeResult;
  error : option string;
  duration : Z
}.

(** [ExecutionResult] *)
Record ExecutionResult := {
  x_status : string;
  nodeResults : list NodeOutcome;
  outputs : option (list (string * value));
  x_error : option string
}.

(** How [axios.post] ends: with a response, with an axios error, with another
    [Error], or with a thrown value that is no [Error]. *)
Inductive PostOutcome :=
| Responded (data : value)
| AxiosError (message : string)
| OtherError (message : string)
| ThrownValue.

(** [s.includes(needle)] *)
Fixpoint includes (needle s : string) : bool :=
  String.prefix needle s
  || match s with
     | EmptyString => false
     | String _ r => includes needle r
     end.

(** The table [agentEndpoints]. *)
Definition agentEndpoints : list (string * string) :=
  [("ceo-agent-v1", "http://localhost:3010/execute");
   ("cto-agent-v1", "http://localhost:3011/execute");
   ("cmo-agent-v1", "http://localhost:3012/execute");
   ("summarizer-agent-v1", "http://localhost:3013/execute");
   ("text-transformer-v1", "http://localhost:3002/execute");
   ("echo-agent-v1", "http://localhost:3001/execute")].

(** [agentEndpoints[node.ref]]: the reference is turned into a property key
    and read through the prototype chain, so the name of an inherited
    property finds that property, given here by its text. *)
Definition endpointOf (ref : value) : option string :=
  let key := toString ref in
  match assoc key agentEndpoints with
  | Some url => Some url
  | None => Js.inheritedText key
  end.

(** [node.ref.includes('ceo')], evaluated to print the speaker when the
    engine is not verbose: strings and arrays have the method, on anything
    else the call is a [TypeError]. *)
Definition refIncludes (ref : value) : result unit :=
  match ref with
  | VStr _ | VArr _ => Ok tt
  | VUndefined =>
      Throw "Cannot read properties of undefined (reading 'includes')"
  | VNull => Throw "Cannot read properties of null (reading 'includes')"
  | _ => Throw "node.ref.includes is not a function"
  end.

(** [(outputDef as any).value] *)
Definition outputValue (outputDef : value) : result value :=
  match outputDef with
  | VUndefined =>
      Throw "Cannot read properties of undefined (reading 'value')"
  | VNull => Throw "Cannot read properties of null (reading 'value')"
  | _ => Ok (get_prop outputDef "value")
  end.

Section WithAgents.

Variable JSON_stringify : value -> string.

(** [post k endpoint body]: the outcome of the call made for the node at
    position [k]; [clock] is [Date.now()], read twice per node, and a third
    time when printing a completed node fails. *)
Variable post : nat -> string -> list (string * value) -> PostOutcome.
Variable clock : nat -> Z.

Variable verbose : bool.

(** [resolveInputs] *)
Definition resolveText (workflowInputs : list (string * value))
    (previousResults : list Engine.NodeResult) (v : value) : value :=
  match v with
  | VStr s =>
      if includes "{{" s
      then VStr (Engine.resolveTemplateString JSON_stringify s workflowInputs
                   previousResults)
      else v
  | _ => v
  end.

Definition resolveInputs (nodeInputs workflowInputs : list (string * value))
    (previousResults : list Engine.NodeResult) : list (string * value) :=
  List.map
    (fun '(key, v) =>
       (key,
        match v with
        | VArr items =>
            VArr (List.map (resolveText workflowInputs previousResults) items)
        | _ => resolveText workflowInputs previousResults v
        end))
    nodeInputs.

(** [executeNode]; [Throw] carries the message [execute] reports, which is
    [Unknown error] for a thrown value that is no [Error]. *)
Definition executeNode (k : nat) (node : NodeDef)
    (workflowInputs : list (string * value))
    (previousResults : list Engine.NodeResult) : result value :=
  let resolvedInputs :=
    resolveInputs (n_inputs node) workflowInputs previousResults in
  match endpointOf (n_ref node) with
  | Some endpoint =>
      match post k endpoint resolvedInputs with
      | Responded data => Ok data
      | AxiosError message => Throw ("Agent call failed: " ++ message)
      | OtherError message => Throw message
      | ThrownValue => Throw "Unknown error"
      end
  | None =>
      Ok (VObj [("success", VBool true);
                ("output", VStr ("Output from " ++ n_id node));
                ("data", VObj resolvedInputs)])
  end.

(** What is evaluated to print a completed node: in verbose mode
    [JSON.stringify(output).slice(0, 100)], otherwise
    [output.response || output.summary || ...].  [Some message] is the
    [TypeError] it raises. *)
Definition display (output : value) : option string :=
  if verbose then
    match output with
    | VUndefined => Some "Cannot read properties of undefined (reading 'slice')"
    | _ => None
    end
  else
    match output with
    | VUndefined =>
        Some "Cannot read properties of undefined (reading 'response')"
    | VNull => Some "Cannot read properties of null (reading 'response')"
    | _ => None
    end.

Definition completed (node : NodeDef) (output : value) (d : Z) : NodeOutcome :=
  {| shown := {| Engine.id := n_id node; Engine.status := "completed";
                 Engine.output := output |};
     error := None; duration := d |}.

Definition failed (node : NodeDef) (message : string) (d : Z) : NodeOutcome :=
  {| shown := {| Engine.id := n_id node; Engine.status := "failed";
                 Engine.output := VUndefined |};
     error := Some message; duration := d |}.

(** [computeOutputs] *)
Definition computeOutput (results : list Engine.NodeResult)
    (entry : string * value) : list (string * value) :=
  let '(key, v) := entry in
  match v with
  | VStr s =>
      if includes "{{" s then
        match match_all s with
        | m :: _ =>
            let parts := Js.split_on "." (Js.trim (slice_2_m2 m)) in
            let nodeId := nth 0 parts EmptyString in
            let outputKey := nth_error parts 1 in
            match List.find (fun r => String.eqb (Engine.id r) nodeId) results with
            | Some nodeResult =>
                if truthy (Engine.output nodeResult) then
                  [(key,
                    if Js.truthy_str outputKey
                    then get_prop (Engine.output nodeResult)
                           (default EmptyString outputKey)
                    else Engine.output nodeResult)]
                else []
            | None => []
            end
        | [] => []
        end
      else [(key, v)]
  | _ => [(key, v)]
  end.

(** The loop of [computeOutputs] over the entries of [outputs]; reading the
    [value] of a definition that is null throws. *)
Fixpoint computeOutputs_loop (results : list Engine.NodeResult)
    (defs : list (string * value)) (outs : list (string * value))
    : result (list (string * value)) :=
  match defs with
  | [] => Ok outs
  | (key, outputDef) :: rest =>
      match outputValue outputDef with
      | Throw message => Throw message
      | Ok v =>
          computeOutputs_loop results rest
            (fold_left (fun o '(k, x) => obj_set k x o)
               (computeOutput results (key, v)) outs)
      end
  end.

Definition computeOutputs (workflow : Workflow)
    (results : list Engine.NodeResult) : result (list (string * value)) :=
  computeOutputs_loop results (w_outputs workflow) [].

(** What the outer [catch] of [execute] returns: the results so far and the
    message, which names no node. *)
Definition aborted (results : list NodeOutcome) (message : string)
    : ExecutionResult :=
  {| x_status := "failed"; nodeResults := results; outputs := None;
     x_error := Some message |}.

(** The loop of [execute] over the nodes from position [k] on; [results] are
    the node results so far.  What throws inside the [try] of a node is
    reported for that node; what throws outside it, printing the speaker
    before the node or computing the outputs after the loop, goes to the
    outer [catch]. *)
Fixpoint run (workflow : Workflow) (workflowInputs : list (string * value))
    (k : nat) (remaining : list NodeDef) (results : list NodeOutcome)
    : ExecutionResult :=
  match remaining with
  | [] =>
      match computeOutputs workflow (List.map shown results) with
      | Ok outs =>
          {| x_status := "completed"; nodeResults := results;
             outputs := Some outs; x_error := None |}
      | Throw message => aborted results message
      end
  | node :: rest =>
      match (if verbose then Ok tt else refIncludes (n_ref node)) with
      | Throw message => aborted results message
      | Ok _ =>
          let startTime := clock (2 * k) in
          let elapsed := clock (2 * k + 1) - startTime in
          let fail results message d :=
            {| x_status := "failed";
               nodeResults := (results ++ [failed node message d])%list;
               outputs := None;
               x_error :=
                 Some ("Node " ++ n_id node ++ " failed: " ++ message) |} in
          match executeNode k node workflowInputs (List.map shown results) with
          | Throw message => fail results message elapsed
          | Ok output =>
              let results' :=
                (results ++ [completed node output elapsed])%list in
              match display output with
              | Some message =>
                  fail results' message (clock (2 * k + 2) - startTime)
              | None => run workflow workflowInputs (S k) rest results'
              end
          end
      end
  end.

(** [execute] *)
Definition execute (workflow : Workflow)
    (workflowInputs : list (string * value)) : ExecutionResult :=
  run workflow workflowInputs 0 (w_nodes workflow) [].

End WithAgents.

(** A two-step pipeline: an echo agent, then an agent no endpoint is known
    for, which reads the first one's output. *)
Definition pipeline : Workflow :=
  {| w_nodes :=
       [ {| n_id := "step1"; n_ref := VStr "echo-agent-v1"; n_name := "Echo";
            n_inputs := [("text", VStr "{{inputs.text}}")] |};
         {| n_id := "step2"; n_ref := VStr "custom-agent"; n_name := "Custom";
            n_inputs := [("text", VStr "{{step1.output}}");
                         ("later", VStr "{{step3.output}}")] |} ];
     w_outputs := [("result", VObj [("value", VStr "{{step2.output}}")])] |}.

(** The pipeline with an output whose definition is left empty, and the
    pipeline whose second node gives a number as its agent reference. *)
Definition emptyOutput : Workflow :=
  {| w_nodes := w_nodes pipeline;
     w_outputs := [("result", VObj [("value", VStr "{{step2.output}}")]);
                   ("summary", VNull)] |}.

Definition numberRef : Workflow :=
  {| w_nodes :=
       [ {| n_id := "step1"; n_ref := VStr "echo-agent-v1"; n_name := "Echo";
            n_inputs := [("text", VStr "{{inputs.text}}")] |};
         {| n_id := "step2"; n_ref := VNum 7; n_name := "Custom";
            n_inputs := [] |} ];
     w_outputs := [] |}.

(** An echo service that answers with its input text, and one that is down. *)
Definition echoPost (k : nat) (endpoint : string)
    (body : list (string * value)) : PostOutcome :=
  Responded (VObj [("output", default VNull (assoc "text" body))]).

Definition downPost (k : nat) (endpoint : string)
    (body : list (string * value)) : PostOutcome :=
  AxiosError "connect ECONNREFUSED 127.0.0.1:3001".

Definition tickingClock (n : nat) : Z := 1767470400000 + 5 * Z.of_nat n.

End Runner.

(* ===================================================================== *)
(** * Part II.  Properties                                                *)
(* ===================================================================== *)

(** ** Tick gate *)

Section TickGate.

Import Tick.

Implicit Types (tm : TickManager) (cfg : AgentTickConfig) (agentId : string).

Lemma num_or_truthy (o : option Z) (d : Z) :
  Js.truthy_num o = true -> o = Some (Js.num_or o d) /\ Js.num_or o d <> 0.
Proof.
  destruct o as [n|]; simpl; [|discriminate].
  destruct (Z.eqb_spec n 0); simpl; [discriminate|]. auto.
Qed.

Lemma truthy_num_spec (o : option Z) :
  Js.truthy_num o = true <-> exists m, o = Some m /\ m <> 0.
Proof.
  destruct o as [n|]; simpl.
  - destruct (Z.eqb_spec n 0); simpl; split.
    + discriminate.
    + intros (m & [= ->] & Hm). contradiction.
    + eauto.
    + reflexivity.
  - split; [discriminate|]. intros (m & ? & _). discriminate.
Qed.

(** Reading the maps after [resetRound]. *)
Lemma getTickCount_resetRound_same tm agentId :
  getTickCount (resetRound tm agentId) agentId = 0.
Proof. unfold getTickCount, resetRound; simpl. by rewrite lookup_insert_eq. Qed.

Lemma getTickCount_resetRound_other tm agentId other :
  other <> agentId ->
  getTickCount (resetRound tm agentId) other = getTickCount tm other.
Proof.
  intros Hne. unfold getTickCount, resetRound; simpl.
  by rewrite lookup_insert_ne.
Qed.

Lemma lastTickAt_resetRound tm agentId other :
  lastTickAt (resetRound tm agentId) other = lastTickAt tm other.
Proof. reflexivity. Qed.

(** [shouldExecute] reads the state only through the two getters. *)
Lemma shouldExecute_ext tm tm' now agentId cfg :
  lastTickAt tm' agentId = lastTickAt tm agentId ->
  getTickCount tm' agentId = getTickCount tm agentId ->
  shouldExecute tm' now agentId cfg = shouldExecute tm now agentId cfg.
Proof. intros Hl Hc. unfold shouldExecute. by rewrite Hl, Hc. Qed.

Lemma shouldExecute_false_spec tm now agentId cfg :
  shouldExecute tm now agentId cfg = false <->
  enabled cfg = true
  /\ (now - lastTickAt tm agentId < Js.num_or (intervalMs cfg) 1000
      \/ exists m, maxTicksPerRound cfg = Some m /\ m <> 0
                   /\ getTickCount tm agentId >= m).
Proof.
  unfold shouldExecute.
  destruct (enabled cfg); simpl.
  2:{ split; [discriminate|]. intros [? _]. discriminate. }
  destruct (Z.ltb_spec (now - lastTickAt tm agentId)
              (Js.num_or (intervalMs cfg) 1000)) as [Hlt|Hge].
  { split; auto. }
  destruct (maxTicksPerRound cfg) as [m|] eqn:Hmax; simpl.
  - destruct (Z.eqb_spec m 0) as [->|Hm]; simpl.
    + split; [discriminate|].
      intros [_ [?|(m' & [= <-] & ? & _)]]; [lia|contradiction].
    + rewrite Z.geb_leb.
      destruct (Z.leb_spec m (getTickCount tm agentId)) as [Hle|Hgt].
      * split; auto. intros _. split; auto. right. exists m. repeat split; auto. lia.
      * split; [discriminate|].
        intros [_ [?|(m' & [= <-] & _ & ?)]]; lia.
  - split; [discriminate|].
    intros [_ [?|(m' & ? & _)]]; [lia|discriminate].
Qed.

(** C5 as stated fails in both of its conditions.  With [maxTicksPerRound]
    configured as 0 the count of three ticks has reached it and the
    configuration is enabled, yet the gate answers true once the interval has
    elapsed: the code tests the maximum for truthiness.  And a configuration
    that [validateTickConfig] accepts with its interval in seconds only has no
    [intervalMs], yet the gate answers false 500 ms after the last tick, and
    true 1000 ms after it, well before the five seconds: an absent
    [intervalMs] is read as 1000. *)
Lemma C5_shouldExecute_counterexample :
  (enabled zeroMaximum = true
   /\ maxTicksPerRound zeroMaximum = Some 0
   /\ getTickCount busyManager "agent-1" = 3
   /\ lastTickAt busyManager "agent-1" = 10000
   /\ shouldExecute busyManager 20000 "agent-1" zeroMaximum = true)
  /\ (valid (validateTickConfig secondsOnly) = true
      /\ intervalMs secondsOnly = None
      /\ maxTicksPerRound secondsOnly = None
      /\ shouldExecute busyManager 10500 "agent-1" secondsOnly = false
      /\ shouldExecute busyManager 11000 "agent-1" secondsOnly = true).
Proof. by vm_compute. Qed.

(** C5, amended.  [shouldExecute] answers false exactly when the
    configuration is enabled and either less than the interval ([intervalMs],
    or 1000 when it is absent or zero) has elapsed since the actor's last tick
    (time 0 when it never ticked), or a non-zero [maxTicksPerRound] is
    configured and the actor's tick count of the round has reached it.  In
    every other case, a disabled configuration included, it answers true. *)
Theorem C5_shouldExecute_false_iff tm now agentId cfg :
  shouldExecute tm now agentId cfg = false <->
  enabled cfg = true
  /\ (now - lastTickAt tm agentId < Js.num_or (intervalMs cfg) 1000
      \/ exists m, maxTicksPerRound cfg = Some m /\ m <> 0
                   /\ getTickCount tm agentId >= m).
Proof. apply shouldExecute_false_spec. Qed.

(** C8.  [resetRound] zeroes the actor's round counter and touches nothing
    else: the map of last tick times is the same map, and every other actor's
    counter and gate answers are unchanged.  For the actor itself the gate,
    when enabled, still answers false while the interval has not elapsed
    since its last tick, although the [maxTicksPerRound] check no longer
    blocks: with a positive maximum the gate opens as soon as the interval
    has elapsed. *)
Theorem C8_resetRound_keeps_interval tm agentId :
  let tm' := resetRound tm agentId in
  getTickCount tm' agentId = 0
  /\ lastTickTimes tm' = lastTickTimes tm
  /\ lastTickAt tm' agentId = lastTickAt tm agentId
  /\ (forall now cfg,
        enabled cfg = true ->
        now - lastTickAt tm agentId < Js.num_or (intervalMs cfg) 1000 ->
        shouldExecute tm' now agentId cfg = false)
  /\ (forall later cfg m,
        maxTicksPerRound cfg = Some m -> 0 < m ->
        Js.num_or (intervalMs cfg) 1000 <= later - lastTickAt tm agentId ->
        shouldExecute tm' later agentId cfg = true)
  /\ (forall other,
        other <> agentId ->
        tickCounts tm' !! other = tickCounts tm !! other
        /\ forall t c, shouldExecute tm' t other c = shouldExecute tm t other c).
Proof.
  intros tm'. subst tm'.
  split; [apply getTickCount_resetRound_same|].
  split; [reflexivity|].
  split; [reflexivity|].
  split.
  { intros now cfg Henabled Hearly.
    apply shouldExecute_false_spec. split; [done|]. left.
    by rewrite lastTickAt_resetRound. }
  split.
  - intros later cfg m Hmax Hpos Hlate.
    destruct (shouldExecute (resetRound tm agentId) later agentId cfg) eqn:E;
      [reflexivity|].
    apply shouldExecute_false_spec in E as [_ [E|(m' & Hm' & _ & Hcnt)]].
    + rewrite lastTickAt_resetRound in E. lia.
    + rewrite getTickCount_resetRound_same in Hcnt.
      rewrite Hmax in Hm'. injection Hm' as <-. lia.
  - intros other Hne. split.
    + unfold resetRound; simpl. by rewrite lookup_insert_ne.
    + intros t c. apply shouldExecute_ext.
      * apply lastTickAt_resetRound.
      * by apply getTickCount_resetRound_other.
Qed.

Lemma C8_resetRound_keeps_interval_witness :
  shouldExecute busyManager 10100 "agent-1" fiveSeconds = false
  /\ shouldExecute (resetRound busyManager "agent-1") 10100 "agent-1" fiveSeconds
     = false
  /\ shouldExecute (resetRound busyManager "agent-1") 15000 "agent-1" fiveSeconds
     = true.
Proof.
  pose proof (C8_resetRound_keeps_interval busyManager "agent-1")
    as (_ & _ & _ & Hearly & Hlate & _).
  split; [reflexivity|]. split.
  - apply Hearly; [reflexivity|vm_compute; reflexivity].
  - apply (Hlate 15000 fiveSeconds 3); [reflexivity|reflexivity|vm_compute; discriminate].
Defined.

End TickGate.

(** ** Schedule gate *)

Section ScheduleGate.

Import Schedule.

(** Inside the window there is nothing to wait for. *)
Lemma getWaitTimeMs_within (zone : string -> Z) (now : Z) (s : AgentSchedule) :
  isWithinSchedule zone now s = true -> getWaitTimeMs zone now s = Some 0.
Proof. intros H. unfold getWaitTimeMs. by rewrite H. Qed.

(** A schedule with no restriction is always open. *)
Lemma isWithinSchedule_unrestricted (zone : string -> Z) (now : Z) tz :
  isWithinSchedule zone now
    {| startTime := None; endTime := None; timezone := tz; daysOfWeek := None |}
  = true.
Proof. reflexivity. Qed.

(** Outside the window the wait never looks at [daysOfWeek]: two schedules
    that differ only there and are both closed get the same wait. *)
Lemma getWaitTimeMs_ignores_days (zone : string -> Z) (now : Z)
    (s : AgentSchedule) (days : option (list Z)) :
  let s' := {| startTime := startTime s; endTime := endTime s;
               timezone := timezone s; daysOfWeek := days |} in
  isWithinSchedule zone now s = false ->
  isWithinSchedule zone now s' = false ->
  getWaitTimeMs zone now s' = getWaitTimeMs zone now s.
Proof.
  intros s' H H'. unfold getWaitTimeMs. rewrite H, H'. reflexivity.
Qed.

(** A schedule whose day list is non-empty and does not hold the local day is
    closed. *)
Lemma isWithinSchedule_wrong_day (zone : string -> Z) (now : Z)
    (s : AgentSchedule) (days : list Z) :
  daysOfWeek s = Some days -> days <> [] ->
  includes days (getDay (toLocalTime zone now (zoneOf s))) = false ->
  isWithinSchedule zone now s = false.
Proof.
  intros Hd Hne Hday. unfold isWithinSchedule. rewrite Hd.
  rewrite bool_decide_eq_true_2 by eauto. rewrite !andb_false_r.
  rewrite Hday. destruct days; [contradiction|reflexivity].
Qed.

(** A schedule is closed before its start time. *)
Lemma isWithinSchedule_before_start (zone : string -> Z) (now : Z)
    (s : AgentSchedule) (start : string) :
  startTime s = Some start ->
  Js.str_lt (getTimeString (toLocalTime zone now (zoneOf s))) start = true ->
  isWithinSchedule zone now s = false.
Proof.
  intros Hs Hlt.
  assert (Ht : Js.truthy_str (Some start) = true).
  { unfold Js.truthy_str. destruct (String.eqb_spec start EmptyString) as [->|];
      [|reflexivity].
    unfold Js.str_lt in Hlt. by destruct (getTimeString _). }
  unfold isWithinSchedule. rewrite Hs, Ht.
  change (default EmptyString (Some start)) with start. rewrite Hlt.
  cbn [negb andb orb].
  by destruct (match daysOfWeek s with Some _ => _ | None => _ end).
Qed.

(** Before nine in the morning the clock string sorts before 09:00. *)
Lemma early_morning (t : Z) :
  0 <= t mod MS_PER_DAY < 9 * MS_PER_HOUR ->
  Js.str_lt (getTimeString t) "09:00" = true.
Proof.
  intros Ht. unfold getTimeString, getHours.
  assert (Hh : 0 <= t mod MS_PER_DAY / MS_PER_HOUR < 9).
  { unfold MS_PER_HOUR in *. split.
    - apply Z.div_pos; lia.
    - apply Z.div_lt_upper_bound; lia. }
  set (h := t mod MS_PER_DAY / MS_PER_HOUR) in *.
  assert (h = 0 \/ h = 1 \/ h = 2 \/ h = 3 \/ h = 4 \/ h = 5 \/ h = 6
          \/ h = 7 \/ h = 8) as Hcases by lia.
  repeat (destruct Hcases as [->|Hcases]; [reflexivity|]).
  rewrite Hcases. reflexivity.
Qed.

(** From Saturday evening until the Monday start the weekday schedule stays
    closed: Monday 09:00 is when it next becomes active. *)
Lemma weekdayOffice_closed_over_weekend (t : Z) :
  saturdayEvening <= t < mondayNine ->
  isWithinSchedule utcOnly t weekdayOffice = false.
Proof.
  intros Ht.
  set (L := toLocalTime utcOnly t (zoneOf weekdayOffice)).
  assert (HL : saturdayEvening <= L < mondayNine).
  { subst L. unfold toLocalTime, utcOnly, MS_PER_SECOND,
      saturdayEvening, mondayNine in *.
    rewrite Z.add_0_r.
    pose proof (Z.mod_pos_bound t 1000 ltac:(lia)).
    pose proof (Z.div_mod t 1000 ltac:(lia)).
    assert (1767470400 <= t / 1000 < 1767603600); [|lia].
    split; [apply Z.div_le_lower_bound; lia|apply Z.div_lt_upper_bound; lia]. }
  assert (Hq : L / MS_PER_DAY = 20456 \/ L / MS_PER_DAY = 20457
               \/ L / MS_PER_DAY = 20458).
  { unfold MS_PER_DAY, saturdayEvening, mondayNine in *.
    assert (20456 <= L / 86400000 < 20459); [|lia].
    split; [apply Z.div_le_lower_bound; lia|apply Z.div_lt_upper_bound; lia]. }
  destruct Hq as [Hq|[Hq|Hq]].
  - apply (isWithinSchedule_wrong_day _ _ _ [1; 2; 3; 4; 5]);
      [reflexivity|discriminate|].
    fold L. unfold getDay. rewrite Hq. reflexivity.
  - apply (isWithinSchedule_wrong_day _ _ _ [1; 2; 3; 4; 5]);
      [reflexivity|discriminate|].
    fold L. unfold getDay. rewrite Hq. reflexivity.
  - apply (isWithinSchedule_before_start _ _ _ "09:00"); [reflexivity|].
    fold L. apply early_morning.
    unfold MS_PER_DAY, MS_PER_HOUR, mondayNine in *.
    pose proof (Z.div_mod L 86400000 ltac:(lia)).
    pose proof (Z.mod_pos_bound L 86400000 ltac:(lia)). lia.
Qed.

(** C1, at the fixture.  On Saturday 20:00 UTC the weekday nine-to-five
    schedule is closed, and [getWaitTimeMs] returns the 46 800 000 ms to Sunday
    09:00, a day on which the schedule is still closed.  The schedule stays
    closed until the following Monday 09:00, which is 133 200 000 ms away and
    is when it becomes active. *)
Theorem C1_getWaitTimeMs_saturday_evening :
  getDay saturdayEvening = 6
  /\ getTimeString saturdayEvening = "20:00"
  /\ isWithinSchedule utcOnly saturdayEvening weekdayOffice = false
  /\ getWaitTimeMs utcOnly saturdayEvening weekdayOffice = Some 46800000
  /\ saturdayEvening + 46800000 = sundayNine
  /\ getDay sundayNine = 0
  /\ isWithinSchedule utcOnly sundayNine weekdayOffice = false
  /\ mondayNine - saturdayEvening = 133200000
  /\ getDay mondayNine = 1
  /\ isWithinSchedule utcOnly mondayNine weekdayOffice = true
  /\ (forall t, saturdayEvening <= t < mondayNine ->
        isWithinSchedule utcOnly t weekdayOffice = false).
Proof.
  repeat (split; [vm_compute; reflexivity|]).
  exact weekdayOffice_closed_over_weekend.
Qed.

End ScheduleGate.

(** ** Template resolution *)

Section TemplateMatcher.

Import Template.

Lemma append_assoc_3 (a b c : string) : (a ++ b) ++ c = a ++ (b ++ c).
Proof. induction a as [|x a IH]; simpl; [reflexivity|]. by rewrite IH. Qed.

(** [take_body] splits its input, and the body holds no closing brace. *)
Lemma take_body_spec (s body rest : string) :
  take_body s = (body, rest) ->
  s = body ++ rest /\ Js.includes_char "}" body = false.
Proof.
  revert body rest. induction s as [|c r IH]; intros body rest; simpl.
  - intros [= <- <-]. auto.
  - destruct (Ascii.eqb_spec c "}") as [->|Hc].
    + intros [= <- <-]. auto.
    + destruct (take_body r) as [b' r'] eqn:E. intros [= <- <-].
      destruct (IH b' r' eq_refl) as [-> Hb]. split; [reflexivity|].
      simpl. rewrite Hb. destruct (Ascii.eqb_spec c "}"); [contradiction|reflexivity].
Qed.

(** The body [take_body] returns is the whole brace-free prefix. *)
Lemma take_body_app (body post : string) :
  Js.includes_char "}" body = false ->
  take_body (body ++ String "}" post) = (body, String "}" post).
Proof.
  induction body as [|c b IH]; simpl; [reflexivity|].
  destruct (Ascii.eqb_spec c "}"); simpl; [discriminate|].
  intros H. by rewrite (IH H).
Qed.

Lemma match_at_spec (s m : string) :
  match_at s = Some m ->
  exists body post,
    s = "{{" ++ body ++ "}}" ++ post /\ m = "{{" ++ body ++ "}}"
    /\ body <> EmptyString /\ Js.includes_char "}" body = false.
Proof.
  unfold match_at.
  destruct s as [|c1 [|c2 r]]; try discriminate.
  destruct (Ascii.eqb_spec c1 "{") as [->|H1]; [|discriminate].
  destruct (Ascii.eqb_spec c2 "{") as [->|H2]; [|discriminate].
  cbn [andb].
  destruct (take_body r) as [body rest] eqn:E.
  destruct (take_body_spec _ _ _ E) as [-> Hb].
  destruct body as [|b0 body]; [discriminate|].
  destruct rest as [|d1 [|d2 post]]; try discriminate.
  destruct (Ascii.eqb_spec d1 "}") as [->|H3]; [|discriminate].
  destruct (Ascii.eqb_spec d2 "}") as [->|H4]; [|discriminate].
  cbn [andb].
  intros [= <-]. exists (String b0 body), post.
  split; [|split; [reflexivity|split; [discriminate|exact Hb]]].
  reflexivity.
Qed.

Lemma match_at_complete (body post : string) :
  body <> EmptyString -> Js.includes_char "}" body = false ->
  match_at ("{{" ++ body ++ "}}" ++ post) = Some ("{{" ++ body ++ "}}").
Proof.
  intros Hne Hb. simpl.
  change (body ++ String "}" (String "}" post))
    with (body ++ String "}" (String "}" post)).
  rewrite (take_body_app body (String "}" post) Hb).
  destruct body; [contradiction|reflexivity].
Qed.

(** A match found by the scan is a marker of the scanned text. *)
Lemma match_all_from_marker (s : string) (skip : nat) :
  match_all_from skip s <> [] -> has_marker s.
Proof.
  revert skip. induction s as [|c r IH]; intros skip; cbn [match_all_from];
    [congruence|].
  destruct skip as [|k].
  - destruct (match_at (String c r)) as [m|] eqn:E.
    + intros _. destruct (match_at_spec _ _ E) as (body & post & Hs & _ & Hne & Hb).
      exists EmptyString, body, post. rewrite Hs. auto.
    + intros H. destruct (IH _ H) as (pre & body & post & -> & Hne & Hb).
      exists (String c pre), body, post. auto.
  - intros H. destruct (IH _ H) as (pre & body & post & -> & Hne & Hb).
    exists (String c pre), body, post. auto.
Qed.

(** Conversely a marker makes the scan from its start succeed. *)
Lemma marker_match_all (pre body post : string) :
  body <> EmptyString -> Js.includes_char "}" body = false ->
  match_all_from 0 (pre ++ "{{" ++ body ++ "}}" ++ post) <> [].
Proof.
  intros Hne Hb. induction pre as [|c pre IH].
  - change (EmptyString ++ ?x) with x.
    assert (E := match_at_complete body post Hne Hb).
    simpl in E |- *. simpl. rewrite E. discriminate.
  - change (String c pre ++ ?x) with (String c (pre ++ x)).
    cbn [match_all_from].
    destruct (match_at (String c (pre ++ "{{" ++ body ++ "}}" ++ post)));
      [discriminate | exact IH].
Qed.

(** The matcher refines the specification's notion of a marker. *)
Lemma match_all_nil_iff (template : string) :
  match_all template = [] <-> ~ has_marker template.
Proof.
  unfold match_all. split.
  - intros E (pre & body & post & -> & Hne & Hb).
    by apply (marker_match_all pre body post Hne Hb).
  - intros Hno. destruct (match_all_from 0 template) eqn:E; [reflexivity|].
    exfalso. apply Hno. apply (match_all_from_marker template 0). congruence.
Qed.

(** C7.  A template without markers is returned unchanged, by
    [TemplateResolver.resolve] for every context and by the CLI engine's
    [resolveTemplateString] for every inputs and results; resolving the
    result again changes nothing. *)
Theorem C7_resolve_without_markers_unchanged
    (JSON_stringify : value -> string) (template : string) (context : value)
    (workflowInputs : list (string * value))
    (previousResults : list Engine.NodeResult) :
  ~ has_marker template ->
  resolve template context = Ok template
  /\ Engine.resolveTemplateString JSON_stringify template workflowInputs
       previousResults = template
  /\ (forall context', resolve template context' = resolve template context).
Proof.
  intros Hno. apply match_all_nil_iff in Hno.
  unfold resolve, Engine.resolveTemplateString. rewrite Hno. auto.
Qed.

Lemma C7_resolve_without_markers_unchanged_witness :
  resolve "plain text" historyXYZ = Ok "plain text".
Proof.
  refine (proj1 (C7_resolve_without_markers_unchanged (fun _ => EmptyString)
                   "plain text" historyXYZ [] [] _)).
  apply match_all_nil_iff. reflexivity.
Defined.

End TemplateMatcher.

(** ** Bracketed indices *)

Section BracketIndex.

Import Template.

Lemma digit_char_ok (d : Z) :
  0 <= d < 10 ->
  Js.is_digit (ascii_of_nat (Z.to_nat (48 + d))) = true
  /\ Js.digit_val (ascii_of_nat (Z.to_nat (48 + d))) = d.
Proof.
  intros H.
  assert (d = 0 \/ d = 1 \/ d = 2 \/ d = 3 \/ d = 4 \/ d = 5 \/ d = 6
          \/ d = 7 \/ d = 8 \/ d = 9) as Hd by lia.
  repeat (destruct Hd as [->|Hd]; [split; reflexivity|]).
  subst d. split; reflexivity.
Qed.

Lemma all_digits_from_app (a : Z) (s1 s2 : string) :
  Js.all_digits_from a (s1 ++ s2)
  = match Js.all_digits_from a s1 with
    | Some v => Js.all_digits_from v s2
    | None => None
    end.
Proof.
  revert a. induction s1 as [|c s1 IH]; intros a; simpl; [reflexivity|].
  destruct (Js.is_digit c); [apply IH|reflexivity].
Qed.

Lemma dec_digits_acc (f : nat) (n : Z) (acc : string) :
  Js.dec_digits f n acc = Js.dec_digits f n EmptyString ++ acc.
Proof.
  revert n acc. induction f as [|f IH]; intros n acc; simpl; [reflexivity|].
  destruct (n / 10 =? 0); [reflexivity|].
  rewrite (IH _ (String _ acc)), (IH _ (String _ EmptyString)).
  rewrite append_assoc_3. reflexivity.
Qed.

(** Reading back the digits [dec_digits] wrote gives the number. *)
Lemma dec_digits_value (f : nat) (n : Z) :
  0 <= n < 2 ^ Z.of_nat f ->
  exists p, forall a,
    Js.all_digits_from a (Js.dec_digits f n EmptyString) = Some (a * p + n).
Proof.
  revert n. induction f as [|f IH]; intros n Hn.
  - exists 1. intros a. simpl. f_equal. change (2 ^ Z.of_nat 0) with 1 in Hn. lia.
  - assert (Hd : 0 <= n mod 10 < 10) by (apply Z.mod_pos_bound; lia).
    destruct (digit_char_ok _ Hd) as [Hdig Hval].
    cbn [Js.dec_digits].
    destruct (Z.eqb_spec (n / 10) 0) as [Hz|Hnz].
    + exists 10. intros a. cbn [Js.all_digits_from]. rewrite Hdig, Hval.
      f_equal. rewrite (Z.div_mod n 10) at 2 by lia. lia.
    + rewrite dec_digits_acc.
      assert (Hq : 0 <= n / 10 < 2 ^ Z.of_nat f).
      { rewrite Nat2Z.inj_succ, Z.pow_succ_r in Hn by lia.
        split; [apply Z.div_pos; lia|].
        apply Z.div_lt_upper_bound; lia. }
      destruct (IH _ Hq) as [p Hp].
      exists (10 * p). intros a. rewrite all_digits_from_app, Hp.
      cbn [Js.all_digits_from]. rewrite Hdig, Hval.
      f_equal. rewrite (Z.div_mod n 10) at 3 by lia. lia.
Qed.

Lemma dec_digits_cons (f : nat) (n : Z) (c : ascii) (acc : string) :
  exists c' r, Js.dec_digits f n (String c acc) = String c' r.
Proof.
  revert n c acc. induction f as [|f IH]; intros n c acc; simpl; [eauto|].
  destruct (n / 10 =? 0); [eauto|]. apply IH.
Qed.

Lemma Z_toString_nonneg (n : Z) :
  0 <= n ->
  Js.all_digits_from 0 (Js.Z_toString n) = Some n
  /\ exists c r, Js.Z_toString n = String c r /\ Js.is_digit c = true.
Proof.
  intros Hn. unfold Js.Z_toString.
  destruct (Z.ltb_spec n 0) as [?|_]; [lia|].
  assert (Hb : 0 <= n < 2 ^ Z.of_nat (Z.to_nat (Z.log2 n) + 1)).
  { rewrite Nat2Z.inj_add, Z2Nat.id by apply Z.log2_nonneg.
    change (Z.of_nat 1) with 1.
    destruct (Z.eq_dec n 0) as [->|Hne]; [simpl; lia|].
    split; [lia|]. apply Z.log2_spec. lia. }
  destruct (dec_digits_value _ _ Hb) as [p Hp].
  assert (Hval := Hp 0). rewrite Z.mul_0_l, Z.add_0_l in Hval.
  split; [exact Hval|].
  destruct (Js.dec_digits (Z.to_nat (Z.log2 n) + 1) n EmptyString)
    as [|c r] eqn:E.
  - exfalso. rewrite Nat.add_1_r in E. cbn [Js.dec_digits] in E.
    destruct (n / 10 =? 0); [discriminate|].
    destruct (dec_digits_cons (Z.to_nat (Z.log2 n)) (n / 10)
                (ascii_of_nat (Z.to_nat (48 + n mod 10))) EmptyString)
      as (c' & r' & E').
    congruence.
  - exists c, r. split; [reflexivity|].
    cbn [Js.all_digits_from] in Hval. destruct (Js.is_digit c); [reflexivity|discriminate].
Qed.

Lemma digit_not_l (c : ascii) (r : string) :
  Js.is_digit c = true -> String.eqb (String c r) "length" = false.
Proof.
  intros H. cbn [String.eqb].
  destruct (Ascii.eqb_spec c "l") as [->|_]; [discriminate H|reflexivity].
Qed.

(** A non-negative number used as a property key is an array index. *)
Lemma array_index_nonneg (n : Z) :
  0 <= n -> array_index (Js.Z_toString n) = Some (Z.to_nat n).
Proof.
  intros Hn. destruct (Z_toString_nonneg n Hn) as [Hval (c & r & E & _)].
  unfold array_index. rewrite Hval, E. rewrite <- E.
  by rewrite String.eqb_refl.
Qed.

(** A negative number is no array index. *)
Lemma array_index_negative (n : Z) :
  n < 0 -> array_index (Js.Z_toString n) = None
           /\ String.eqb (Js.Z_toString n) "length" = false.
Proof.
  intros Hn. unfold Js.Z_toString.
  destruct (Z.ltb_spec n 0) as [_|?]; [|lia].
  split; reflexivity.
Qed.

(** [base?.[idx]] on an array: a negative index selects nothing, a
    non-negative one the element at that position from the start. *)
Lemma get_index_opt_array (items : list value) (idx : Z) :
  get_index_opt (VArr items) (Some idx)
  = if idx <? 0 then VUndefined else nth (Z.to_nat idx) items VUndefined.
Proof.
  unfold get_index_opt, index_key, get_prop. cbn [is_nullish].
  destruct (Z.ltb_spec idx 0) as [Hneg|Hpos].
  - destruct (array_index_negative idx Hneg) as [-> ->]. reflexivity.
  - destruct (Z_toString_nonneg idx Hpos) as [_ (c & r & E & Hc)].
    rewrite (array_index_nonneg idx Hpos), E, (digit_not_l c r Hc). reflexivity.
Qed.

(** *** Paths of the form history[n] *)

Lemma all_chars_app (P : ascii -> bool) (a b : string) :
  all_chars P (a ++ b) = all_chars P a && all_chars P b.
Proof.
  induction a as [|c a IH]; simpl; [reflexivity|].
  by rewrite IH, andb_assoc.
Qed.

Lemma dec_digits_chars (f : nat) (n : Z) (acc : string) :
  all_chars Js.is_digit acc = true ->
  all_chars Js.is_digit (Js.dec_digits f n acc) = true.
Proof.
  revert n acc. induction f as [|f IH]; intros n acc Hacc; simpl; [exact Hacc|].
  assert (Hd : 0 <= n mod 10 < 10) by (apply Z.mod_pos_bound; lia).
  destruct (digit_char_ok _ Hd) as [Hdig _].
  destruct (n / 10 =? 0).
  - simpl. by rewrite Hdig.
  - apply IH. simpl. by rewrite Hdig.
Qed.

Lemma Z_toString_chars (n : Z) : all_chars numeral_char (Js.Z_toString n) = true.
Proof.
  assert (Hweak : forall s, all_chars Js.is_digit s = true ->
                            all_chars numeral_char s = true).
  { induction s as [|c s IH]; simpl; [done|].
    intros [Hc Hs]%andb_true_iff. unfold numeral_char at 1.
    by rewrite Hc, (IH Hs). }
  unfold Js.Z_toString. destruct (n <? 0).
  - simpl. apply Hweak. by apply dec_digits_chars.
  - apply Hweak. by apply dec_digits_chars.
Qed.

Lemma all_chars_excludes (P : ascii -> bool) (sep : ascii) (s : string) :
  P sep = false -> all_chars P s = true -> Js.includes_char sep s = false.
Proof.
  intros Hsep. induction s as [|c s IH]; simpl; [done|].
  intros [Hc Hs]%andb_true_iff.
  destruct (Ascii.eqb_spec c sep) as [->|_]; [congruence|]. by apply IH.
Qed.

Lemma includes_char_app (sep : ascii) (a b : string) :
  Js.includes_char sep (a ++ b)
  = Js.includes_char sep a || Js.includes_char sep b.
Proof.
  induction a as [|c a IH]; simpl; [reflexivity|]. by rewrite IH, orb_assoc.
Qed.

Lemma split_on_none (sep : ascii) (s : string) :
  Js.includes_char sep s = false -> Js.split_on sep s = [s].
Proof.
  induction s as [|c s IH]; simpl; [reflexivity|].
  destruct (Ascii.eqb c sep); simpl; [discriminate|].
  intros H. by rewrite (IH H).
Qed.

Lemma split_on_app_sep (sep : ascii) (a b : string) :
  Js.includes_char sep a = false ->
  Js.split_on sep (a ++ String sep b) = a :: Js.split_on sep b.
Proof.
  induction a as [|c a IH]; simpl.
  - intros _. by rewrite Ascii.eqb_refl.
  - destruct (Ascii.eqb c sep); simpl; [discriminate|].
    intros H. by rewrite (IH H).
Qed.

Lemma prefix_char_false (c d : ascii) (r : string) :
  d <> c -> String.prefix (String c EmptyString) (String d r) = false.
Proof. intros H. simpl. destruct (ascii_dec c d); [congruence|reflexivity]. Qed.

(** [s.replace(c, '')] removes the closing bracket at the end. *)
Lemma replace_last_char (c : ascii) (s : string) :
  Js.includes_char c s = false ->
  replace (s ++ String c EmptyString) (String c EmptyString) EmptyString = s.
Proof.
  intros Hs. unfold replace.
  assert (Hfind : find_first (String c EmptyString) (s ++ String c EmptyString)
                  = Some (s, EmptyString)).
  { induction s as [|d s IH].
    - simpl. destruct (ascii_dec c c); [reflexivity|contradiction].
    - simpl in Hs. destruct (Ascii.eqb_spec d c) as [->|Hne]; [discriminate|].
      change (String d s ++ String c EmptyString)
        with (String d (s ++ String c EmptyString)).
      cbn [find_first]. rewrite (prefix_char_false c d _ Hne).
      by rewrite (IH Hs). }
  rewrite Hfind. simpl. clear Hs Hfind.
  induction s as [|d s IH]; simpl; [reflexivity|]. by rewrite IH.
Qed.

Lemma digits_prefix_all (s : string) :
  forall a seen v,
    Js.all_digits_from a s = Some v ->
    (seen = true \/ s <> EmptyString) ->
    Js.digits_prefix a seen s = Some v.
Proof.
  induction s as [|c s IH]; intros a seen v Hv Hne; simpl in *.
  - destruct Hne as [->|?]; [exact Hv|contradiction].
  - destruct (Js.is_digit c); [|discriminate]. apply IH; [exact Hv|by left].
Qed.

(** [parseInt] reads back what [toString] wrote. *)
Lemma parseInt_Z_toString (n : Z) : Js.parseInt (Js.Z_toString n) = Some n.
Proof.
  destruct (Z.ltb_spec n 0) as [Hneg|Hpos].
  - unfold Js.Z_toString. destruct (Z.ltb_spec n 0) as [_|?]; [|lia].
    unfold Js.parseInt. cbn [Js.trim_start Js.is_space].
    change (Js.is_space "-") with false. cbn.
    destruct (Z_toString_nonneg (- n)) as [Hval (c & r & E & _)]; [lia|].
    unfold Js.Z_toString in Hval, E.
    destruct (Z.ltb_spec (- n) 0) as [?|_]; [lia|].
    rewrite (digits_prefix_all _ 0 false (- n) Hval).
    + simpl. f_equal. lia.
    + right. by rewrite E.
  - destruct (Z_toString_nonneg n Hpos) as [Hval (c & r & E & Hc)].
    unfold Js.parseInt. rewrite E. cbn [Js.trim_start].
    assert (Hsp : Js.is_space c = false).
    { destruct c as [[] [] [] [] [] [] [] []]; try reflexivity; discriminate Hc. }
    rewrite Hsp.
    assert (Hm : Ascii.eqb c "-" = false).
    { destruct (Ascii.eqb_spec c "-") as [->|]; [discriminate Hc|reflexivity]. }
    assert (Hp : Ascii.eqb c "+" = false).
    { destruct (Ascii.eqb_spec c "+") as [->|]; [discriminate Hc|reflexivity]. }
    rewrite Hm, Hp, <- E.
    apply digits_prefix_all; [exact Hval|]. right. by rewrite E.
Qed.

Lemma step_part_historyAt (current : value) (n : Z) :
  step_part current (historyAt n)
  = get_index_opt (get_prop current "history") (Some n).
Proof.
  pose proof (Z_toString_chars n) as Hc.
  unfold step_part, historyAt.
  change (Js.includes_char "[" ("history[" ++ Js.Z_toString n ++ "]")) with true.
  cbv iota.
  change ("history[" ++ Js.Z_toString n ++ "]")
    with ("history" ++ String "[" (Js.Z_toString n ++ "]")).
  rewrite split_on_app_sep by reflexivity.
  rewrite split_on_none.
  2:{ rewrite includes_char_app.
      rewrite (all_chars_excludes numeral_char "[" _ eq_refl Hc). reflexivity. }
  rewrite (replace_last_char "]").
  2:{ apply (all_chars_excludes numeral_char "]" _ eq_refl Hc). }
  by rewrite parseInt_Z_toString.
Qed.

Lemma getNestedValue_historyAt (fields : list (string * value)) (n : Z) :
  getNestedValue (VObj fields) (historyAt n)
  = get_index_opt (default VUndefined (assoc "history" fields)) (Some n).
Proof.
  pose proof (Z_toString_chars n) as Hc.
  unfold getNestedValue. rewrite split_on_none.
  - cbn [walk_parts is_nullish]. rewrite step_part_historyAt. reflexivity.
  - unfold historyAt. rewrite !includes_char_app.
    rewrite (all_chars_excludes numeral_char "." _ eq_refl Hc). reflexivity.
Qed.

(** *** A template that is one marker *)

Lemma match_all_from_skip (r : string) :
  forall k, (String.length r <= k)%nat -> match_all_from k r = [].
Proof.
  induction r as [|c r IH]; intros k Hk; cbn [match_all_from]; [reflexivity|].
  cbn [String.length] in Hk. destruct k as [|k]; [lia|]. apply IH. lia.
Qed.

Lemma match_all_single (body : string) :
  body <> EmptyString -> Js.includes_char "}" body = false ->
  match_all ("{{" ++ body ++ "}}") = ["{{" ++ body ++ "}}"].
Proof.
  intros Hne Hb. pose proof (match_at_complete body EmptyString Hne Hb) as E.
  change ("{{" ++ body ++ "}}" ++ EmptyString)
    with (String "{" (String "{" (body ++ "}}"))) in E.
  unfold match_all.
  change ("{{" ++ body ++ "}}") with (String "{" (String "{" (body ++ "}}"))).
  cbn [match_all_from]. rewrite E. f_equal.
  apply match_all_from_skip. apply le_n.
Qed.

Lemma length_append (a b : string) :
  String.length (a ++ b) = (String.length a + String.length b)%nat.
Proof. induction a as [|c a IH]; simpl; [reflexivity|]. by rewrite IH. Qed.

Lemma substring_prefix (a b : string) :
  String.substring 0 (String.length a) (a ++ b) = a.
Proof. induction a as [|c a IH]; simpl; [by destruct b|]. by rewrite IH. Qed.

Lemma slice_marker (body : string) : slice_2_m2 ("{{" ++ body ++ "}}") = body.
Proof.
  unfold slice_2_m2.
  change ("{{" ++ body ++ "}}") with (String "{" (String "{" (body ++ "}}"))).
  cbn [String.length String.substring]. rewrite length_append.
  replace (S (S (String.length body + String.length "}}")) - 4)%nat
    with (String.length body) by (cbn [String.length]; lia).
  apply substring_prefix.
Qed.

Lemma list_ascii_app (a b : string) :
  list_ascii_of_string (a ++ b)
  = (list_ascii_of_string a ++ list_ascii_of_string b)%list.
Proof. induction a as [|c a IH]; simpl; [reflexivity|]. by rewrite IH. Qed.

Lemma rev_string_involutive (s : string) : Js.rev_string (Js.rev_string s) = s.
Proof.
  unfold Js.rev_string.
  by rewrite list_ascii_of_string_of_list_ascii, rev_involutive,
    string_of_list_ascii_of_string.
Qed.

Lemma rev_string_snoc (q : string) (d : ascii) :
  Js.rev_string (q ++ String d EmptyString) = String d (Js.rev_string q).
Proof.
  unfold Js.rev_string. rewrite list_ascii_app, rev_app_distr. reflexivity.
Qed.

(** [trim] leaves alone a text that neither starts nor ends with a space. *)
Lemma trim_id (c d : ascii) (r q : string) :
  String c r = q ++ String d EmptyString ->
  Js.is_space c = false -> Js.is_space d = false ->
  Js.trim (String c r) = String c r.
Proof.
  intros Hs Hc Hd. unfold Js.trim. cbn [Js.trim_start]. rewrite Hc.
  rewrite Hs, rev_string_snoc. cbn [Js.trim_start]. rewrite Hd.
  by rewrite <- rev_string_snoc, rev_string_involutive.
Qed.

Lemma trim_historyAt (n : Z) : Js.trim (historyAt n) = historyAt n.
Proof.
  unfold historyAt.
  change ("history[" ++ Js.Z_toString n ++ "]")
    with (String "h" ("istory[" ++ Js.Z_toString n ++ "]")).
  apply (trim_id "h" "]" _ ("history[" ++ Js.Z_toString n)); [|done|done].
  change (String "h" ("istory[" ++ Js.Z_toString n ++ "]"))
    with ("history[" ++ (Js.Z_toString n ++ "]")).
  by rewrite append_assoc_3.
Qed.

Lemma prefix_refl (t : string) : String.prefix t t = true.
Proof.
  induction t as [|c t IH]; simpl; [reflexivity|].
  destruct (ascii_dec c c); [exact IH|contradiction].
Qed.

Lemma substring_at_end (t : string) :
  String.substring (String.length t) 0 t = EmptyString.
Proof. induction t as [|c t IH]; simpl; [reflexivity|exact IH]. Qed.

Lemma append_nil_r (s : string) : s ++ EmptyString = s.
Proof. induction s as [|c s IH]; simpl; [reflexivity|]. by rewrite IH. Qed.

Lemma expand_replacement_skip (d c : ascii) (r matched before after : string) :
  Ascii.eqb d "$" = false ->
  expand_replacement (String d (String c r)) matched before after
  = String d (expand_replacement (String c r) matched before after).
Proof.
  intros Hd.
  change (expand_replacement (String d (String c r)) matched before after)
    with (if negb (Ascii.eqb d "$")
          then String d (expand_replacement (String c r) matched before after)
          else if Ascii.eqb c "$" then
            String "$" (expand_replacement r matched before after)
          else if Ascii.eqb c "&" then
            matched ++ expand_replacement r matched before after
          else if Ascii.eqb c "`" then
            before ++ expand_replacement r matched before after
          else if Ascii.eqb c "'" then
            after ++ expand_replacement r matched before after
          else String "$" (expand_replacement (String c r) matched before after)).
  by rewrite Hd.
Qed.

Lemma expand_replacement_plain (s matched before after : string) :
  Js.includes_char "$" s = false ->
  expand_replacement s matched before after = s.
Proof.
  induction s as [|d s IH]; [reflexivity|].
  cbn [Js.includes_char]. intros [Hd Hs]%orb_false_iff.
  destruct s as [|c r]; [reflexivity|].
  rewrite (expand_replacement_skip _ _ _ _ _ _ Hd). by rewrite (IH Hs).
Qed.

(** Replacing the whole text by a dollar-free text yields that text. *)
Lemma replace_whole (t s : string) :
  Js.includes_char "$" s = false -> replace t t s = s.
Proof.
  intros Hs. unfold replace.
  assert (Hfind : find_first t t = Some (EmptyString, EmptyString)).
  { destruct t as [|c t]; [reflexivity|].
    cbn [find_first]. rewrite prefix_refl, Nat.sub_diag.
    by rewrite substring_at_end. }
  rewrite Hfind. rewrite (expand_replacement_plain _ _ _ _ Hs).
  cbn [String.append]. apply append_nil_r.
Qed.

(** Resolving the template that consists of the marker of [history[n]]. *)
Lemma resolve_historyAt (context : value) (n : Z) :
  resolve ("{{" ++ historyAt n ++ "}}") context
  = let v := getNestedValue context (historyAt n) in
    if is_undefined v
    then Throw ("Template variable not found: " ++ historyAt n)
    else Ok (replace ("{{" ++ historyAt n ++ "}}") ("{{" ++ historyAt n ++ "}}")
               (toString v)).
Proof.
  pose proof (Z_toString_chars n) as Hc.
  unfold resolve. rewrite match_all_single.
  - cbn [resolve_matches]. by rewrite slice_marker, trim_historyAt.
  - discriminate.
  - unfold historyAt. rewrite !includes_char_app.
    rewrite (all_chars_excludes numeral_char "}" _ eq_refl Hc). reflexivity.
Qed.

(** C3 at the example: the last element is not selected.
    [TemplateResolver.resolve] throws, and the CLI engine, which knows no
    brackets, leaves the marker in place.  The repository's documents give
    the marker of [conversationHistory[-1]] as the last message and its
    example dialogues use it in their prompts; with the resolver of the
    listing in the dialogue executor, a turn with such a prompt throws
    instead of quoting the last line, and records nothing. *)
Lemma C3_negative_index_counterexample :
  resolve "{{history[-1]}}" historyXYZ
  = Throw "Template variable not found: history[-1]"
  /\ resolve "{{history[-1]}}" historyXYZ <> Ok "z"
  /\ (forall JSON_stringify,
        Engine.resolveTemplateString JSON_stringify "{{history[-1]}}"
          Engine.historyInputs Engine.historyResults
        = "{{history[-1]}}")
  /\ Dialogue.executeTurn resolve Dialogue.demoCall Dialogue.demoJson
       Dialogue.demoUuid Dialogue.demoClock Dialogue.quotingTurn []
       Dialogue.afterFirstTurn
     = (Throw "Template variable not found: conversationHistory[-1]",
        Dialogue.afterFirstTurn).
Proof.
  split; [reflexivity|]. split; [vm_compute; discriminate|].
  split; [intros JSON_stringify; reflexivity|].
  vm_compute. reflexivity.
Qed.

(** C3, as the listing behaves.  [getNestedValue] hands the number in the
    brackets to a plain property read.  In a context whose [history] is a
    sequence, a negative index therefore selects no element: the path is
    undefined and [resolve] throws, naming it, as it does for the index -1 of
    the example, where the last element z is expected.  A non-negative index
    selects the element at that position counted from the start (undefined
    past the end), and [resolve] returns it when it is a dollar-free string,
    so that with history x, y, z only the index 2 yields z. *)
Theorem C3_bracket_index_counts_from_start
    (fields : list (string * value)) (items : list value) :
  assoc "history" fields = Some (VArr items) ->
  (forall n, n < 0 ->
     resolve ("{{" ++ historyAt n ++ "}}") (VObj fields)
     = Throw ("Template variable not found: " ++ historyAt n))
  /\ resolve "{{history[-1]}}" (VObj fields)
     = Throw "Template variable not found: history[-1]"
  /\ (forall n,
        getNestedValue (VObj fields) (historyAt n)
        = if n <? 0 then VUndefined else nth (Z.to_nat n) items VUndefined)
  /\ (forall n s, 0 <= n ->
        nth (Z.to_nat n) items VUndefined = VStr s ->
        Js.includes_char "$" s = false ->
        resolve ("{{" ++ historyAt n ++ "}}") (VObj fields) = Ok s)
  /\ (items = [VStr "x"; VStr "y"; VStr "z"] ->
        resolve "{{history[2]}}" (VObj fields) = Ok "z").
Proof.
  intros Hh.
  assert (Hpath : forall n,
             getNestedValue (VObj fields) (historyAt n)
             = if n <? 0 then VUndefined else nth (Z.to_nat n) items VUndefined).
  { intros n. rewrite getNestedValue_historyAt, Hh.
    change (default VUndefined (Some (VArr items))) with (VArr items).
    apply get_index_opt_array. }
  assert (Hneg : forall n, n < 0 ->
             resolve ("{{" ++ historyAt n ++ "}}") (VObj fields)
             = Throw ("Template variable not found: " ++ historyAt n)).
  { intros n Hn. rewrite resolve_historyAt. cbv zeta. rewrite Hpath.
    destruct (Z.ltb_spec n 0); [reflexivity|lia]. }
  assert (Hpos : forall n s, 0 <= n ->
             nth (Z.to_nat n) items VUndefined = VStr s ->
             Js.includes_char "$" s = false ->
             resolve ("{{" ++ historyAt n ++ "}}") (VObj fields) = Ok s).
  { intros n s Hn Hnth Hs. rewrite resolve_historyAt. cbv zeta. rewrite Hpath.
    destruct (Z.ltb_spec n 0); [lia|]. rewrite Hnth. cbn [is_undefined toString].
    by rewrite replace_whole. }
  split; [exact Hneg|]. split; [exact (Hneg (-1) eq_refl)|].
  split; [exact Hpath|]. split; [exact Hpos|].
  intros ->. apply (Hpos 2 "z"); [lia|reflexivity|reflexivity].
Qed.

Lemma C3_bracket_index_counts_from_start_witness :
  resolve "{{history[-1]}}" historyXYZ
  = Throw "Template variable not found: history[-1]".
Proof.
  refine (proj1 (proj2 (C3_bracket_index_counts_from_start
                          [("history", VArr [VStr "x"; VStr "y"; VStr "z"])]
                          [VStr "x"; VStr "y"; VStr "z"] _))).
  reflexivity.
Defined.

End BracketIndex.

(** ** Structural validation *)

Section Validation.

Import Template Validate.

(** [validateYAML] reports one failure at most: it throws at the first check
    that fails, and an edge check is reached only by documents that pass
    every earlier one. *)
Lemma validateYAML_missing_name (yaml : WorkflowYAMLSpec) :
  Js.truthy_str (name yaml) = false ->
  validateYAML yaml = Throw "Workflow name is required".
Proof. intros H. unfold validateYAML. by rewrite H. Qed.














End Validation.

(** ** Cycle detection *)

Section CycleTraversal.

Import Cycles.

Variable spec : WorkflowSpec.

Implicit Types (st : DfsState) (x nodeId : string) (path deps : list string).

Lemma report_found path st : found (report path st) <> [].
Proof. unfold report; simpl. by destruct (found st). Qed.

Lemma visitDeps_basic recur (Hrec : recur_ok spec recur) deps :
  forall path st b st',
    visitDeps recur path deps st = Some (b, st') -> loop_post spec deps st b st'.
Proof.
  induction deps as [|d deps IH]; intros path st b st' Hrun; cbn [visitDeps] in Hrun.
  { injection Hrun as <- <-. unfold loop_post.
    split; [done|]. split; [done|]. split; [done|]. split; [done|].
    intros _ d Hd. by apply elem_of_nil in Hd. }
  case_bool_decide as Hvis; cbn [negb] in Hrun.
  - (* the dependency was visited before *)
    case_bool_decide as Hstack.
    + injection Hrun as <- <-. unfold loop_post.
      split; [done|]. split; [done|].
      split; [intros _; apply report_found|].
      split; [intros _; apply report_found|]. discriminate.
    + destruct (IH _ _ _ _ Hrun) as (Hmono & Hframe & Hkeep & Htrue & Hfalse).
      unfold loop_post.
      split; [done|]. split; [done|]. split; [done|]. split; [done|].
      intros Hb d' Hd'. apply elem_of_cons in Hd' as [->|Hd']; [|by apply Hfalse].
      split; [by apply Hmono|]. left. by rewrite (Hframe d Hvis).
  - (* a fresh dependency: recursive call *)
    destruct (recur d (path ++ [d])%list st) as [[[] s1]|] eqn:Hcall;
      [| |discriminate].
    + injection Hrun as <- <-.
      destruct (Hrec _ _ _ _ _ Hcall Hvis) as (Hmono & _ & Hframe & Hkeep & Htrue & _).
      unfold loop_post.
      split; [done|]. split; [done|]. split; [done|]. split; [done|]. discriminate.
    + destruct (Hrec _ _ _ _ _ Hcall Hvis)
        as (Hmono1 & Hin1 & Hframe1 & Hkeep1 & _ & Hoff1).
      destruct (IH _ _ _ _ Hrun) as (Hmono & Hframe & Hkeep & Htrue & Hfalse).
      unfold loop_post.
      split; [set_solver|].
      split.
      { intros x Hx. rewrite (Hframe x) by set_solver. by apply Hframe1. }
      split; [auto|]. split; [done|].
      intros Hb d' Hd'. apply elem_of_cons in Hd' as [->|Hd']; [|by apply Hfalse].
      split; [set_solver|].
      destruct (findNode spec d) as [node|] eqn:Hfind; [|by right].
      left. rewrite (Hframe d Hin1). by apply Hoff1.
Qed.

Lemma dfs_basic fuel : recur_ok spec (dfs spec fuel).
Proof.
  induction fuel as [|fuel IH]; intros nodeId path st b st' Hrun Hfresh;
    cbn [dfs] in Hrun; [discriminate|].
  destruct (findNode spec nodeId) as [node|] eqn:Hfind.
  - destruct (visitDeps (dfs spec fuel) path (default [] (depends node))
                (enter nodeId st)) as [[[] s1]|] eqn:Hloop; [| |discriminate].
    + injection Hrun as <- <-.
      destruct (visitDeps_basic _ IH _ _ _ _ _ Hloop)
        as (Hmono & Hframe & Hkeep & Htrue & _).
      unfold dfs_post. unfold enter in *; simpl in *.
      split; [set_solver|]. split; [set_solver|].
      split.
      { intros x Hx. rewrite (Hframe x) by set_solver. set_solver. }
      split; [done|]. split; [auto|]. discriminate.
    + injection Hrun as <- <-.
      destruct (visitDeps_basic _ IH _ _ _ _ _ Hloop)
        as (Hmono & Hframe & Hkeep & _ & _).
      unfold dfs_post. unfold enter, leave in *; simpl in *.
      split; [set_solver|]. split; [set_solver|].
      split.
      { intros x Hx. rewrite elem_of_difference, (Hframe x) by set_solver.
        set_solver. }
      split; [done|]. split; [discriminate|]. set_solver.
  - injection Hrun as <- <-. unfold dfs_post, enter; simpl.
    split; [set_solver|]. split; [set_solver|].
    split; [intros x Hx; set_solver|].
    split; [done|]. split; [discriminate|]. intros _ H. by destruct H.
Qed.


(** *** Nodes that can never finish *)

Variable trapped : string -> Prop.
Hypothesis trapped_step :
  forall x, trapped x -> exists y, trapped y /\ follows spec x y.

Lemma trapped_declared x : trapped x -> findNode spec x <> None.
Proof.
  intros Hx. destruct (trapped_step x Hx) as (y & _ & node & Hfind & _).
  by rewrite Hfind.
Qed.

Lemma visitDeps_inv recur (Hok : recur_ok spec recur) (Hinv : recur_inv trapped recur) deps :
  forall path st b st',
    visitDeps recur path deps st = Some (b, st') -> none_finished trapped st ->
    none_finished trapped st' /\ (visit_recorded trapped st -> visit_recorded trapped st').
Proof.
  induction deps as [|d deps IH]; intros path st b st' Hrun HP; cbn [visitDeps] in Hrun.
  { injection Hrun as <- <-. done. }
  case_bool_decide as Hvis; cbn [negb] in Hrun.
  - case_bool_decide as Hstack.
    + injection Hrun as <- <-. split; [exact HP|].
      intros _ _. apply report_found.
    + by apply (IH _ _ _ _ Hrun).
  - destruct (recur d (path ++ [d])%list st) as [[[] s1]|] eqn:Hcall;
      [| |discriminate].
    + injection Hrun as <- <-. by apply (Hinv _ _ _ _ _ Hcall).
    + destruct (Hinv _ _ _ _ _ Hcall Hvis HP) as [HP1 HR1].
      destruct (IH _ _ _ _ Hrun HP1) as [HP' HR']. auto.
Qed.

Lemma dfs_inv fuel : recur_inv trapped (dfs spec fuel).
Proof.
  induction fuel as [|fuel IH]; intros nodeId path st b st' Hrun Hfresh HP;
    cbn [dfs] in Hrun; [discriminate|].
  assert (HPenter : none_finished trapped (enter nodeId st)).
  { intros x Hx [Hv Hs]. unfold enter in *; simpl in *.
    apply (HP x Hx). split; set_solver. }
  destruct (findNode spec nodeId) as [node|] eqn:Hfind.
  - destruct (visitDeps (dfs spec fuel) path (default [] (depends node))
                (enter nodeId st)) as [[[] s1]|] eqn:Hloop; [| |discriminate].
    + injection Hrun as <- <-.
      destruct (visitDeps_inv _ (dfs_basic fuel) IH _ _ _ _ _ Hloop HPenter)
        as [HP1 _].
      destruct (visitDeps_basic _ (dfs_basic fuel) _ _ _ _ _ Hloop)
        as (_ & _ & _ & Htrue & _).
      split; [exact HP1|]. intros _ _. by apply Htrue.
    + injection Hrun as <- <-.
      destruct (visitDeps_inv _ (dfs_basic fuel) IH _ _ _ _ _ Hloop HPenter)
        as [HP1 HR1].
      destruct (visitDeps_basic _ (dfs_basic fuel) _ _ _ _ _ Hloop)
        as (Hmono & Hframe & Hkeep & _ & Hdeps).
      (* the node itself is not trapped: a trapped dependency would be
         finished *)
      assert (Hnot : ~ trapped nodeId).
      { intros Hx. destruct (trapped_step _ Hx) as (y & Hy & node' & Hfind' & Hin).
        rewrite Hfind in Hfind'. injection Hfind' as <-.
        destruct (Hdeps eq_refl y Hin) as [Hvy [Hoff|Hmissing]].
        - by apply (HP1 y Hy).
        - by apply (trapped_declared y Hy). }
      split.
      * intros x Hx [Hv Hs]. unfold leave in *; simpl in *.
        destruct (decide (x = nodeId)) as [->|Hne]; [contradiction|].
        apply (HP1 x Hx). split; set_solver.
      * intros HR. unfold visit_recorded, leave; simpl.
        apply HR1. intros (x & Hx & Hv). apply HR. exists x. split; [done|].
        unfold enter in Hv; simpl in Hv.
        apply elem_of_union in Hv as [Hv|Hv]; [|done].
        apply elem_of_singleton in Hv as ->. contradiction.
  - injection Hrun as <- <-. split; [exact HPenter|].
    intros HR (x & Hx & Hv). unfold enter in *; simpl in *.
    apply HR. exists x. split; [done|].
    apply elem_of_union in Hv as [Hv|Hv]; [|done].
    apply elem_of_singleton in Hv as ->.
    by destruct (trapped_declared _ Hx).
Qed.

(** The loop over all nodes keeps both invariants and visits every node. *)
Lemma visitAll_inv fuel (ns : list SpecNode) :
  forall st st',
    visitAll spec fuel ns st = Some st' ->
    none_finished trapped st -> visit_recorded trapped st ->
    none_finished trapped st' /\ visit_recorded trapped st'
    /\ visited st ⊆ visited st'
    /\ (forall n, n ∈ ns -> id n ∈ visited st').
Proof.
  induction ns as [|n ns IH]; intros st st' Hrun HP HR; cbn [visitAll] in Hrun.
  { injection Hrun as <-. split; [done|]. split; [done|]. split; [done|].
    intros n Hn. by apply elem_of_nil in Hn. }
  case_bool_decide as Hvis; cbn [negb] in Hrun.
  - destruct (IH _ _ Hrun HP HR) as (HP' & HR' & Hmono & Hall).
    split; [done|]. split; [done|]. split; [done|].
    intros m Hm. apply elem_of_cons in Hm as [->|Hm]; [set_solver|by apply Hall].
  - destruct (dfs spec fuel (id n) [id n] st) as [[b s1]|] eqn:Hcall;
      [|discriminate].
    destruct (dfs_inv fuel _ _ _ _ _ Hcall Hvis HP) as [HP1 HR1].
    destruct (dfs_basic fuel _ _ _ _ _ Hcall Hvis) as (Hmono1 & Hin1 & _).
    destruct (IH _ _ Hrun HP1 (HR1 HR)) as (HP' & HR' & Hmono & Hall).
    split; [done|]. split; [done|]. split; [set_solver|].
    intros m Hm. apply elem_of_cons in Hm as [->|Hm]; [set_solver|by apply Hall].
Qed.

Lemma findNode_In x node :
  findNode spec x = Some node -> node ∈ nodes spec /\ id node = x.
Proof.
  unfold findNode. intros H. apply find_some in H as [Hin Heq].
  split; [by apply list_elem_of_In|]. by apply String.eqb_eq.
Qed.

Lemma findNode_node (n : SpecNode) :
  n ∈ nodes spec -> findNode spec (id n) <> None.
Proof.
  intros Hn Hnone. unfold findNode in Hnone.
  eapply find_none in Hnone; [|by apply list_elem_of_In].
  simpl in Hnone. by rewrite String.eqb_refl in Hnone.
Qed.

(** A specification with a trapped node does not pass. *)
Lemma detectCycles_trapped x result :
  trapped x -> detectCycles spec = Some result ->
  valid result = false /\ errors result <> [].
Proof.
  intros Hx. unfold detectCycles.
  destruct (visitAll spec (S (size (universe spec))) (nodes spec) initial)
    as [st|] eqn:Hrun; [|discriminate].
  intros [= <-]. cbn [valid errors].
  assert (HP0 : none_finished trapped initial).
  { intros y _ [Hv _]. unfold initial in Hv; simpl in Hv. set_solver. }
  assert (HR0 : visit_recorded trapped initial).
  { intros (y & _ & Hv). unfold initial in Hv; simpl in Hv. set_solver. }
  destruct (visitAll_inv _ _ _ _ Hrun HP0 HR0) as (_ & HR & _ & Hall).
  assert (Hfound : found st <> []).
  { apply HR. exists x. split; [done|].
    destruct (findNode spec x) as [node|] eqn:Hfind;
      [|by destruct (trapped_declared x Hx)].
    destruct (findNode_In _ _ Hfind) as [Hin <-]. by apply Hall. }
  split; [|exact Hfound]. by destruct (found st).
Qed.

End CycleTraversal.

(** *** The traversal terminates within its fuel *)

Section CycleTermination.

Import Cycles.

Variable spec : WorkflowSpec.

Lemma universe_node (n : SpecNode) :
  n ∈ nodes spec ->
  id n ∈ universe spec
  /\ forall d, d ∈ default [] (depends n) -> d ∈ universe spec.
Proof.
  intros Hn. unfold universe. split.
  - apply elem_of_list_to_set, list_elem_of_In, in_flat_map.
    exists n. split; [by apply list_elem_of_In|]. by left.
  - intros d Hd. apply elem_of_list_to_set, list_elem_of_In, in_flat_map.
    exists n. split; [by apply list_elem_of_In|]. right. by apply list_elem_of_In.
Qed.

Lemma unvisited_mono (st st' : DfsState) :
  visited st ⊆ visited st' -> (unvisited spec st' <= unvisited spec st)%nat.
Proof. intros H. unfold unvisited. apply subseteq_size. set_solver. Qed.

Lemma unvisited_enter (x : string) (st : DfsState) :
  x ∈ universe spec -> x ∉ visited st ->
  (unvisited spec (enter x st) < unvisited spec st)%nat.
Proof.
  intros HU Hfresh. unfold unvisited, enter; simpl.
  apply subset_size. split; [set_solver|].
  intros Hsub. assert (x ∈ universe spec ∖ ({[x]} ∪ visited st)) by set_solver.
  set_solver.
Qed.

Lemma visitDeps_total recur bound
    (Hok : recur_ok spec recur) (Htot : recur_total spec recur bound) deps :
  forall path st,
    (forall d, d ∈ deps -> d ∈ universe spec) ->
    (unvisited spec st <= bound)%nat ->
    is_Some (visitDeps recur path deps st).
Proof.
  induction deps as [|d deps IH]; intros path st HU Hb; cbn [visitDeps]; [done|].
  assert (HUd : d ∈ universe spec) by (apply HU; by left).
  assert (HUrest : forall d', d' ∈ deps -> d' ∈ universe spec)
    by (intros d' Hd'; apply HU; by right).
  case_bool_decide as Hvis; cbn [negb].
  - case_bool_decide; [done|]. by apply IH.
  - destruct (Htot d (path ++ [d])%list st HUd Hvis Hb) as [[b s1] Hcall].
    rewrite Hcall. destruct b; [done|].
    apply IH; [done|].
    destruct (Hok _ _ _ _ _ Hcall Hvis) as (Hmono & _).
    pose proof (unvisited_mono _ _ Hmono). lia.
Qed.

Lemma dfs_total fuel : recur_total spec (dfs spec fuel) fuel.
Proof.
  induction fuel as [|fuel IH]; intros nodeId path st HU Hfresh Hb.
  - pose proof (unvisited_enter nodeId st HU Hfresh). lia.
  - cbn [dfs].
    destruct (findNode spec nodeId) as [node|] eqn:Hfind; [|done].
    destruct (findNode_In spec _ _ Hfind) as [Hin _].
    destruct (universe_node node Hin) as [_ Hdeps].
    pose proof (unvisited_enter nodeId st HU Hfresh) as Hlt.
    destruct (visitDeps_total _ fuel (dfs_basic spec fuel) IH
                (default [] (depends node)) path (enter nodeId st) Hdeps)
      as [[b s1] Hloop]; [lia|].
    rewrite Hloop. by destruct b.
Qed.

Lemma visitAll_total (ns : list SpecNode) :
  forall st,
    (forall n, n ∈ ns -> n ∈ nodes spec) ->
    is_Some (visitAll spec (S (size (universe spec))) ns st).
Proof.
  induction ns as [|n ns IH]; intros st Hns; cbn [visitAll]; [done|].
  assert (Hrest : forall m, m ∈ ns -> m ∈ nodes spec)
    by (intros m Hm; apply Hns; by right).
  case_bool_decide as Hvis; cbn [negb]; [by apply IH|].
  destruct (universe_node n) as [HU _]; [apply Hns; by left|].
  assert (Hb : (unvisited spec st <= S (size (universe spec)))%nat).
  { unfold unvisited.
    assert (size (universe spec ∖ visited st) <= size (universe spec))%nat
      by (apply subseteq_size; set_solver).
    lia. }
  destruct (dfs_total _ (id n) [id n] st HU Hvis Hb) as [[b s1] Hcall].
  rewrite Hcall. by apply IH.
Qed.

(** [detectCycles] returns a result for every specification. *)
Lemma detectCycles_total : exists result, detectCycles spec = Some result.
Proof.
  unfold detectCycles.
  destruct (visitAll_total (nodes spec) initial) as [st Hst]; [done|].
  rewrite Hst. eauto.
Qed.

End CycleTermination.

Section CycleRelations.

Import Cycles.

Variable spec : WorkflowSpec.

(** What the traversal follows is a dependency of the specification. *)
Lemma follows_depends_on (a b : string) :
  follows spec a b -> depends_on spec a b.
Proof.
  intros (node & Hfind & Hb).
  destruct (findNode_In spec _ _ Hfind) as [Hin Hid]. by exists node.
Qed.

Lemma find_unique (l : list SpecNode) (node : SpecNode) :
  NoDup (List.map id l) -> node ∈ l ->
  List.find (fun n => String.eqb (id n) (id node)) l = Some node.
Proof.
  induction l as [|n l IH]; intros Hnd Hin; [by apply elem_of_nil in Hin|].
  cbn [List.map] in Hnd. apply NoDup_cons in Hnd as [Hn Hnd]. cbn [List.find].
  destruct (String.eqb_spec (id n) (id node)) as [Heq|Hne].
  - apply elem_of_cons in Hin as [->|Hin]; [done|].
    destruct Hn. rewrite Heq. apply list_elem_of_In, in_map.
    by apply list_elem_of_In.
  - apply elem_of_cons in Hin as [->|Hin]; [done|]. by apply IH.
Qed.

(** With unique ids the traversal sees every dependency. *)
Lemma depends_on_follows (a b : string) :
  uniqueIds spec = true -> depends_on spec a b -> follows spec a b.
Proof.
  intros Hu (node & Hin & <- & Hb). exists node. split; [|done].
  apply find_unique; [|done]. by apply bool_decide_eq_true in Hu.
Qed.

Lemma tc_follows_depends_on (x y : string) :
  tc (follows spec) x y -> tc (depends_on spec) x y.
Proof.
  induction 1 as [x y H|x y z H _ IH].
  - apply tc_once. by apply follows_depends_on.
  - eapply tc_l; [|exact IH]. by apply follows_depends_on.
Qed.

Lemma tc_depends_on_follows (x y : string) :
  uniqueIds spec = true -> tc (depends_on spec) x y -> tc (follows spec) x y.
Proof.
  intros Hu. induction 1 as [x y H|x y z H _ IH].
  - apply tc_once. by apply depends_on_follows.
  - eapply tc_l; [|exact IH]. by apply depends_on_follows.
Qed.

(** When every listed dependency is declared, what a node depends on is the
    id of a node. *)
Lemma declared_dependency (a d : string) :
  declared spec = true -> depends_on spec a d -> findNode spec d <> None.
Proof.
  intros Hdecl (node & Hin & _ & Hd). unfold declared in Hdecl.
  rewrite forallb_forall in Hdecl.
  specialize (Hdecl node (proj1 (list_elem_of_In _ _) Hin)).
  rewrite forallb_forall in Hdecl.
  specialize (Hdecl d (proj1 (list_elem_of_In _ _) Hd)).
  apply bool_decide_eq_true in Hdecl as [n Hn]. by rewrite Hn.
Qed.

(** *** Walks along the dependencies *)

Lemma walk_snoc (path : list string) (n d : string) :
  walk spec path -> last path = Some n -> depends_on spec n d ->
  walk spec (path ++ [d]).
Proof.
  induction path as [|a [|b r] IH]; intros Hwalk Hlast Hdep.
  - done.
  - injection Hlast as ->. by split.
  - destruct Hwalk as [Hab Hwalk]. split; [done|]. by apply IH.
Qed.

Lemma walk_app_r (l1 l2 : list string) :
  walk spec (l1 ++ l2) -> walk spec l2.
Proof.
  induction l1 as [|a l1 IH]; [done|].
  intros H. cbn [app] in H.
  destruct (l1 ++ l2)%list as [|b rest] eqn:E; [by apply IH|].
  apply IH. by destruct H.
Qed.

End CycleRelations.

(** *** The first reported path closes a cycle *)

Section CyclePaths.

Import Cycles.

Variable spec : WorkflowSpec.

Hypothesis all_declared : declared spec = true.

Implicit Types (st : DfsState) (x nodeId : string) (path deps : list string).

Lemma visitDeps_path recur n deps :
  (forall d path st b st',
     recur d path st = Some (b, st') -> path_pre spec d path st ->
     path_post spec st b st') ->
  forall path st b st',
    visitDeps recur path deps st = Some (b, st') ->
    (forall d, d ∈ deps -> depends_on spec n d) ->
    found st = [] -> walk spec path -> last path = Some n ->
    (forall x, x ∈ recursionStack st <-> x ∈ path) ->
    recursionStack st ⊆ visited st ->
    path_post spec st b st'.
Proof.
  intros Hrec.
  induction deps as [|d deps IH];
    intros path st b st' Hrun Hdeps Hfound Hwalk Hlast Hstack Hsub;
    cbn [visitDeps] in Hrun.
  { injection Hrun as <- <-. by split. }
  assert (depends_on spec n d) as Hnd by (apply Hdeps; by left).
  assert (forall d', d' ∈ deps -> depends_on spec n d') as Hrest
    by (intros d' Hd'; apply Hdeps; by right).
  case_bool_decide as Hvis; cbn [negb] in Hrun.
  - case_bool_decide as Hon.
    + injection Hrun as <- <-. split; [done|].
      exists (path ++ [d])%list. split.
      { unfold report; cbn [found]. by rewrite Hfound. }
      split; [by eapply walk_snoc|].
      apply Hstack in Hon. apply list_elem_of_split in Hon as (pre & mid & ->).
      exists pre, d, mid. by rewrite <- app_assoc.
    + by apply (IH _ _ _ _ Hrun).
  - destruct (recur d (path ++ [d])%list st) as [[[] s1]|] eqn:Hcall;
      [| |done].
    + injection Hrun as <- <-. apply (Hrec _ _ _ _ _ Hcall).
      split; [done|]. split; [by eapply declared_dependency|].
      split; [done|]. split; [by eapply walk_snoc|].
      split; [by exists path|done].
    + destruct (Hrec _ _ _ _ _ Hcall) as (Hv1 & Hf1 & Hs1).
      { split; [done|]. split; [by eapply declared_dependency|].
        split; [done|]. split; [by eapply walk_snoc|].
        split; [by exists path|done]. }
      destruct (IH _ _ _ _ Hrun Hrest Hf1 Hwalk Hlast) as (Hv & Hpost).
      * intros x. rewrite Hs1. apply Hstack.
      * rewrite Hs1. set_solver.
      * split; [set_solver|]. destruct b; [done|].
        destruct Hpost as [? ?]. split; [done|]. congruence.
Qed.

Lemma dfs_path fuel :
  forall nodeId path st b st',
    dfs spec fuel nodeId path st = Some (b, st') -> path_pre spec nodeId path st ->
    path_post spec st b st'.
Proof.
  induction fuel as [|fuel IH];
    intros nodeId path st b st' Hrun
      (Hfresh & Hdecl & Hfound & Hwalk & (init & -> & Hstack) & Hsub);
    cbn [dfs] in Hrun; [done|].
  destruct (findNode spec nodeId) as [node|] eqn:Hfind; [|done].
  destruct (findNode_In spec _ _ Hfind) as [Hin Hid].
  destruct (visitDeps (dfs spec fuel) (init ++ [nodeId])
              (default [] (depends node)) (enter nodeId st))
    as [[b1 s1]|] eqn:Hloop; [|done].
  destruct (visitDeps_path _ nodeId _ IH _ _ _ _ Hloop) as (Hv1 & Hpost).
  - intros d Hd. by exists node.
  - done.
  - done.
  - apply last_snoc.
  - intros x. unfold enter; cbn [recursionStack].
    rewrite elem_of_union, elem_of_singleton, elem_of_app, list_elem_of_singleton.
    rewrite Hstack. tauto.
  - unfold enter; cbn. set_solver.
  - unfold enter in Hv1; cbn in Hv1.
    destruct b1; injection Hrun as <- <-.
    + split; [set_solver|done].
    + destruct Hpost as [Hf1 Hs1]. split; [unfold leave; cbn; set_solver|].
      split; [done|]. unfold leave, enter in *; cbn in *. rewrite Hs1.
      set_solver.
Qed.

(** Errors are only ever appended. *)
Lemma visitDeps_appends recur deps :
  (forall d path st b st',
     recur d path st = Some (b, st') ->
     exists extra, found st' = (found st ++ extra)%list) ->
  forall path st b st',
    visitDeps recur path deps st = Some (b, st') ->
    exists extra, found st' = (found st ++ extra)%list.
Proof.
  intros Hrec.
  induction deps as [|d deps IH]; intros path st b st' Hrun;
    cbn [visitDeps] in Hrun.
  { injection Hrun as <- <-. exists []. by rewrite app_nil_r. }
  case_bool_decide as Hvis; cbn [negb] in Hrun.
  - case_bool_decide as Hon; [|by eapply IH].
    injection Hrun as <- <-. by eexists.
  - destruct (recur d (path ++ [d])%list st) as [[[] s1]|] eqn:Hcall;
      [| |done].
    + injection Hrun as <- <-. by eapply Hrec.
    + destruct (Hrec _ _ _ _ _ Hcall) as [e1 He1].
      destruct (IH _ _ _ _ Hrun) as [e2 He2].
      exists (e1 ++ e2)%list. by rewrite He2, He1, app_assoc.
Qed.

Lemma dfs_appends fuel :
  forall nodeId path st b st',
    dfs spec fuel nodeId path st = Some (b, st') ->
    exists extra, found st' = (found st ++ extra)%list.
Proof.
  induction fuel as [|fuel IH]; intros nodeId path st b st' Hrun;
    cbn [dfs] in Hrun; [done|].
  destruct (findNode spec nodeId) as [node|].
  - destruct (visitDeps (dfs spec fuel) path (default [] (depends node))
                (enter nodeId st)) as [[[] s1]|] eqn:Hloop; [| |done];
      injection Hrun as <- <-;
      destruct (visitDeps_appends _ _ IH _ _ _ _ Hloop) as [e He];
      by exists e.
  - injection Hrun as <- <-. exists []. by rewrite app_nil_r.
Qed.

Lemma visitAll_appends fuel (ns : list SpecNode) :
  forall st st',
    visitAll spec fuel ns st = Some st' ->
    exists extra, found st' = (found st ++ extra)%list.
Proof.
  induction ns as [|n ns IH]; intros st st' Hrun; cbn [visitAll] in Hrun.
  { injection Hrun as <-. exists []. by rewrite app_nil_r. }
  case_bool_decide as Hvis; cbn [negb] in Hrun; [by apply IH|].
  destruct (dfs spec fuel (id n) [id n] st) as [[b s1]|] eqn:Hcall; [|done].
  destruct (dfs_appends _ _ _ _ _ _ Hcall) as [e1 He1].
  destruct (IH _ _ Hrun) as [e2 He2].
  exists (e1 ++ e2)%list. by rewrite He2, He1, app_assoc.
Qed.

Lemma visitAll_path fuel (ns : list SpecNode) :
  forall st st',
    visitAll spec fuel ns st = Some st' ->
    (forall n, n ∈ ns -> n ∈ nodes spec) ->
    found st = [] -> recursionStack st = ∅ ->
    found st' = []
    \/ exists path rest,
         found st' = cycleMessage path :: rest /\ closes_cycle spec path.
Proof.
  induction ns as [|n ns IH]; intros st st' Hrun Hns Hfound Hstack;
    cbn [visitAll] in Hrun.
  { injection Hrun as <-. by left. }
  assert (forall m, m ∈ ns -> m ∈ nodes spec) as Hrest
    by (intros m Hm; apply Hns; by right).
  case_bool_decide as Hvis; cbn [negb] in Hrun; [by apply (IH _ _ Hrun)|].
  destruct (dfs spec fuel (id n) [id n] st) as [[b s1]|] eqn:Hcall; [|done].
  destruct (dfs_path _ _ _ _ _ _ Hcall) as (_ & Hpost).
  { split; [done|]. split; [apply findNode_node; apply Hns; by left|].
    split; [done|]. split; [done|].
    split; [|rewrite Hstack; set_solver].
    exists []. split; [done|]. intros x. rewrite Hstack. set_solver. }
  destruct b.
  - destruct Hpost as (path & Hf1 & Hclose).
    destruct (visitAll_appends _ _ _ _ Hrun) as [extra Hextra].
    right. exists path, extra. split; [|done]. by rewrite Hextra, Hf1.
  - destruct Hpost as [Hf1 Hs1]. apply (IH _ _ Hrun Hrest Hf1). congruence.
Qed.

(** The first error [detectCycles] reports names a path that closes a
    cycle. *)
Lemma detectCycles_first_error (result : ValidationResult)
    (first : string) (rest : list string) :
  detectCycles spec = Some result -> errors result = first :: rest ->
  exists path, first = cycleMessage path /\ closes_cycle spec path.
Proof.
  unfold detectCycles.
  destruct (visitAll spec (S (size (universe spec))) (nodes spec) initial)
    as [st|] eqn:Hrun; [|done].
  intros [= <-]. cbn [errors]. intros Hfirst.
  destruct (visitAll_path _ _ _ _ Hrun) as [Hnil|(path & more & Hf & Hclose)];
    try done.
  - congruence.
  - rewrite Hf in Hfirst. injection Hfirst as <- <-. by exists path.
Qed.

End CyclePaths.

Section CycleClaims.

Import Cycles.

(** The three nodes of a cycle are trapped. *)
Lemma cycle_trapped (spec : WorkflowSpec) (a b c : string) :
  uniqueIds spec = true -> contains_cycle spec a b c ->
  forall x, (x = a \/ x = b \/ x = c) ->
    exists y, (y = a \/ y = b \/ y = c) /\ follows spec x y.
Proof.
  intros Hu (Hab & Hbc & Hca) x Hx. unfold edge in *.
  apply (depends_on_follows spec _ _ Hu) in Hab, Hbc, Hca.
  destruct Hx as [-> | [-> | ->]]; eauto 6.
Qed.

Lemma cycleBehindZ_contains : contains_cycle cycleBehindZ "A" "B" "C".
Proof.
  split; [|split].
  - exists {| id := "B"; depends := Some ["Z"; "A"] |}.
    split; [|split; [done|]]; cbn; set_solver.
  - exists {| id := "C"; depends := Some ["Z"; "B"] |}.
    split; [|split; [done|]]; cbn; set_solver.
  - exists {| id := "A"; depends := Some ["Z"; "C"] |}.
    split; [|split; [done|]]; cbn; set_solver.
Qed.

(** C2 as stated fails.  The specification [cycleBehindZ] has unique ids,
    declares every dependency and contains the cycle, yet none of the errors
    [detectCycles] reports mentions A, B and C together: the traversal from
    each of them ends at the self-dependent Z.  On the cycle fixture itself
    the path follows the [depends] lists, against the arrows, and is not
    A, B, C, A.  And [validateYAML] accepts the cycle fixture. *)
Lemma C2_cycle_path_counterexample :
  (uniqueIds cycleBehindZ = true /\ declared cycleBehindZ = true
   /\ contains_cycle cycleBehindZ "A" "B" "C")
  /\ detectCycles cycleBehindZ
     = Some {| valid := false;
               errors := ["Circular dependency detected: A → Z → Z";
                          "Circular dependency detected: B → Z";
                          "Circular dependency detected: C → Z"];
               warnings := [] |}
  /\ (forall result message,
        detectCycles cycleBehindZ = Some result ->
        message ∈ errors result ->
        mentions_all ["A"; "B"; "C"] message = false)
  /\ detectCycles cycleABC
     <> Some {| valid := false;
                errors := ["Circular dependency detected: A → B → C → A"];
                warnings := [] |}
  /\ Validate.validateYAML Validate.cycleYaml = Template.Ok tt.
Proof.
  split; [split; [reflexivity|split; [reflexivity|exact cycleBehindZ_contains]]|].
  split; [vm_compute; reflexivity|].
  split; [|split; [by vm_compute|reflexivity]].
  intros result message Hrun Hin.
  assert (Hres : detectCycles cycleBehindZ
                 = Some {| valid := false;
                           errors := ["Circular dependency detected: A → Z → Z";
                                      "Circular dependency detected: B → Z";
                                      "Circular dependency detected: C → Z"];
                           warnings := [] |}) by (vm_compute; reflexivity).
  rewrite Hres in Hrun. injection Hrun as <-. cbn [errors] in Hin.
  repeat (apply elem_of_cons in Hin as [->|Hin]; [reflexivity|]).
  by apply elem_of_nil in Hin.
Qed.

(** C2, amended.  [detectCycles], the depth-first traversal with a recursion
    stack, rejects every specification with unique node ids that contains a
    cycle a → b, b → c, c → a: it returns a result, the result is invalid and
    carries an error.  The traversal is started at every node not yet
    visited, so the cycle is caught also when it cannot be reached from the
    first node.  When every listed dependency is a declared node, the first
    error holds the full path of a cycle in traversal order: the path walks
    along the [depends] lists, each id depending on the next, from the node
    the traversal started at to a node [d] and on, around a cycle, back to
    [d].  That cycle need not be the cycle a, b, c.  On the cycle fixture,
    also next to an unrelated first node, the one error is the path
    A, C, B, A: the cycle in traversal order, against the arrows. *)
Theorem C2_cycle_fails_validation (spec : WorkflowSpec) (a b c : string) :
  uniqueIds spec = true ->
  contains_cycle spec a b c ->
  (exists result first rest,
      detectCycles spec = Some result
      /\ valid result = false
      /\ errors result = first :: rest
      /\ (declared spec = true ->
          exists pre d mid,
            first = cycleMessage (pre ++ d :: mid ++ [d])
            /\ walk spec (pre ++ d :: mid ++ [d])
            /\ walk spec (d :: mid ++ [d])))
  /\ detectCycles cycleABC
     = Some {| valid := false;
               errors := ["Circular dependency detected: A → C → B → A"];
               warnings := [] |}
  /\ detectCycles cycleApart
     = Some {| valid := false;
               errors := ["Circular dependency detected: A → C → B → A"];
               warnings := [] |}.
Proof.
  intros Hu Hcycle. split; [|split; vm_compute; reflexivity].
  destruct (detectCycles_total spec) as [result Hrun].
  destruct (detectCycles_trapped spec (fun x => x = a \/ x = b \/ x = c)
              (cycle_trapped spec a b c Hu Hcycle) a result) as [Hinvalid Herrors];
    [auto|done|].
  destruct (errors result) as [|first rest] eqn:Hfirst; [done|].
  exists result, first, rest.
  split; [done|]. split; [done|]. split; [done|].
  intros Hdecl.
  destruct (detectCycles_first_error spec Hdecl result first rest Hrun Hfirst)
    as (path & -> & Hwalk & pre & d & mid & ->).
  exists pre, d, mid. split; [done|]. split; [done|].
  by apply (walk_app_r spec pre).
Qed.

Lemma C2_cycle_fails_validation_witness :
  exists result first rest pre d mid,
    detectCycles cycleBehindZ = Some result
    /\ valid result = false
    /\ errors result = first :: rest
    /\ first = cycleMessage (pre ++ d :: mid ++ [d])
    /\ walk cycleBehindZ (d :: mid ++ [d]).
Proof.
  destruct (proj1 (C2_cycle_fails_validation cycleBehindZ "A" "B" "C" eq_refl
                     cycleBehindZ_contains))
    as (result & first & rest & Hrun & Hvalid & Herrors & Hpath).
  destruct (Hpath eq_refl) as (pre & d & mid & Hfirst & _ & Hwalk).
  by exists result, first, rest, pre, d, mid.
Defined.

End CycleClaims.

(** ** Dialogue orchestration *)

Section DialogueProperties.

Import Template Dialogue.

Variable resolve : string -> value -> result string.
Variable getAgent : string -> option Agent.
Variable callAgent : nat -> string -> string -> result value.
Variable JSON_stringify : value -> string.
Variable uuidv4 : nat -> string.
Variable clock : nat -> Z.
Variable addCost : string -> value -> string.

Local Abbreviation turn_ := (executeTurn resolve callAgent JSON_stringify uuidv4 clock).
Local Abbreviation seq_ := (sequentialLoop resolve callAgent JSON_stringify uuidv4 clock).
Local Abbreviation rr_ := (roundRobinLoop resolve callAgent JSON_stringify uuidv4 clock).
Local Abbreviation dyn_ := (dynamicLoop resolve callAgent JSON_stringify uuidv4 clock).
Local Abbreviation mode_ := (runMode resolve callAgent JSON_stringify uuidv4 clock).
Local Abbreviation dialogue_ :=
  (executeDialogue resolve getAgent callAgent JSON_stringify uuidv4 clock addCost).

Implicit Types (d : DialogueConfig) (ctx : DialogueContext)
  (w : list (string * value)) (turn : DialogueTurn).

(** *** Reading the condition context *)

Lemma assoc_obj_set_same {A} (key : string) (v : A) (fields : list (string * A)) :
  assoc key (obj_set key v fields) = Some v.
Proof.
  induction fields as [|[k x] fields IH]; cbn [obj_set assoc].
  - by rewrite String.eqb_refl.
  - destruct (String.eqb_spec k key) as [->|Hne]; cbn [assoc].
    + by rewrite String.eqb_refl.
    + destruct (String.eqb_spec k key); [contradiction|exact IH].
Qed.

Lemma assoc_obj_set_other {A} (key other : string) (v : A)
    (fields : list (string * A)) :
  other <> key -> assoc other (obj_set key v fields) = assoc other fields.
Proof.
  intros Hne. induction fields as [|[k x] fields IH]; cbn [obj_set assoc].
  - destruct (String.eqb_spec key other); [congruence|reflexivity].
  - destruct (String.eqb_spec k key) as [->|Hk]; cbn [assoc].
    + destruct (String.eqb_spec key other); [congruence|reflexivity].
    + destruct (String.eqb_spec k other); [reflexivity|exact IH].
Qed.


(** *** The end-condition check *)



(** *** One turn *)

(** The three ways a turn can go: the speaker is no participant and nothing
    happens; the turn throws before anything is recorded; or exactly one
    result and one line are recorded. *)
Lemma executeTurn_cases turn w ctx :
  match assoc (speaker turn) (c_participants ctx) with
  | None => turn_ turn w ctx = (Ok tt, ctx)
  | Some agent =>
      (exists msg, turn_ turn w ctx = (Throw msg, ctx))
      \/ exists t outcome,
           turn_ turn w ctx
           = (outcome,
              appended ctx t
                (getSpeakerName (speaker turn) ++ ": " ++ toString (response t)))
           /\ t_speaker t = speaker turn
           /\ (outcome = Ok tt \/ is_nullish (response t) = true)
  end.
Proof.
  unfold executeTurn, bind, getContext, ret, throw, recordTurn.
  destruct (assoc (speaker turn) (c_participants ctx)) as [agent|]; [|reflexivity].
  destruct (resolve (prompt turn) (turnContext ctx w)) as [resolvedPrompt|msg];
    [|left; eauto].
  destruct (negb (Js.truthy_str (endpointUrl agent))); [left; eauto|].
  destruct (callAgent _ _ _) as [res|msg]; [|left; eauto].
  destruct (extractResponse JSON_stringify res) as [resp|msg]; [|left; eauto].
  right.
  exists {| turnId := uuidv4 (length (c_turns ctx)); t_speaker := speaker turn;
            t_prompt := resolvedPrompt; response := resp;
            timestamp := clock (length (c_turns ctx));
            cost := extractCost res |}.
  cbn [response t_speaker].
  destruct (is_nullish resp) eqn:E; eexists; (split; [reflexivity|]); auto.
Qed.



(** *** The three loops *)

(** A property of the context that every turn keeps, together with a
    property of outcomes that every turn meets, carries over to the loops. *)
Section LoopInvariant.

Variable Inv : DialogueContext -> Prop.
Variable Good : result unit -> Prop.
Variable w : list (string * value).
Hypothesis Good_ok : Good (Ok tt).
Hypothesis turn_keeps :
  forall turn ctx, Inv ctx -> Inv (turn_ turn w ctx).2 /\ Good (turn_ turn w ctx).1.

Lemma sequentialLoop_keeps d (remaining : list DialogueTurn) :
  forall ctx, Inv ctx ->
    Inv (seq_ d remaining w ctx).2 /\ Good (seq_ d remaining w ctx).1.
Proof.
  induction remaining as [|turn rest IH]; intros ctx Hctx;
    cbn [sequentialLoop]; unfold bind, getContext, ret; [by split|].
  destruct (endConditionMet resolve d ctx w); [by split|].
  destruct (turn_keeps turn ctx Hctx) as [Hinv Hgood].
  destruct (turn_ turn w ctx) as [[[]|msg] ctx']; cbn [fst snd] in *.
  - by apply IH.
  - by split.
Qed.

Lemma roundRobinLoop_keeps d (count : nat) :
  forall currentIndex ctx, Inv ctx ->
    Inv (rr_ d count currentIndex w ctx).2
    /\ Good (rr_ d count currentIndex w ctx).1.
Proof.
  induction count as [|count IH]; intros currentIndex ctx Hctx;
    cbn [roundRobinLoop]; unfold bind, getContext, ret; [by split|].
  destruct (endConditionMet resolve d ctx w); [by split|].
  destruct (Js.truthy_str (speakerAt (participants d) currentIndex));
    [|by apply IH].
  match goal with
  | |- context [turn_ ?t w ctx] =>
      destruct (turn_keeps t ctx Hctx) as [Hinv Hgood];
      destruct (turn_ t w ctx) as [[[]|msg] ctx']
  end; cbn [fst snd] in *.
  - by apply IH.
  - by split.
Qed.

Lemma dynamicLoop_keeps d (count : nat) :
  forall ctx, Inv ctx ->
    Inv (dyn_ d count w ctx).2 /\ Good (dyn_ d count w ctx).1.
Proof.
  induction count as [|count IH]; intros ctx Hctx;
    cbn [dynamicLoop]; unfold bind, getContext, ret; [by split|].
  destruct (endConditionMet resolve d ctx w); [by split|].
  destruct (String.eqb (selectNextSpeaker (participants d) ctx) EmptyString);
    [by split|].
  match goal with
  | |- context [turn_ ?t w ctx] =>
      destruct (turn_keeps t ctx Hctx) as [Hinv Hgood];
      destruct (turn_ t w ctx) as [[[]|msg] ctx']
  end; cbn [fst snd] in *.
  - by apply IH.
  - by split.
Qed.

Lemma runMode_keeps d (maxTurns : Z) ctx :
  Inv ctx ->
  Inv (mode_ d w maxTurns ctx).2 /\ Good (mode_ d w maxTurns ctx).1.
Proof.
  intros Hctx. unfold runMode, executeSequentialDialogue,
    executeRoundRobinDialogue, executeDynamicDialogue.
  destruct (String.eqb (mode d) "sequential"); [by apply sequentialLoop_keeps|].
  destruct (String.eqb (mode d) "round-robin"); [by apply roundRobinLoop_keeps|].
  destruct (String.eqb (mode d) "dynamic"); [by apply dynamicLoop_keeps|].
  by split.
Qed.

End LoopInvariant.

(** *** The claims *)





End DialogueProperties.

Section DialogueWitnesses.

Import Template Dialogue.



End DialogueWitnesses.

(** ** Tick gate: recording ticks, polling, waiting *)

Section TickRounds.

Import Tick.

Implicit Types (tm : TickManager) (cfg : AgentTickConfig) (agentId : string).

Lemma getTickCount_recordTick_same tm now agentId :
  getTickCount (recordTick tm now agentId) agentId = getTickCount tm agentId + 1.
Proof.
  unfold getTickCount at 1, recordTick; simpl. rewrite lookup_insert_eq; simpl.
  by destruct (Z.eqb_spec (getTickCount tm agentId + 1) 0).
Qed.

Lemma lastTickAt_recordTick_same tm now agentId :
  lastTickAt (recordTick tm now agentId) agentId = now.
Proof.
  unfold lastTickAt, recordTick; simpl. rewrite lookup_insert_eq; simpl.
  by destruct (Z.eqb_spec now 0).
Qed.

Lemma getTickCount_recordTick_other tm now agentId other :
  other <> agentId ->
  getTickCount (recordTick tm now agentId) other = getTickCount tm other.
Proof.
  intros Hne. unfold getTickCount, recordTick; simpl.
  by rewrite lookup_insert_ne.
Qed.

Lemma lastTickAt_recordTick_other tm now agentId other :
  other <> agentId ->
  lastTickAt (recordTick tm now agentId) other = lastTickAt tm other.
Proof.
  intros Hne. unfold lastTickAt, recordTick; simpl.
  by rewrite lookup_insert_ne.
Qed.

Lemma shouldExecute_true_spec tm now agentId cfg :
  shouldExecute tm now agentId cfg = true <->
  enabled cfg = false
  \/ (Js.num_or (intervalMs cfg) 1000 <= now - lastTickAt tm agentId
      /\ forall m, maxTicksPerRound cfg = Some m -> m <> 0 ->
                   getTickCount tm agentId < m).
Proof.
  destruct (shouldExecute tm now agentId cfg) eqn:E.
  - split; [intros _|done].
    destruct (enabled cfg) eqn:Hen; [right|by left].
    split.
    + destruct (Z.le_gt_cases (Js.num_or (intervalMs cfg) 1000)
                  (now - lastTickAt tm agentId)) as [|Hlt]; [done|].
      assert (shouldExecute tm now agentId cfg = false) as Hf; [|congruence].
      apply shouldExecute_false_spec. split; [done|]. left. lia.
    + intros m Hm Hm0.
      destruct (Z.lt_ge_cases (getTickCount tm agentId) m) as [|Hge]; [done|].
      assert (shouldExecute tm now agentId cfg = false) as Hf; [|congruence].
      apply shouldExecute_false_spec. split; [done|]. right.
      exists m. repeat split; [done..|lia].
  - apply shouldExecute_false_spec in E as [Hen Hcase].
    split; [discriminate|].
    intros [Hdis|[Hint Hmax]]; [congruence|].
    destruct Hcase as [?|(m & Hm & Hm0 & Hge)]; [lia|].
    specialize (Hmax m Hm Hm0). lia.
Qed.

(** X1.  [recordTick] stamps the instant and adds one to the actor's round
    counter.  From then on an enabled gate admits the actor exactly at the
    instants that lie at least one interval after the recorded one, and only
    while the incremented counter is below a non-zero [maxTicksPerRound]. *)
Theorem recordTick_then_shouldExecute tm now agentId cfg later :
  enabled cfg = true ->
  getTickCount (recordTick tm now agentId) agentId = getTickCount tm agentId + 1
  /\ lastTickAt (recordTick tm now agentId) agentId = now
  /\ (shouldExecute (recordTick tm now agentId) later agentId cfg = true <->
      Js.num_or (intervalMs cfg) 1000 <= later - now
      /\ forall m, maxTicksPerRound cfg = Some m -> m <> 0 ->
                   getTickCount tm agentId + 1 < m).
Proof.
  intros Hen.
  split; [apply getTickCount_recordTick_same|].
  split; [apply lastTickAt_recordTick_same|].
  rewrite shouldExecute_true_spec, getTickCount_recordTick_same,
    lastTickAt_recordTick_same.
  split; [intros [?|?]; [congruence|done]|by right].
Qed.

Lemma recordTick_then_shouldExecute_witness :
  shouldExecute (recordTick empty 10000 "agent-1") 14999 "agent-1" fiveSeconds
    = false
  /\ shouldExecute (recordTick empty 10000 "agent-1") 15000 "agent-1" fiveSeconds
    = true.
Proof.
  pose proof (recordTick_then_shouldExecute empty 10000 "agent-1" fiveSeconds
                14999 eq_refl) as (_ & _ & H1).
  pose proof (recordTick_then_shouldExecute empty 10000 "agent-1" fiveSeconds
                15000 eq_refl) as (_ & _ & H2).
  split.
  - destruct (shouldExecute _ 14999 _ _); [|done].
    destruct H1 as [H1 _]. specialize (H1 eq_refl) as [H1 _].
    vm_compute in H1. by destruct H1.
  - apply H2. split; [by vm_compute|].
    intros m [= <-] _. by vm_compute.
Defined.

(** X2.  The maps are keyed by actor: recording a tick for one actor changes
    neither the counter, nor the last tick time, nor any answer of the gate or
    of [getTimeUntilNextTick] for another actor. *)
Theorem recordTick_other_actor tm now agentId other :
  other <> agentId ->
  getTickCount (recordTick tm now agentId) other = getTickCount tm other
  /\ lastTickAt (recordTick tm now agentId) other = lastTickAt tm other
  /\ (forall t cfg,
        shouldExecute (recordTick tm now agentId) t other cfg
        = shouldExecute tm t other cfg)
  /\ (forall t cfg,
        getTimeUntilNextTick (recordTick tm now agentId) t other cfg
        = getTimeUntilNextTick tm t other cfg).
Proof.
  intros Hne.
  pose proof (getTickCount_recordTick_other tm now agentId other Hne) as Hc.
  pose proof (lastTickAt_recordTick_other tm now agentId other Hne) as Hl.
  split; [done|]. split; [done|]. split.
  - intros t cfg. by apply shouldExecute_ext.
  - intros t cfg. unfold getTimeUntilNextTick. by rewrite Hl.
Qed.

Lemma recordTick_other_actor_witness :
  getTickCount (recordTick busyManager 20000 "agent-2") "agent-1" = 3
  /\ shouldExecute (recordTick busyManager 20000 "agent-2") 10100 "agent-1"
       fiveSeconds = false.
Proof.
  assert ("agent-1" <> "agent-2") as Hne by discriminate.
  pose proof (recordTick_other_actor busyManager 20000 "agent-2" "agent-1" Hne)
    as (Hc & _ & Hs & _).
  split; [rewrite Hc|rewrite Hs]; by vm_compute.
Defined.

Lemma getTickCount_tickIfDue cfg agentId tm now m :
  enabled cfg = true -> maxTicksPerRound cfg = Some m -> 0 < m ->
  getTickCount tm agentId <= m ->
  getTickCount (tickIfDue cfg agentId tm now) agentId <= m.
Proof.
  intros Hen Hm Hpos Hle. unfold tickIfDue.
  destruct (shouldExecute tm now agentId cfg) eqn:E; [|done].
  rewrite getTickCount_recordTick_same.
  apply shouldExecute_true_spec in E as [?|[_ Hlt]]; [congruence|].
  specialize (Hlt m Hm). lia.
Qed.

Lemma getTickCount_poll cfg agentId times : forall tm m,
  enabled cfg = true -> maxTicksPerRound cfg = Some m -> 0 < m ->
  getTickCount tm agentId <= m ->
  getTickCount (poll cfg agentId tm times) agentId <= m.
Proof.
  induction times as [|t times IH]; intros tm m Hen Hm Hpos Hle; [done|].
  simpl. apply IH; [done..|]. by apply getTickCount_tickIfDue.
Qed.

Lemma poll_lower cfg agentId times : forall tm,
  getTickCount tm agentId <= getTickCount (poll cfg agentId tm times) agentId.
Proof.
  induction times as [|t times IH]; intros tm; [simpl; lia|].
  simpl. etransitivity; [|apply IH]. unfold tickIfDue.
  destruct (shouldExecute tm t agentId cfg); [|lia].
  rewrite getTickCount_recordTick_same. lia.
Qed.

(** X3.  The polling loop of the caller, [if (shouldExecute) recordTick], run
    over any instants after [resetRound], never records more ticks than a
    positive [maxTicksPerRound]: the round counter stays between 0 and the
    maximum, and once it has reached the maximum the gate stays shut at every
    instant until the next reset. *)
Theorem poll_respects_maxTicksPerRound cfg agentId tm times m :
  enabled cfg = true -> maxTicksPerRound cfg = Some m -> 0 < m ->
  let tm' := poll cfg agentId (resetRound tm agentId) times in
  0 <= getTickCount tm' agentId <= m
  /\ (getTickCount tm' agentId = m ->
      forall t more,
        shouldExecute tm' t agentId cfg = false
        /\ getTickCount (poll cfg agentId tm' more) agentId = m).
Proof.
  intros Hen Hm Hpos tm'. subst tm'.
  pose proof (getTickCount_resetRound_same tm agentId) as H0.
  split.
  - split.
    + rewrite <- H0 at 1. apply poll_lower.
    + apply getTickCount_poll; [done..|lia].
  - intros Hfull t more. split.
    + apply shouldExecute_false_spec. split; [done|]. right.
      exists m. repeat split; [done|lia|lia].
    + apply Z.le_antisymm.
      * apply getTickCount_poll; [done..|lia].
      * rewrite <- Hfull at 1. apply poll_lower.
Qed.

Lemma poll_respects_maxTicksPerRound_witness :
  0 <= getTickCount
         (poll fiveSeconds "agent-1" (resetRound busyManager "agent-1")
            [15000; 16000; 20000; 25000; 30000; 35000]) "agent-1" <= 3.
Proof.
  pose proof (poll_respects_maxTicksPerRound fiveSeconds "agent-1" busyManager
                [15000; 16000; 20000; 25000; 30000; 35000] 3
                eq_refl eq_refl eq_refl) as [Hrange _].
  exact Hrange.
Defined.

(** X4.  For an enabled configuration with a non-zero [intervalMs],
    [getTimeUntilNextTick] is the exact waiting time of the interval check:
    it is never negative, the gate rejects the actor at every instant before
    the wait is over, and from then on only an exhausted round budget can
    still reject it. *)
Theorem getTimeUntilNextTick_exact tm now agentId cfg i :
  enabled cfg = true -> intervalMs cfg = Some i -> i <> 0 ->
  let wait := getTimeUntilNextTick tm now agentId cfg in
  0 <= wait
  /\ (forall d, 0 <= d < wait ->
        shouldExecute tm (now + d) agentId cfg = false)
  /\ (forall d, 0 <= d -> wait <= d ->
        shouldExecute tm (now + d) agentId cfg = true
        \/ exists m, maxTicksPerRound cfg = Some m /\ m <> 0
                     /\ getTickCount tm agentId >= m).
Proof.
  intros Hen Hi Hi0 wait. subst wait.
  unfold getTimeUntilNextTick. rewrite Hen, Hi; simpl.
  destruct (Z.eqb_spec i 0) as [|_]; [done|]. simpl.
  assert (Js.num_or (intervalMs cfg) 1000 = i) as Hint.
  { rewrite Hi; simpl. by destruct (Z.eqb_spec i 0). }
  rewrite Z.geb_leb.
  destruct (Z.leb_spec i (now - lastTickAt tm agentId)) as [Hle|Hgt].
  - split; [lia|]. split; [lia|].
    intros d Hd _.
    destruct (shouldExecute tm (now + d) agentId cfg) eqn:E; [by left|].
    apply shouldExecute_false_spec in E as [_ [?|?]]; [lia|by right].
  - split; [lia|]. split.
    + intros d Hd. apply shouldExecute_false_spec. split; [done|]. left. lia.
    + intros d Hd Hw.
      destruct (shouldExecute tm (now + d) agentId cfg) eqn:E; [by left|].
      apply shouldExecute_false_spec in E as [_ [?|?]]; [lia|by right].
Qed.

Lemma getTimeUntilNextTick_exact_witness :
  getTimeUntilNextTick busyManager 10100 "agent-1" fiveSeconds = 4900
  /\ shouldExecute busyManager (10100 + 4899) "agent-1" fiveSeconds = false.
Proof.
  assert (5000 <> 0) as H5 by lia.
  pose proof (getTimeUntilNextTick_exact busyManager 10100 "agent-1"
                fiveSeconds 5000 eq_refl eq_refl H5) as (_ & Hbefore & _).
  split; [by vm_compute|]. apply Hbefore. by vm_compute.
Defined.

End TickRounds.

(** ** Validators and the YAML conversion *)

Section ParserProperties.

Import Template WorkflowParser.

Lemma pushIf_nil (c : bool) (m : string) (rest : list string) :
  (Tick.pushIf c m ++ rest = [])%list <-> c = false /\ rest = [].
Proof.
  destruct c; simpl; split; try done.
  - by intros [? _].
  - by intros [_ ->].
Qed.

Lemma checked_valid (errs : list string) :
  Tick.valid (Tick.checked errs) = true <-> errs = [].
Proof. by destruct errs. Qed.

Lemma defined_nonpositive_false (o : option Z) :
  Tick.defined_nonpositive o = false <-> forall n, o = Some n -> 0 < n.
Proof.
  destruct o as [n|]; simpl.
  - destruct (Z.leb_spec n 0) as [Hle|Hgt]; split; try done.
    + intros Hn. specialize (Hn n eq_refl). lia.
    + intros _ m [= <-]. lia.
  - split; [by intros _ n|done].
Qed.

Lemma validateTickConfig_valid (ticks : Tick.AgentTickConfig) :
  Tick.valid (Tick.validateTickConfig ticks) = true <->
  (Tick.enabled ticks = true ->
   (Js.truthy_num (Tick.intervalMs ticks) = true
    \/ Js.truthy_num (Tick.intervalSeconds ticks) = true
    \/ Js.truthy_num (Tick.intervalMinutes ticks) = true)
   /\ (forall n, Tick.intervalMs ticks = Some n -> 0 < n)
   /\ (forall n, Tick.intervalSeconds ticks = Some n -> 0 < n)
   /\ (forall n, Tick.intervalMinutes ticks = Some n -> 0 < n)
   /\ (forall n, Tick.maxTicksPerRound ticks = Some n -> 0 < n)).
Proof.
  unfold Tick.validateTickConfig. rewrite checked_valid.
  destruct (Tick.enabled ticks); [|by split].
  rewrite !pushIf_nil, !defined_nonpositive_false.
  assert (Tick.pushIf (Tick.defined_nonpositive (Tick.maxTicksPerRound ticks))
            "maxTicksPerRound must be positive" = []
          <-> forall n, Tick.maxTicksPerRound ticks = Some n -> 0 < n) as ->.
  { rewrite <- defined_nonpositive_false.
    by destruct (Tick.defined_nonpositive _). }
  split.
  - intros (H1 & H2 & H3 & H4 & H5) _. repeat split; try done.
    destruct (Js.truthy_num (Tick.intervalMs ticks)); [by left|].
    destruct (Js.truthy_num (Tick.intervalSeconds ticks)); [by right; left|].
    destruct (Js.truthy_num (Tick.intervalMinutes ticks)); [by right; right|].
    done.
  - intros H. destruct (H eq_refl) as (H1 & H2 & H3 & H4 & H5).
    repeat split; try done.
    destruct H1 as [-> | [-> | ->]]; simpl; by rewrite ?andb_false_r.
Qed.

(** X5.  A tick configuration that is enabled and passes
    [validateTickConfig] leaves [parseTickConfig] with a positive
    [intervalMs]: the given one, else the seconds times 1000, else the minutes
    times 60000.  So [shouldExecute] never falls back to its 1000 ms default
    for it, and its [maxTicksPerRound], when present, is positive and kept. *)
Theorem parseTickConfig_of_valid (ticks : Tick.AgentTickConfig) :
  Tick.enabled ticks = true ->
  Tick.valid (Tick.validateTickConfig ticks) = true ->
  let cfg := parseTickConfig ticks in
  (exists i, Tick.intervalMs cfg = Some i /\ 0 < i
             /\ Js.num_or (Tick.intervalMs cfg) 1000 = i
             /\ (i = Js.num_or (Tick.intervalMs ticks)
                       (Js.num_or (option_map (fun s => s * 1000)
                                     (Tick.intervalSeconds ticks))
                          (Js.num_or (Tick.intervalMinutes ticks) 0 * 60000))))
  /\ Tick.maxTicksPerRound cfg = Tick.maxTicksPerRound ticks
  /\ (forall m, Tick.maxTicksPerRound cfg = Some m -> 0 < m)
  /\ Tick.valid (Tick.validateTickConfig cfg) = true.
Proof.
  intros Hen Hvalid cfg.
  pose proof (proj1 (validateTickConfig_valid ticks) Hvalid Hen)
    as (Hsome & Hms & Hs & Hmin & Hmax).
  assert (Tick.maxTicksPerRound cfg = Tick.maxTicksPerRound ticks) as Hkeep.
  { subst cfg. unfold parseTickConfig.
    destruct (Js.truthy_num (Tick.intervalMs ticks)),
      (Js.truthy_num (Tick.intervalSeconds ticks)),
      (Js.truthy_num (Tick.intervalMinutes ticks)); simpl;
      unfold keepTruthy;
      (destruct (Tick.maxTicksPerRound ticks) as [m|] eqn:E; simpl; [|done];
       specialize (Hmax m eq_refl);
       by destruct (Z.eqb_spec m 0); [lia|]). }
  assert (exists i, Tick.intervalMs cfg = Some i /\ 0 < i
             /\ Js.num_or (Tick.intervalMs cfg) 1000 = i
             /\ (i = Js.num_or (Tick.intervalMs ticks)
                       (Js.num_or (option_map (fun s => s * 1000)
                                     (Tick.intervalSeconds ticks))
                          (Js.num_or (Tick.intervalMinutes ticks) 0 * 60000))))
    as Hint.
  { subst cfg. unfold parseTickConfig.
    destruct (Tick.intervalMs ticks) as [a|] eqn:Ea;
      [specialize (Hms a eq_refl)|]; simpl.
    { destruct (Z.eqb_spec a 0); [lia|]. simpl. exists a.
      destruct (Z.eqb_spec a 0); [lia|]. done. }
    destruct (Tick.intervalSeconds ticks) as [b|] eqn:Eb;
      [specialize (Hs b eq_refl)|]; simpl.
    { destruct (Z.eqb_spec b 0); [lia|]. simpl. exists (b * 1000).
      destruct (Z.eqb_spec (b * 1000) 0); [lia|].
      repeat split; try done; lia. }
    destruct (Tick.intervalMinutes ticks) as [c|] eqn:Ec;
      [specialize (Hmin c eq_refl)|]; simpl.
    { destruct (Z.eqb_spec c 0); [lia|]. simpl. exists (c * 60 * 1000).
      destruct (Z.eqb_spec (c * 60 * 1000) 0); [lia|].
      repeat split; try done; lia. }
    destruct Hsome as [?|[?|?]]; discriminate. }
  split; [done|]. split; [done|]. split.
  { intros m Hm. apply Hmax. by rewrite <- Hkeep. }
  apply validateTickConfig_valid. intros _.
  destruct Hint as (i & Hi & Hpos & _ & _).
  split.
  { left. rewrite Hi. simpl. by destruct (Z.eqb_spec i 0); [lia|]. }
  split.
  { intros n. rewrite Hi. intros [= <-]. done. }
  rewrite Hkeep. split; [|split; [|done]].
  - subst cfg. unfold parseTickConfig.
    destruct (Js.truthy_num (Tick.intervalMs ticks)); simpl; [done|].
    destruct (Js.truthy_num (Tick.intervalSeconds ticks)); simpl; [done|].
    destruct (Js.truthy_num (Tick.intervalMinutes ticks)); simpl; done.
  - subst cfg. unfold parseTickConfig.
    destruct (Js.truthy_num (Tick.intervalMs ticks)); simpl; [done|].
    destruct (Js.truthy_num (Tick.intervalSeconds ticks)); simpl; [done|].
    destruct (Js.truthy_num (Tick.intervalMinutes ticks)); simpl; done.
Qed.

Lemma parseTickConfig_of_valid_witness :
  Tick.intervalMs (parseTickConfig everyFiveSeconds) = Some 5000
  /\ Tick.maxTicksPerRound (parseTickConfig everyFiveSeconds) = Some 10.
Proof.
  pose proof (parseTickConfig_of_valid everyFiveSeconds eq_refl eq_refl)
    as ((i & Hi & _ & _ & Hval) & Hmax & _).
  split; [|exact Hmax].
  rewrite Hi, Hval. reflexivity.
Defined.

Lemma zoneOf_parseSchedule (s : Schedule.AgentSchedule) :
  Schedule.zoneOf (parseSchedule s) = Schedule.zoneOf s.
Proof.
  unfold Schedule.zoneOf at 1. simpl.
  unfold Schedule.zoneOf.
  destruct (Schedule.timezone s) as [tz|]; simpl; [|done].
  destruct (String.eqb_spec tz ""); simpl; [done|].
  by destruct (String.eqb_spec tz "").
Qed.

(** X6.  [parseSchedule] only fills in the default zone: the parsed schedule
    names the zone the scheduler would have used anyway, so the schedule gate,
    the waiting time and the verdict of [validateSchedule] are those of the
    schedule as written, and parsing twice changes nothing more. *)
Theorem parseSchedule_transparent (zone : string -> Z) (now : Z)
    (s : Schedule.AgentSchedule) :
  Schedule.timezone (parseSchedule s) = Some (Schedule.zoneOf s)
  /\ Schedule.isWithinSchedule zone now (parseSchedule s)
     = Schedule.isWithinSchedule zone now s
  /\ Schedule.getWaitTimeMs zone now (parseSchedule s)
     = Schedule.getWaitTimeMs zone now s
  /\ Schedule.validateSchedule (parseSchedule s) = Schedule.validateSchedule s
  /\ parseSchedule (parseSchedule s) = parseSchedule s.
Proof.
  assert (Schedule.isWithinSchedule zone now (parseSchedule s)
          = Schedule.isWithinSchedule zone now s) as Hwithin.
  { unfold Schedule.isWithinSchedule. by rewrite zoneOf_parseSchedule. }
  split; [done|]. split; [done|]. split.
  - unfold Schedule.getWaitTimeMs.
    by rewrite Hwithin, zoneOf_parseSchedule.
  - split; [done|].
    unfold parseSchedule at 1. rewrite zoneOf_parseSchedule. done.
Qed.

Lemma checkEdges_Ok_iff (ns : Validate.YamlNodes) (es : list Validate.YamlEdge) :
  Validate.checkEdges ns es = Ok tt <->
  Forall (fun e => Validate.nodeExists ns (Validate.from e) = true
                   /\ Validate.nodeExists ns (Validate.to e) = true) es.
Proof.
  induction es as [|e es IH]; simpl.
  - split; [constructor|done].
  - destruct (Validate.nodeExists ns (Validate.from e)) eqn:Hf; simpl.
    2:{ split; [done|]. intros H. inversion H as [|? ? [? _] _]. congruence. }
    destruct (Validate.nodeExists ns (Validate.to e)) eqn:Ht; simpl.
    2:{ split; [done|]. intros H. inversion H as [|? ? [_ ?] _]. congruence. }
    rewrite IH. split.
    + by constructor.
    + intros H. by inversion H.
Qed.

(** The documents [validateYAML] lets through. *)
Lemma validateYAML_Ok_spec (yaml : Validate.WorkflowYAMLSpec) :
  Validate.validateYAML yaml = Ok tt <->
  Js.truthy_str (Validate.name yaml) = true
  /\ Js.truthy_str (Validate.chain yaml) = true
  /\ Js.truthy_str (Validate.token yaml) = true
  /\ Js.truthy_str (Validate.maxBudget yaml) = true
  /\ Js.truthy_str (Validate.entryNode yaml) = true
  /\ exists ns,
       Validate.nodes yaml = Some ns
       /\ Validate.nodeCount ns <> 0%nat
       /\ Validate.nodeExists ns
            (default EmptyString (Validate.entryNode yaml)) = true
       /\ Forall (fun e =>
                    Validate.nodeExists ns (Validate.from e) = true
                    /\ Validate.nodeExists ns (Validate.to e) = true)
            (default [] (Validate.edges yaml)).
Proof.
  unfold Validate.validateYAML.
  destruct (Js.truthy_str (Validate.name yaml)); simpl.
  2:{ split; [done|]. by intros [? _]. }
  destruct (Js.truthy_str (Validate.chain yaml)); simpl.
  2:{ split; [done|]. by intros (_ & ? & _). }
  destruct (Js.truthy_str (Validate.token yaml)); simpl.
  2:{ split; [done|]. by intros (_ & _ & ? & _). }
  destruct (Js.truthy_str (Validate.maxBudget yaml)); simpl.
  2:{ split; [done|]. by intros (_ & _ & _ & ? & _). }
  destruct (Validate.nodes yaml) as [ns|].
  2:{ split; [done|]. by intros (_ & _ & _ & _ & _ & ns & ? & _). }
  destruct (Nat.eqb_spec (Validate.nodeCount ns) 0) as [H0|H0].
  { split; [done|].
    intros (_ & _ & _ & _ & _ & ns' & [= <-] & ? & _). done. }
  destruct (Js.truthy_str (Validate.entryNode yaml)); simpl.
  2:{ split; [done|]. by intros (_ & _ & _ & _ & ? & _). }
  destruct (Validate.nodeExists ns _) eqn:Hentry; simpl.
  2:{ split; [done|].
      intros (_ & _ & _ & _ & _ & ns' & [= <-] & _ & ? & _). congruence. }
  destruct (Validate.edges yaml) as [es|]; simpl.
  - rewrite checkEdges_Ok_iff. split.
    + intros H. repeat split; try done. by exists ns.
    + by intros (_ & _ & _ & _ & _ & ns' & [= <-] & _ & _ & ?).
  - split; [|done]. intros _. repeat split; try done.
    exists ns. repeat split; try done.
Qed.

Lemma assoc_is_Some {A} (key : string) (l : list (string * A)) :
  is_Some (assoc key l) <-> In key (List.map fst l).
Proof.
  induction l as [|[k v] l IH]; simpl.
  - split; [by intros [? ?]|done].
  - destruct (String.eqb_spec k key) as [->|Hne].
    + split; [by left|by eexists].
    + rewrite IH. split; [by right|]. by intros [?|?].
Qed.




(** [Object.entries] rearranges the entries and loses none. *)
Lemma In_insertIndexed {A} (n : Z) (entry : string * A)
    (sorted : list (Z * (string * A))) (x : Z * (string * A)) :
  In x (Js.insertIndexed n entry sorted) <-> x = (n, entry) \/ In x sorted.
Proof.
  induction sorted as [|[m other] rest IH]; cbn [Js.insertIndexed].
  - simpl. split; [intros [<-|[]]; by left|intros [->|[]]; by left].
  - destruct (n <? m); simpl in *; [by split; intros [<-|?]; auto|].
    rewrite IH. split.
    + intros [?|[?|?]]; auto.
    + intros [?|[?|?]]; auto.
Qed.

Lemma length_insertIndexed {A} (n : Z) (entry : string * A)
    (sorted : list (Z * (string * A))) :
  length (Js.insertIndexed n entry sorted) = S (length sorted).
Proof.
  induction sorted as [|[m other] rest IH]; cbn [Js.insertIndexed]; [done|].
  destruct (n <? m); simpl; [done|]. by rewrite IH.
Qed.

Lemma In_ownEntries {A} (l : list (string * A)) (e : string * A) :
  In e (Js.ownEntries l) <-> In e l.
Proof.
  unfold Js.ownEntries. rewrite in_app_iff, in_map_iff.
  induction l as [|entry rest IH];
    cbn [Js.indexedEntries Js.namedEntries].
  - simpl. split; [intros [(x & _ & [])|[]]|done].
  - destruct (Js.indexKey (fst entry)) as [n|].
    + split.
      * intros [(x & <- & Hx)|Hn].
        -- apply In_insertIndexed in Hx as [->|Hx]; [by left|].
           right. apply IH. left. by exists x.
        -- right. apply IH. by right.
      * intros [<-|He].
        -- left. exists (n, entry). split; [done|].
           apply In_insertIndexed. by left.
        -- apply IH in He as [(x & <- & Hx)|Hn]; [|by right].
           left. exists x. split; [done|]. apply In_insertIndexed. by right.
    + simpl. rewrite <- IH. tauto.
Qed.

Lemma length_ownEntries {A} (l : list (string * A)) :
  length (Js.ownEntries l) = length l.
Proof.
  unfold Js.ownEntries. rewrite length_app, length_map.
  induction l as [|entry rest IH];
    cbn [Js.indexedEntries Js.namedEntries]; [done|].
  destruct (Js.indexKey (fst entry)) as [n|]; simpl.
  - rewrite length_insertIndexed. simpl. by rewrite IH.
  - rewrite Nat.add_succ_r. by rewrite IH.
Qed.

Lemma ownEntries_named {A} (l : list (string * A)) :
  Forall (fun e => Js.indexKey (fst e) = None) l -> Js.ownEntries l = l.
Proof.
  intros Hnamed. unfold Js.ownEntries.
  assert (Js.indexedEntries l = [] /\ Js.namedEntries l = l) as [-> ->]; [|done].
  induction Hnamed as [|entry rest Hentry _ [IH1 IH2]];
    cbn [Js.indexedEntries Js.namedEntries]; [done|].
  rewrite Hentry. by rewrite IH1, IH2.
Qed.

(** The ids of the converted nodes are what [nodeExists] finds, apart from
    the inherited names of the object format. *)
Lemma nodeExists_validated (ns : DocNodes) (key : string) :
  Validate.nodeExists (validatedNodes ns) key = true
  <-> In key (List.map id (convertNodes ns))
      \/ (match ns with DocObject _ => true | DocArray _ => false end = true
          /\ Js.inherited key = true).
Proof.
  destruct ns as [l|l]; simpl.
  - rewrite existsb_exists, in_map_iff. split.
    + intros (n & Hin & Heq). left.
      apply in_map_iff in Hin as (e & <- & Hin).
      apply String.eqb_eq in Heq.
      exists (arrayNode e). split; [done|]. by apply in_map.
    + intros [(w & Hid & Hin)|[? _]]; [|done].
      apply in_map_iff in Hin as (e & <- & Hin).
      exists (core e). split; [by apply in_map|].
      apply String.eqb_eq. done.
  - rewrite orb_true_iff, bool_decide_eq_true, assoc_is_Some, !map_map.
    assert (In key (List.map (fun x : string * NodeEntry =>
                                fst (let '(k, n) := x in (k, core n))) l)
            <-> In key (List.map (fun x => id (objectNode x)) (Js.ownEntries l)))
      as ->.
    { rewrite !in_map_iff. split.
      - intros ([k n] & <- & He). exists (k, n). split; [done|].
        by apply In_ownEntries.
      - intros ([k n] & <- & He). exists (k, n). split; [done|].
        by apply In_ownEntries. }
    split.
    + intros [?|?]; [by left|by right].
    + intros [?|[_ ?]]; [by left|by right].
Qed.

Lemma length_convertNodes (ns : DocNodes) :
  length (convertNodes ns) = Validate.nodeCount (validatedNodes ns).
Proof.
  destruct ns as [l|l]; simpl; rewrite !length_map; [done|].
  apply length_ownEntries.
Qed.


(** X9.  A [WorkflowSpec] that [parse] returns has at least one node, as
    many as the document, and a non-empty name, chain, token and budget.  In
    the array format it is closed: its entry node and both ends of every edge
    are ids of its nodes.  In the object format it is closed only up to the
    property names every object inherits, which the validator takes for
    nodes: the document whose entry node is [constructor] is parsed into a
    specification whose entry node is none of its nodes.  In the object
    format the ids are the keys of [nodes] in the order [Object.entries]
    lists them: the array-index keys first, in ascending order, then the
    other keys in document order, so that keys b, 10, 2 give the nodes 2, 10,
    b; without array-index keys the nodes are in document order. *)
Theorem parse_result_is_closed (workflowId : string) (now : Z)
    (yaml : YamlDocument) (userId : string) (spec : WorkflowSpec) :
  parse workflowId now yaml userId = Ok spec ->
  let ids := List.map id (w_nodes spec) in
  let known key :=
    In key ids \/ (isObjectFormat yaml = true /\ Js.inherited key = true) in
  (ids <> []
   /\ (exists entry, w_entryNodeId spec = Some entry /\ known entry)
   /\ Forall (fun e => known (Validate.from e) /\ known (Validate.to e))
        (w_edges spec)
   /\ (forall entries, d_nodes yaml = Some (DocObject entries) ->
         ids = List.map fst (Js.ownEntries entries)
         /\ length ids = length entries
         /\ (forall key, In key ids <-> In key (List.map fst entries))
         /\ (Forall (fun e => Js.indexKey (fst e) = None) entries ->
             ids = List.map fst entries))
   /\ (forall nodes, d_nodes yaml = Some (DocArray nodes) ->
         length ids = length nodes
         /\ (exists entry, w_entryNodeId spec = Some entry /\ In entry ids)
         /\ Forall (fun e => In (Validate.from e) ids /\ In (Validate.to e) ids)
              (w_edges spec))
   /\ Js.truthy_str (w_name spec) = true
   /\ Js.truthy_str (w_chain spec) = true
   /\ Js.truthy_str (w_token spec) = true
   /\ Js.truthy_str (w_maxBudget spec) = true)
  /\ (exists open,
        parse workflowId now constructorDocument userId = Ok open
        /\ w_entryNodeId open = Some "constructor"
        /\ List.map id (w_nodes open) = ["a"]
        /\ List.map Validate.to (w_edges open) = ["toString"])
  /\ (exists numbered,
        parse workflowId now numberedDocument userId = Ok numbered
        /\ List.map id (w_nodes numbered) = ["2"; "10"; "b"]).
Proof.
  intros Hparse ids known.
  split; [|split; eexists; (split; [reflexivity|done])].
  revert Hparse. subst ids known.
  unfold parse, yamlToWorkflowSpec, isObjectFormat.
  destruct (Validate.validateYAML (validated yaml)) as [[]|msg] eqn:Hv; [|done].
  apply validateYAML_Ok_spec in Hv
    as (Hname & Hchain & Htoken & Hbudget & Hentry & ns & Hns & Hcount
        & Hexists & Hedges).
  simpl in *.
  destruct (d_nodes yaml) as [dn|]; [|done].
  injection Hns as <-.
  destruct (d_edges yaml) as [es|]; [|done].
  intros [= <-]; simpl.
  assert (forall key,
            Validate.nodeExists (validatedNodes dn) key = true ->
            In key (List.map id (convertNodes dn))
            \/ (match dn with DocObject _ => true | DocArray _ => false end = true
                /\ Js.inherited key = true)) as Hknown.
  { intros key. apply nodeExists_validated. }
  split.
  { intros Hnil. apply Hcount. rewrite <- length_convertNodes.
    apply (f_equal (@length _)) in Hnil. by rewrite length_map in Hnil. }
  split.
  { destruct (d_entryNode yaml) as [entry|]; [|done].
    exists entry. split; [done|]. by apply Hknown. }
  split.
  { eapply Forall_impl; [exact Hedges|].
    intros e [Hf Ht]. split; by apply Hknown. }
  split.
  { intros entries [= ->]. cbn [convertNodes]. rewrite map_map.
    assert (List.map (fun x => id (objectNode x)) (Js.ownEntries entries)
            = List.map fst (Js.ownEntries entries)) as ->.
    { apply map_ext. by intros [k n]. }
    split; [done|].
    split; [by rewrite length_map, length_ownEntries|].
    split.
    { intros key. rewrite !in_map_iff. split.
      - intros (e & <- & He). exists e. split; [done|]. by apply In_ownEntries.
      - intros (e & <- & He). exists e. split; [done|]. by apply In_ownEntries. }
    intros Hnamed. by rewrite ownEntries_named. }
  split; [|done].
  intros nodes [= ->]. simpl.
  split; [by rewrite !length_map|].
  split.
  { destruct (d_entryNode yaml) as [entry|]; [|done].
    exists entry. split; [done|].
    by destruct (Hknown _ Hexists) as [?|[? _]]. }
  eapply Forall_impl; [exact Hedges|].
  intros e [Hf Ht].
  split; [by destruct (Hknown _ Hf) as [?|[? _]]
         |by destruct (Hknown _ Ht) as [?|[? _]]].
Qed.

Lemma parse_result_is_closed_witness :
  exists spec,
    parse "wf_1" 0 (twoNodes (Some [edgeAB])) "user" = Ok spec
    /\ In "a" (List.map id (w_nodes spec))
    /\ Forall (fun e => In (Validate.from e) (List.map id (w_nodes spec))
                        /\ In (Validate.to e) (List.map id (w_nodes spec)))
         (w_edges spec).
Proof.
  eexists. split; [reflexivity|].
  pose proof (parse_result_is_closed "wf_1" 0 (twoNodes (Some [edgeAB])) "user"
                _ eq_refl)
    as [(_ & _ & _ & _ & Harray & _) _].
  destruct (Harray _ eq_refl) as (_ & (entry & Hentry & Hin) & Hedges).
  split; [|exact Hedges].
  injection Hentry as <-. exact Hin.
Defined.

End ParserProperties.

(** ** Schedule validation and the clock strings *)

Section ScheduleValidation.

Import Schedule.

(** A boolean property checked on every integer below [k]. *)
Lemma upTo_forallb (k : nat) (p : Z -> bool) :
  forallb p (upTo k) = true ->
  forall n, 0 <= n < Z.of_nat k -> p n = true.
Proof.
  intros Hall n Hn.
  eapply forallb_forall; [exact Hall|].
  unfold upTo. apply in_map_iff. exists (Z.to_nat n).
  split; [lia|]. apply in_seq. lia.
Qed.

Lemma getHours_range (t : Z) : 0 <= getHours t < 24.
Proof.
  unfold getHours, MS_PER_DAY, MS_PER_HOUR.
  pose proof (Z.mod_pos_bound t 86400000 eq_refl) as Hm.
  split.
  - apply Z.div_pos; lia.
  - apply Z.div_lt_upper_bound; lia.
Qed.

Lemma getMinutes_range (t : Z) : 0 <= getMinutes t < 60.
Proof.
  unfold getMinutes, MS_PER_HOUR, MS_PER_MINUTE.
  pose proof (Z.mod_pos_bound t 3600000 eq_refl) as Hm.
  split.
  - apply Z.div_pos; lia.
  - apply Z.div_lt_upper_bound; lia.
Qed.

Lemma minuteOfDay_range (t : Z) : 0 <= minuteOfDay t < 1440.
Proof.
  unfold minuteOfDay.
  pose proof (getHours_range t). pose proof (getMinutes_range t). lia.
Qed.

Lemma getHours_of_minute (h m : Z) :
  0 <= h < 24 -> 0 <= m < 60 ->
  getHours ((h * 60 + m) * MS_PER_MINUTE) = h
  /\ getMinutes ((h * 60 + m) * MS_PER_MINUTE) = m.
Proof.
  intros Hh Hm. unfold getHours, getMinutes, MS_PER_DAY, MS_PER_HOUR, MS_PER_MINUTE.
  split.
  - rewrite Z.mod_small by lia.
    symmetry. apply (Z.div_unique _ _ h (m * 60000)); lia.
  - replace ((h * 60 + m) * 60000 mod 3600000) with (m * 60000).
    + by rewrite Z.div_mul.
    + apply (Z.mod_unique _ _ h); lia.
Qed.

(** The clock string depends on the instant through its minute of the day. *)
Lemma getTimeString_minute (t : Z) :
  getTimeString t = timeOfMinute (minuteOfDay t).
Proof.
  unfold timeOfMinute, getTimeString, minuteOfDay.
  destruct (getHours_of_minute (getHours t) (getMinutes t)
              (getHours_range t) (getMinutes_range t)) as [-> ->].
  reflexivity.
Qed.

Lemma timeOfMinute_matches (n : Z) :
  0 <= n < 1440 -> timeRegex_test (timeOfMinute n) = true.
Proof.
  apply (upTo_forallb 1440 (fun n => timeRegex_test (timeOfMinute n))).
  vm_compute. reflexivity.
Qed.

Lemma minutesOf_timeOfMinute (n : Z) :
  0 <= n < 1440 -> minutesOf (timeOfMinute n) = Some n.
Proof.
  intros Hn.
  assert ((fun n => bool_decide (minutesOf (timeOfMinute n) = Some n)) n = true)
    as H.
  { revert n Hn. apply (upTo_forallb 1440). vm_compute. reflexivity. }
  by apply bool_decide_eq_true in H.
Qed.







Lemma in_class_spec (lo hi c : ascii) :
  in_class lo hi c = true <->
  (nat_of_ascii lo <= nat_of_ascii c <= nat_of_ascii hi)%nat.
Proof.
  unfold in_class. rewrite andb_true_iff, !Nat.leb_le. done.
Qed.

(** The character of a decimal digit. *)
Lemma digit_char (c : ascii) :
  (48 <= nat_of_ascii c)%nat ->
  c = ascii_of_nat (Z.to_nat (48 + Js.digit_val c)).
Proof.
  intros H. unfold Js.digit_val.
  replace (Z.to_nat (48 + (Z.of_nat (nat_of_ascii c) - 48)))
    with (nat_of_ascii c) by lia.
  by rewrite ascii_nat_embedding.
Qed.

Lemma digits_timeOfMinute (d1 d2 d3 d4 : Z) :
  0 <= d1 < 3 -> 0 <= d2 < 10 -> 0 <= d3 < 6 -> 0 <= d4 < 10 ->
  10 * d1 + d2 < 24 ->
  String (ascii_of_nat (Z.to_nat (48 + d1)))
    (String (ascii_of_nat (Z.to_nat (48 + d2)))
       (String ":"
          (String (ascii_of_nat (Z.to_nat (48 + d3)))
             (String (ascii_of_nat (Z.to_nat (48 + d4))) EmptyString))))
  = timeOfMinute ((10 * d1 + d2) * 60 + 10 * d3 + d4).
Proof.
  intros H1 H2 H3 H4 H24.
  pose (p := fun d1 d2 d3 d4 : Z =>
    implb (10 * d1 + d2 <? 24)
      (String.eqb
         (String (ascii_of_nat (Z.to_nat (48 + d1)))
            (String (ascii_of_nat (Z.to_nat (48 + d2)))
               (String ":"
                  (String (ascii_of_nat (Z.to_nat (48 + d3)))
                     (String (ascii_of_nat (Z.to_nat (48 + d4)))
                        EmptyString)))))
         (timeOfMinute ((10 * d1 + d2) * 60 + 10 * d3 + d4)))).
  assert (p d1 d2 d3 d4 = true) as H.
  { revert d4 H4. apply (upTo_forallb 10 (fun d4 => p d1 d2 d3 d4)).
    revert d3 H3.
    apply (upTo_forallb 6
             (fun d3 => forallb (fun d4 => p d1 d2 d3 d4) (upTo 10))).
    revert d2 H2 H24. intros d2 H2 _. revert d2 H2.
    apply (upTo_forallb 10
             (fun d2 => forallb (fun d3 =>
                forallb (fun d4 => p d1 d2 d3 d4) (upTo 10)) (upTo 6))).
    revert d1 H1.
    apply (upTo_forallb 3
             (fun d1 => forallb (fun d2 => forallb (fun d3 =>
                forallb (fun d4 => p d1 d2 d3 d4) (upTo 10)) (upTo 6))
                (upTo 10))).
    vm_compute. reflexivity. }
  unfold p in H. apply String.eqb_eq.
  destruct (10 * d1 + d2 <? 24) eqn:E; [exact H|].
  apply Z.ltb_ge in E. lia.
Qed.

(** The strings the pattern accepts are the clock strings of the 1440
    minutes of a day. *)
Lemma timeRegex_test_spec (s : string) :
  timeRegex_test s = true <-> exists n, 0 <= n < 1440 /\ s = timeOfMinute n.
Proof.
  split.
  2:{ intros (n & Hn & ->). by apply timeOfMinute_matches. }
  destruct s as [|h1 [|h2 [|c [|m1 [|m2 [|? ?]]]]]]; try done.
  unfold timeRegex_test.
  rewrite !andb_true_iff, orb_true_iff, !andb_true_iff, !in_class_spec.
  change (nat_of_ascii "0") with 48%nat. change (nat_of_ascii "1") with 49%nat.
  change (nat_of_ascii "9") with 57%nat. change (nat_of_ascii "3") with 51%nat.
  change (nat_of_ascii "5") with 53%nat.
  intros [[[Hh Hc] Hm1] Hm2].
  apply Ascii.eqb_eq in Hc as ->.
  assert ((48 <= nat_of_ascii h1)%nat /\ (48 <= nat_of_ascii h2)%nat
          /\ 0 <= Js.digit_val h1 < 3 /\ 0 <= Js.digit_val h2 < 10
          /\ 10 * Js.digit_val h1 + Js.digit_val h2 < 24) as (G1 & G2 & D1 & D2 & D24).
  { unfold Js.digit_val.
    destruct Hh as [[? ?]|[Heq ?]]; [lia|].
    apply Ascii.eqb_eq in Heq as ->.
    change (nat_of_ascii "2") with 50%nat. lia. }
  assert (0 <= Js.digit_val m1 < 6) as D3 by (unfold Js.digit_val; lia).
  assert (0 <= Js.digit_val m2 < 10) as D4 by (unfold Js.digit_val; lia).
  exists ((10 * Js.digit_val h1 + Js.digit_val h2) * 60
          + 10 * Js.digit_val m1 + Js.digit_val m2).
  split; [lia|].
  rewrite <- digits_timeOfMinute by done.
  rewrite <- !digit_char by lia. done.
Qed.

(** X10.  The validator and the clock agree on the format: every clock
    string [getTimeString] produces matches the [HH:MM] pattern of
    [validateSchedule] and reads back, through [split(':').map(Number)], as the
    hour and minute of the instant; and every string the pattern accepts is
    the clock string of some instant. *)
Theorem getTimeString_wellformed :
  (forall t,
     timeRegex_test (getTimeString t) = true
     /\ minutesOf (getTimeString t) = Some (getHours t * 60 + getMinutes t))
  /\ (forall s, timeRegex_test s = true -> exists t, getTimeString t = s).
Proof.
  split.
  - intros t. rewrite getTimeString_minute.
    pose proof (minuteOfDay_range t) as Hr.
    split; [by apply timeOfMinute_matches|].
    by apply minutesOf_timeOfMinute.
  - intros s Hs. apply timeRegex_test_spec in Hs as (n & Hn & ->).
    by exists (n * MS_PER_MINUTE).
Qed.












(** The two schedules of the test script: the first passes; the second is
    charged with both format errors and, as its strings compare, with the
    order of its times as well. *)
Lemma validateSchedule_examples :
  Tick.valid (validateSchedule kolkataOffice) = true
  /\ Tick.valid (validateSchedule malformedSchedule) = false
  /\ length (Tick.errors (validateSchedule malformedSchedule)) = 3%nat.
Proof. by vm_compute. Qed.

End ScheduleValidation.

(** ** Template resolution: failures, dotted paths, repeated references *)

Section TemplatePaths.

Import Template.




Lemma split_on_cons (sep : ascii) (s : string) :
  exists h t, Js.split_on sep s = h :: t.
Proof.
  destruct s as [|c r]; simpl; [by eexists _, _|].
  destruct (Ascii.eqb c sep); [by eexists _, _|].
  destruct (Js.split_on sep r); by eexists _, _.
Qed.

Lemma split_on_app (sep : ascii) (a b : string) :
  Js.split_on sep (a ++ String sep b)
  = (Js.split_on sep a ++ Js.split_on sep b)%list.
Proof.
  induction a as [|c a IH]; simpl.
  - by rewrite Ascii.eqb_refl.
  - destruct (Ascii.eqb c sep); simpl; [by rewrite IH|].
    rewrite IH.
    destruct (split_on_cons sep a) as (h & t & ->). done.
Qed.

Lemma walk_parts_undefined (parts : list string) :
  parts <> [] -> forall v, is_nullish v = true -> walk_parts v parts = VUndefined.
Proof. destruct parts; [done|]. intros _ v Hv. simpl. by rewrite Hv. Qed.

Lemma walk_parts_app (l1 l2 : list string) :
  l2 <> [] ->
  forall v, walk_parts v (l1 ++ l2) = walk_parts (walk_parts v l1) l2.
Proof.
  intros Hne. induction l1 as [|p l1 IH]; intros v; simpl; [done|].
  destruct (is_nullish v) eqn:E; [|apply IH].
  by rewrite walk_parts_undefined.
Qed.

(** X15.  [getNestedValue] reads a dotted path one segment after the other:
    the value of [a.b] is the value of [b] inside the value of [a], for paths
    [a] and [b] of any depth.  A missing, [null] or [undefined] step
    gives [undefined] for the whole path; the function never throws. *)
Theorem getNestedValue_dot (obj : value) (a b : string) :
  getNestedValue obj (a ++ "." ++ b)
  = getNestedValue (getNestedValue obj a) b
  /\ (is_nullish (getNestedValue obj a) = true ->
      getNestedValue obj (a ++ "." ++ b) = VUndefined).
Proof.
  assert (getNestedValue obj (a ++ "." ++ b)
          = getNestedValue (getNestedValue obj a) b) as H.
  { unfold getNestedValue.
    change (a ++ "." ++ b) with (a ++ String "." b).
    rewrite split_on_app. apply walk_parts_app.
    destruct (split_on_cons "." b) as (h & t & ->). done. }
  split; [done|].
  intros Hnull. rewrite H. unfold getNestedValue at 1.
  apply walk_parts_undefined; [|done].
  destruct (split_on_cons "." b) as (h & t & ->). done.
Qed.

Lemma getNestedValue_dot_witness :
  getNestedValue stepContext "step1.note.deeper" = VUndefined.
Proof.
  apply (getNestedValue_dot stepContext "step1.note" "deeper").
  reflexivity.
Defined.

Lemma checkCircular_loop_Ok (matches : list string) :
  forall refs,
    (checkCircular_loop matches refs).1 = Ok tt <->
    NoDup (List.map markerPath matches)
    /\ Forall (fun p => p ∉ refs) (List.map markerPath matches).
Proof.
  induction matches as [|m rest IH]; intros refs; simpl.
  - split; [|done]. intros _. split; constructor.
  - case_bool_decide as Hin; simpl.
    + split; [done|]. intros [_ H]. inversion H; subst. done.
    + rewrite IH. split.
      * intros [Hnd Hall]. split.
        -- constructor; [|done]. intros Hm.
           rewrite Forall_forall in Hall. apply (Hall _ Hm). set_solver.
        -- constructor; [done|].
           eapply Forall_impl; [exact Hall|]. intros p Hp. set_solver.
      * intros [Hnd Hall]. inversion Hnd as [|? ? Hnotin Hnd']; subst.
        inversion Hall as [|? ? _ Hall']; subst.
        split; [done|].
        rewrite Forall_forall in Hall'. apply Forall_forall.
        intros p Hp. specialize (Hall' p Hp).
        assert (p <> markerPath m) as Hne by (intros ->; done).
        set_solver.
Qed.

Lemma checkCircular_loop_refs (matches : list string) :
  forall refs,
    (checkCircular_loop matches refs).1 = Ok tt ->
    (checkCircular_loop matches refs).2
    = list_to_set (List.map markerPath matches) ∪ refs.
Proof.
  induction matches as [|m rest IH]; intros refs; simpl.
  - intros _. set_solver.
  - case_bool_decide as Hin; simpl; [done|].
    intros H. rewrite (IH _ H). set_solver.
Qed.

Lemma checkCircular_loop_grows (matches : list string) :
  forall refs, refs ⊆ (checkCircular_loop matches refs).2.
Proof.
  induction matches as [|m rest IH]; intros refs; simpl; [done|].
  case_bool_decide; simpl; [done|].
  etransitivity; [|apply IH]. set_solver.
Qed.

(** X16.  [checkCircular] accepts a template exactly when the paths of its
    markers are pairwise different and none of them was recorded by an
    earlier call; it then records all of them, and recorded paths are never
    forgotten.  So a template that names the same variable twice is reported
    as circular although no reference cycle is involved, and so is any
    template with a marker when it is checked a second time. *)
Theorem checkCircular_accepts_iff (refs : gset string) (template : string) :
  let paths := List.map markerPath (match_all template) in
  ((checkCircular refs template).1 = Ok tt <->
   NoDup paths /\ Forall (fun p => p ∉ refs) paths)
  /\ ((checkCircular refs template).1 = Ok tt ->
      (checkCircular refs template).2 = list_to_set paths ∪ refs)
  /\ refs ⊆ (checkCircular refs template).2
  /\ ((checkCircular refs template).1 = Ok tt -> paths <> [] ->
      exists path,
        (checkCircular (checkCircular refs template).2 template).1
        = Throw ("Circular template reference: " ++ path)).
Proof.
  intros paths. subst paths. unfold checkCircular.
  split; [apply checkCircular_loop_Ok|].
  split; [apply checkCircular_loop_refs|].
  split; [apply checkCircular_loop_grows|].
  intros Hok Hne. rewrite (checkCircular_loop_refs _ _ Hok).
  destruct (match_all template) as [|m rest]; [done|].
  exists (markerPath m). simpl.
  rewrite bool_decide_eq_true_2; [done|]. set_solver.
Qed.

End TemplatePaths.

(** ** Cycle detection accepts exactly the acyclic specifications *)

Section CycleSoundness.

Import Cycles.

Variable spec : WorkflowSpec.

Hypothesis all_declared : declared spec = true.
Hypothesis no_cycle : forall x, ~ tc (follows spec) x x.

Implicit Types (st : DfsState) (x nodeId : string) (path deps : list string).

Lemma follows_declared (a b : string) :
  follows spec a b -> findNode spec b <> None.
Proof.
  intros (node & Hfind & Hb).
  destruct (findNode_In spec _ _ Hfind) as [Hin _].
  unfold declared in all_declared.
  rewrite forallb_forall in all_declared.
  specialize (all_declared node (proj1 (list_elem_of_In _ _) Hin)).
  rewrite forallb_forall in all_declared.
  specialize (all_declared b (proj1 (list_elem_of_In _ _) Hb)).
  apply bool_decide_eq_true in all_declared as [n Hn]. by rewrite Hn.
Qed.

(** A call that finds nothing leaves the stack and the errors as they were. *)
Lemma visitDeps_clean recur n deps :
  (forall d path st b st',
     recur d path st = Some (b, st') ->
     d ∉ visited st -> findNode spec d <> None ->
     recursionStack st ⊆ visited st ->
     (forall s, s ∈ recursionStack st -> tc (follows spec) s d) ->
     b = false /\ found st' = found st
     /\ recursionStack st' = recursionStack st
     /\ visited st ⊆ visited st') ->
  forall path st b st',
    visitDeps recur path deps st = Some (b, st') ->
    (forall d, d ∈ deps -> follows spec n d) ->
    recursionStack st ⊆ visited st ->
    (forall s, s ∈ recursionStack st -> rtc (follows spec) s n) ->
    b = false /\ found st' = found st
    /\ recursionStack st' = recursionStack st
    /\ visited st ⊆ visited st'.
Proof.
  intros Hrec.
  induction deps as [|d deps IH]; intros path st b st' Hrun Hdeps Hsub Hstack;
    cbn [visitDeps] in Hrun.
  { by injection Hrun as <- <-. }
  assert (follows spec n d) as Hnd by (apply Hdeps; by left).
  assert (forall d', d' ∈ deps -> follows spec n d') as Hrest
    by (intros d' Hd'; apply Hdeps; by right).
  case_bool_decide as Hvis; cbn [negb] in Hrun.
  - case_bool_decide as Hon.
    + exfalso. apply (no_cycle d).
      eapply tc_rtc_l; [by apply Hstack|]. by apply tc_once.
    + by apply (IH _ _ _ _ Hrun).
  - destruct (recur d (path ++ [d])%list st) as [[[] s1]|] eqn:Hcall;
      [| |done].
    + destruct (Hrec _ _ _ _ _ Hcall Hvis) as (? & _); try done.
      * by apply (follows_declared n).
      * intros s Hs. eapply tc_rtc_l; [by apply Hstack|]. by apply tc_once.
    + destruct (Hrec _ _ _ _ _ Hcall Hvis) as (_ & Hf1 & Hs1 & Hv1); try done.
      * by apply (follows_declared n).
      * intros s Hs. eapply tc_rtc_l; [by apply Hstack|]. by apply tc_once.
      * destruct (IH _ _ _ _ Hrun Hrest) as (-> & Hf & Hs & Hv).
        -- rewrite Hs1. set_solver.
        -- intros s Hs. apply Hstack. by rewrite <- Hs1.
        -- split; [done|]. split; [congruence|]. split; [congruence|].
           set_solver.
Qed.

Lemma dfs_clean fuel :
  forall nodeId path st b st',
    dfs spec fuel nodeId path st = Some (b, st') ->
    nodeId ∉ visited st -> findNode spec nodeId <> None ->
    recursionStack st ⊆ visited st ->
    (forall s, s ∈ recursionStack st -> tc (follows spec) s nodeId) ->
    b = false /\ found st' = found st
    /\ recursionStack st' = recursionStack st
    /\ visited st ⊆ visited st'.
Proof.
  induction fuel as [|fuel IH]; intros nodeId path st b st' Hrun Hfresh Hdecl
    Hsub Hstack; cbn [dfs] in Hrun; [done|].
  destruct (findNode spec nodeId) as [node|] eqn:Hfind; [|done].
  destruct (visitDeps (dfs spec fuel) path (default [] (depends node))
              (enter nodeId st)) as [[[] s1]|] eqn:Hloop; [| |done].
  - destruct (visitDeps_clean _ nodeId _ IH _ _ _ _ Hloop) as (? & _);
      try done.
    + intros d Hd. by exists node.
    + unfold enter; simpl. set_solver.
    + unfold enter; simpl. intros s Hs.
      apply elem_of_union in Hs as [Hs|Hs].
      * apply elem_of_singleton in Hs as ->. done.
      * apply tc_rtc. by apply Hstack.
  - injection Hrun as <- <-.
    destruct (visitDeps_clean _ nodeId _ IH _ _ _ _ Hloop)
      as (_ & Hf & Hs & Hv).
    + intros d Hd. by exists node.
    + unfold enter; simpl. set_solver.
    + unfold enter; simpl. intros s Hs.
      apply elem_of_union in Hs as [Hs|Hs].
      * apply elem_of_singleton in Hs as ->. done.
      * apply tc_rtc. by apply Hstack.
    + unfold enter, leave in *; simpl in *.
      split; [done|]. split; [done|]. split; [|set_solver].
      rewrite Hs. set_solver.
Qed.

Lemma visitAll_clean fuel (ns : list SpecNode) :
  forall st st',
    visitAll spec fuel ns st = Some st' ->
    (forall n, n ∈ ns -> n ∈ nodes spec) ->
    recursionStack st = ∅ -> found st = [] ->
    found st' = [].
Proof.
  induction ns as [|n ns IH]; intros st st' Hrun Hns Hstack Hfound;
    cbn [visitAll] in Hrun.
  { by injection Hrun as <-. }
  assert (forall m, m ∈ ns -> m ∈ nodes spec) as Hrest
    by (intros m Hm; apply Hns; by right).
  case_bool_decide as Hvis; cbn [negb] in Hrun; [by apply (IH _ _ Hrun)|].
  destruct (dfs spec fuel (id n) [id n] st) as [[b s1]|] eqn:Hcall; [|done].
  destruct (dfs_clean _ _ _ _ _ _ Hcall Hvis) as (_ & Hf & Hs & _).
  - apply findNode_node. apply Hns. by left.
  - rewrite Hstack. set_solver.
  - intros s Hs. rewrite Hstack in Hs. set_solver.
  - apply (IH _ _ Hrun Hrest); congruence.
Qed.

Lemma detectCycles_clean (result : ValidationResult) :
  detectCycles spec = Some result ->
  valid result = true /\ errors result = [].
Proof.
  unfold detectCycles.
  destruct (visitAll spec (S (size (universe spec))) (nodes spec) initial)
    as [st|] eqn:Hrun; [|done].
  intros [= <-]. simpl.
  by rewrite (visitAll_clean _ _ _ _ Hrun).
Qed.

End CycleSoundness.

Section CycleVerdict.

Import Cycles.

(** The nodes on a cycle each depend on another node on a cycle. *)
Lemma cyclic_trapped (spec : WorkflowSpec) (x : string) :
  tc (follows spec) x x ->
  exists y, tc (follows spec) y y /\ follows spec x y.
Proof.
  intros Hx. inversion Hx as [? ? Hstep|? y ? Hstep Hrest]; subst.
  - by exists x.
  - exists y. split; [|done]. by eapply tc_r.
Qed.

(** X17.  When no two nodes share an id and every listed dependency is the
    id of a declared node, [detectCycles] returns, and its verdict is exact:
    the result is valid, with no error, if and only if no node depends on
    itself through a chain of one or more dependencies.  Both conditions are
    needed.  An undeclared dependency stays on the recursion stack, and a
    second node that lists it is reported as a cycle although none exists.
    Of two nodes with the same id the traversal reads the first only, so a
    node that lists itself goes unreported when an earlier node has its
    id. *)
Theorem detectCycles_valid_iff_acyclic (spec : WorkflowSpec) :
  uniqueIds spec = true ->
  declared spec = true ->
  (exists result,
     detectCycles spec = Some result
     /\ (valid result = true <-> acyclic spec)
     /\ (valid result = true <-> errors result = []))
  /\ (uniqueIds sharedDangling = true /\ acyclic sharedDangling
      /\ detectCycles sharedDangling
         = Some {| valid := false;
                   errors := ["Circular dependency detected: B → X"];
                   warnings := [] |})
  /\ (declared repeatedId = true /\ depends_on repeatedId "A" "A"
      /\ ~ acyclic repeatedId
      /\ detectCycles repeatedId
         = Some {| valid := true; errors := []; warnings := [] |}).
Proof.
  intros Hunique Hdeclared. split; [|split].
  - destruct (detectCycles_total spec) as [result Hrun].
    exists result. split; [done|]. split.
    + split.
      * intros Hvalid x Hx.
        apply (tc_depends_on_follows spec _ _ Hunique) in Hx.
        destruct (detectCycles_trapped spec
                    (fun y => tc (follows spec) y y)
                    (cyclic_trapped spec) x result Hx Hrun) as [Hinvalid _].
        congruence.
      * intros Hacyclic.
        assert (forall x, ~ tc (follows spec) x x) as Hnone.
        { intros x Hx. apply (Hacyclic x). by apply tc_follows_depends_on. }
        by destruct (detectCycles_clean spec Hdeclared Hnone result Hrun).
    + unfold detectCycles in Hrun.
      destruct (visitAll spec _ _ _) as [st|]; [|done].
      injection Hrun as <-. simpl. by destruct (found st).
  - split; [done|]. split; [|by vm_compute].
    intros x Hx.
    assert (forall a b, depends_on sharedDangling a b -> a <> "X" /\ b = "X")
      as Hdep.
    { intros a b (node & Hin & <- & Hb).
      unfold sharedDangling in Hin; simpl in Hin.
      apply elem_of_cons in Hin as [->|Hin]; [set_solver|].
      apply elem_of_cons in Hin as [->|Hin]; [set_solver|].
      by apply elem_of_nil in Hin. }
    inversion Hx as [? ? Hstep|? y ? Hstep Hrest]; subst.
    + by destruct (Hdep _ _ Hstep) as [? ->].
    + destruct (Hdep _ _ Hstep) as [_ ->].
      inversion Hrest as [? ? Hstep'|? z ? Hstep' _]; subst;
        by destruct (Hdep _ _ Hstep').
  - assert (depends_on repeatedId "A" "A") as Hself.
    { exists {| id := "A"; depends := Some ["A"] |}.
      split; [|split; [done|]]; cbn; set_solver. }
    split; [done|]. split; [done|]. split; [|by vm_compute].
    intros Hacyclic. apply (Hacyclic "A"). by apply tc_once.
Qed.

Lemma detectCycles_valid_iff_acyclic_witness :
  exists result,
    detectCycles diamond = Some result
    /\ (valid result = true <-> acyclic diamond)
    /\ (valid result = true <-> errors result = []).
Proof.
  exact (proj1 (detectCycles_valid_iff_acyclic diamond eq_refl eq_refl)).
Defined.

End CycleVerdict.

(** ** Dialogue transcripts, bounds and speakers *)

Section DialogueRuns.

Import Template Dialogue.

Variable resolve : string -> value -> result string.
Variable getAgent : string -> option Agent.
Variable callAgent : nat -> string -> string -> result value.
Variable JSON_stringify : value -> string.
Variable uuidv4 : nat -> string.
Variable clock : nat -> Z.
Variable addCost : string -> value -> string.

Local Abbreviation turn_ := (executeTurn resolve callAgent JSON_stringify uuidv4 clock).
Local Abbreviation seq_ := (sequentialLoop resolve callAgent JSON_stringify uuidv4 clock).
Local Abbreviation rr_ := (roundRobinLoop resolve callAgent JSON_stringify uuidv4 clock).
Local Abbreviation dyn_ := (dynamicLoop resolve callAgent JSON_stringify uuidv4 clock).
Local Abbreviation mode_ := (runMode resolve callAgent JSON_stringify uuidv4 clock).
Local Abbreviation dialogue_ :=
  (executeDialogue resolve getAgent callAgent JSON_stringify uuidv4 clock addCost).

Implicit Types (d : DialogueConfig) (ctx : DialogueContext)
  (w : list (string * value)) (turn : DialogueTurn).

(** What one call of [executeTurn] does to the context: nothing, or one turn
    by the speaker, a participant, with its transcript line. *)
Lemma executeTurn_step turn w ctx :
  (turn_ turn w ctx).2 = ctx
  \/ exists t,
       (turn_ turn w ctx).2 = appended ctx t (turnLine t)
       /\ t_speaker t = speaker turn
       /\ is_Some (assoc (speaker turn) (c_participants ctx)).
Proof.
  pose proof (executeTurn_cases resolve callAgent JSON_stringify uuidv4 clock
                turn w ctx) as H.
  destruct (assoc (speaker turn) (c_participants ctx)) as [agent|] eqn:E.
  - destruct H as [(msg & ->)|(t & outcome & -> & Hs & _)]; [by left|].
    right. exists t. unfold turnLine. rewrite Hs. by repeat split.
  - left. by rewrite H.
Qed.


Lemma executeTurn_spoken turn w ctx :
  spokenByParticipants ctx -> spokenByParticipants (turn_ turn w ctx).2.
Proof.
  intros Hctx.
  destruct (executeTurn_step turn w ctx) as [->|(t & -> & Hs & Hin)]; [done|].
  unfold spokenByParticipants, appended; simpl.
  intros t' Ht'. apply elem_of_app in Ht' as [Ht'|Ht'].
  - by apply Hctx.
  - apply list_elem_of_singleton in Ht' as ->. by rewrite Hs.
Qed.

Lemma executeTurn_participants turn w ctx :
  c_participants (turn_ turn w ctx).2 = c_participants ctx.
Proof.
  by destruct (executeTurn_step turn w ctx) as [->|(t & -> & _)].
Qed.


Lemma extendedBy_refl ctx : extendedBy ctx ctx [].
Proof. unfold extendedBy. by rewrite !app_nil_r. Qed.

Lemma extendedBy_trans ctx1 ctx2 ctx3 (e1 e2 : list DialogueTurnResult) :
  extendedBy ctx1 ctx2 e1 -> extendedBy ctx2 ctx3 e2 ->
  extendedBy ctx1 ctx3 (e1 ++ e2).
Proof.
  intros (Ht1 & Hh1 & Hp1) (Ht2 & Hh2 & Hp2). unfold extendedBy.
  rewrite Ht2, Ht1, Hh2, Hh1, Hp2, Hp1, map_app, !app_assoc. done.
Qed.

Lemma executeTurn_extends turn w ctx :
  (turn_ turn w ctx).2 = ctx
  \/ exists t,
       extendedBy ctx (turn_ turn w ctx).2 [t]
       /\ t_speaker t = speaker turn
       /\ is_Some (assoc (speaker turn) (c_participants ctx)).
Proof.
  destruct (executeTurn_step turn w ctx) as [?|(t & Hstep & Hs & Hin)];
    [by left|].
  right. exists t. rewrite Hstep. by repeat split.
Qed.

Lemma sequentialLoop_extends d (remaining : list DialogueTurn) w :
  forall ctx,
    exists extra,
      extendedBy ctx (seq_ d remaining w ctx).2 extra
      /\ (length extra <= length remaining)%nat.
Proof.
  induction remaining as [|turn rest IH]; intros ctx;
    cbn [sequentialLoop]; unfold bind, getContext, ret.
  { exists []. split; [apply extendedBy_refl|done]. }
  destruct (endConditionMet resolve d ctx w).
  { exists []. split; [apply extendedBy_refl|simpl; lia]. }
  destruct (executeTurn_extends turn w ctx) as [Hsame|(t & Hext & _)].
  - destruct (turn_ turn w ctx) as [[[]|msg] ctx1]; simpl in *; subst ctx1.
    + destruct (IH ctx) as (extra & Hext & Hlen).
      exists extra. split; [done|lia].
    + exists []. split; [apply extendedBy_refl|simpl; lia].
  - destruct (turn_ turn w ctx) as [[[]|msg] ctx1]; simpl in *.
    + destruct (IH ctx1) as (extra & Hext' & Hlen).
      exists ([t] ++ extra)%list. split; [by eapply extendedBy_trans|].
      simpl. lia.
    + exists [t]. split; [done|simpl; lia].
Qed.

Lemma dynamicLoop_extends d (count : nat) w :
  forall ctx,
    exists extra,
      extendedBy ctx (dyn_ d count w ctx).2 extra
      /\ (length extra <= count)%nat.
Proof.
  induction count as [|count IH]; intros ctx;
    cbn [dynamicLoop]; unfold bind, getContext, ret.
  { exists []. split; [apply extendedBy_refl|done]. }
  destruct (endConditionMet resolve d ctx w).
  { exists []. split; [apply extendedBy_refl|simpl; lia]. }
  destruct (String.eqb (selectNextSpeaker (participants d) ctx) "").
  { exists []. split; [apply extendedBy_refl|simpl; lia]. }
  set (turn := {| speaker := selectNextSpeaker (participants d) ctx;
                  prompt := _; respondTo := _ |}).
  destruct (executeTurn_extends turn w ctx) as [Hsame|(t & Hext & _)].
  - destruct (turn_ turn w ctx) as [[[]|msg] ctx1]; simpl in *; subst ctx1.
    + destruct (IH ctx) as (extra & Hext & Hlen).
      exists extra. split; [done|lia].
    + exists []. split; [apply extendedBy_refl|simpl; lia].
  - destruct (turn_ turn w ctx) as [[[]|msg] ctx1]; simpl in *.
    + destruct (IH ctx1) as (extra & Hext' & Hlen).
      exists ([t] ++ extra)%list. split; [by eapply extendedBy_trans|].
      simpl. lia.
    + exists [t]. split; [done|simpl; lia].
Qed.

(** The text of a truthy optional string. *)
Lemma truthy_str_default (o : option string) :
  Js.truthy_str o = true -> o = Some (default EmptyString o).
Proof. by destruct o. Qed.

(** The round-robin loop: besides the bound, when every participant is a
    non-empty key of the participants map, the turns it records are spoken in
    the order of the list, starting at [currentIndex] and wrapping around. *)
Lemma roundRobinLoop_extends d (count : nat) w :
  forall currentIndex ctx,
    exists extra,
      extendedBy ctx (rr_ d count currentIndex w ctx).2 extra
      /\ (length extra <= count)%nat
      /\ ((forall p, p ∈ participants d ->
             p <> EmptyString /\ is_Some (assoc p (c_participants ctx))) ->
          forall i t, nth_error extra i = Some t ->
            nth_error (participants d)
              ((currentIndex + i) mod length (participants d))
            = Some (t_speaker t)).
Proof.
  induction count as [|count IH]; intros currentIndex ctx;
    cbn [roundRobinLoop]; unfold bind, getContext, ret.
  { exists []. split; [apply extendedBy_refl|]. split; [done|].
    by intros _ [|i] t. }
  destruct (endConditionMet resolve d ctx w).
  { exists []. split; [apply extendedBy_refl|]. split; [simpl; lia|].
    by intros _ [|i] t. }
  destruct (Js.truthy_str (speakerAt (participants d) currentIndex)) eqn:Hwho.
  - pose proof (truthy_str_default _ Hwho) as Hat.
    set (who := default EmptyString (speakerAt (participants d) currentIndex))
      in *.
    set (turn := {| speaker := who; prompt := _; respondTo := _ |}).
    assert (nth_error (participants d)
              (currentIndex mod length (participants d)) = Some who) as Hidx.
    { unfold speakerAt in Hat. by destruct (participants d). }
    destruct (executeTurn_extends turn w ctx) as [Hsame|(t & Hext & Hs & Hin)].
    + destruct (turn_ turn w ctx) as [[[]|msg] ctx1] eqn:Hturn; simpl in *;
        subst ctx1.
      * destruct (IH (S currentIndex) ctx) as (extra & Hext & Hlen & Horder).
        exists extra. split; [done|]. split; [lia|].
        intros Hall i t Hi. exfalso.
        (* the speaker is a participant, so the turn cannot have been skipped
           without an error *)
        assert (who ∈ participants d) as Hmem
          by (apply list_elem_of_In; eapply nth_error_In; exact Hidx).
        destruct (Hall who Hmem) as [_ [agent Hagent]].
        pose proof (executeTurn_cases resolve callAgent JSON_stringify uuidv4
                      clock turn w ctx) as Hcases.
        cbn [speaker turn] in Hcases. rewrite Hagent, Hturn in Hcases.
        destruct Hcases as [(msg & [=])|(t' & outcome & [= _ Hctx] & _)].
        apply (f_equal (fun c => length (c_turns c))) in Hctx.
        unfold appended in Hctx; simpl in Hctx.
        rewrite length_app in Hctx. simpl in Hctx. lia.
      * exists []. split; [apply extendedBy_refl|]. split; [simpl; lia|].
        by intros _ [|i] t.
    + destruct (turn_ turn w ctx) as [[[]|msg] ctx1]; simpl in *.
      * destruct (IH (S currentIndex) ctx1) as (extra & Hext' & Hlen & Horder).
        exists ([t] ++ extra)%list.
        split; [by eapply extendedBy_trans|]. split; [simpl; lia|].
        intros Hall [|i] t' Hi; simpl in Hi.
        -- injection Hi as <-. rewrite Nat.add_0_r, Hs. exact Hidx.
        -- replace (currentIndex + S i)%nat with (S currentIndex + i)%nat by lia.
           apply Horder; [|done].
           destruct Hext as (_ & _ & ->). exact Hall.
      * exists [t]. split; [done|]. split; [simpl; lia|].
        intros _ [|i] t' Hi; simpl in Hi; [|by destruct i].
        injection Hi as <-. rewrite Nat.add_0_r, Hs. exact Hidx.
  - destruct (IH (S currentIndex) ctx) as (extra & Hext & Hlen & Horder).
    exists extra. split; [done|]. split; [lia|].
    intros Hall i t Hi. exfalso.
    unfold speakerAt in Hwho.
    destruct (participants d) as [|p ps] eqn:Hps.
    + (* no participant at all: every later iteration is skipped as well *)
      specialize (Horder ltac:(intros q Hq; by apply elem_of_nil in Hq) i t Hi).
      simpl in Horder. by destruct ((S currentIndex + i) mod 0)%nat.
    + assert (currentIndex mod length (p :: ps) < length (p :: ps))%nat as Hlt
        by (apply Nat.mod_upper_bound; simpl; lia).
      destruct (nth_error (p :: ps) (currentIndex mod length (p :: ps)))
        as [q|] eqn:Hq.
      * assert (q ∈ p :: ps) as Hmem
          by (apply list_elem_of_In; eapply nth_error_In; exact Hq).
        destruct (Hall q Hmem) as [Hne _]. simpl in Hwho.
        by destruct (String.eqb_spec q "").
      * apply nth_error_None in Hq. lia.
Qed.

Lemma runMode_extends d w (maxTurns : Z) ctx :
  exists extra,
    extendedBy ctx (mode_ d w maxTurns ctx).2 extra
    /\ Z.of_nat (length extra) <= Z.max 0 maxTurns
    /\ (mode d = "sequential" -> (length extra <= length (turns d))%nat)
    /\ (mode d <> "sequential" -> mode d <> "round-robin" ->
        mode d <> "dynamic" -> extra = []).
Proof.
  unfold runMode, executeSequentialDialogue, executeRoundRobinDialogue,
    executeDynamicDialogue.
  destruct (String.eqb_spec (mode d) "sequential") as [Hseq|Hseq].
  { destruct (sequentialLoop_extends d
                (firstn (Z.to_nat (Z.min (Z.of_nat (length (turns d))) maxTurns))
                   (turns d)) w ctx) as (extra & Hext & Hlen).
    rewrite length_firstn in Hlen.
    exists extra. split; [done|]. split; [lia|]. split; [lia|]. done. }
  destruct (String.eqb_spec (mode d) "round-robin") as [Hrr|Hrr].
  { destruct (roundRobinLoop_extends d (Z.to_nat maxTurns) w 0%nat ctx)
      as (extra & Hext & Hlen & _).
    exists extra. split; [done|]. split; [lia|]. split; [congruence|]. done. }
  destruct (String.eqb_spec (mode d) "dynamic") as [Hdyn|Hdyn].
  { destruct (dynamicLoop_extends d (Z.to_nat maxTurns) w ctx)
      as (extra & Hext & Hlen).
    exists extra. split; [done|]. split; [lia|]. split; [congruence|]. done. }
  exists []. split; [apply extendedBy_refl|]. split; [simpl; lia|]. done.
Qed.

(** The context [executeDialogue] leaves is the one its mode's loop leaves. *)
Lemma executeDialogue_context (dialogueNode : WorkflowNode) w
    (theRunId : string) d :
  dialogue dialogueNode = Some d ->
  (dialogue_ dialogueNode w theRunId).2
  = (mode_ d w (Js.num_or (maxTurns d) (Z.of_nat (length (turns d))))
       (startContext getAgent d)).2.
Proof.
  intros Hd. unfold executeDialogue. rewrite Hd.
  by destruct (mode_ d w _ (startContext getAgent d)) as [[[]|msg] ctx'].
Qed.

(** X19.  A dialogue records at most [maxTurns] turns, where an absent or
    zero [maxTurns] stands for the number of predefined turns; the sequential
    mode also never records more turns than are predefined, and a mode other
    than the three known ones records none.  The participants map is the one
    built from the registry at the start; no turn changes it. *)
Theorem executeDialogue_turn_bound (dialogueNode : WorkflowNode) w
    (theRunId : string) d :
  dialogue dialogueNode = Some d ->
  let ctx := (dialogue_ dialogueNode w theRunId).2 in
  let limit := Js.num_or (maxTurns d) (Z.of_nat (length (turns d))) in
  Z.of_nat (length (c_turns ctx)) <= Z.max 0 limit
  /\ (mode d = "sequential" -> (length (c_turns ctx) <= length (turns d))%nat)
  /\ (mode d <> "sequential" -> mode d <> "round-robin" ->
      mode d <> "dynamic" -> c_turns ctx = [])
  /\ c_participants ctx = initParticipants getAgent (participants d) [].
Proof.
  intros Hd ctx limit. subst ctx.
  rewrite (executeDialogue_context _ _ _ _ Hd). fold limit.
  destruct (runMode_extends d w limit (startContext getAgent d))
    as (extra & (Ht & _ & Hp) & Hlen & Hseq & Hother).
  simpl in Ht. rewrite Ht, Hp. auto.
Qed.

Lemma assoc_obj_set_is_Some {A} (k key : string) (v : A)
    (fields : list (string * A)) :
  is_Some (assoc k (obj_set key v fields))
  <-> k = key \/ is_Some (assoc k fields).
Proof.
  destruct (String.eqb_spec k key) as [->|Hne].
  - rewrite assoc_obj_set_same. split; [by left|by eexists].
  - rewrite assoc_obj_set_other by done. split; [by right|by intros [?|?]].
Qed.

Lemma initParticipants_keys (refs : list string) :
  forall (acc : list (string * Agent)) (k : string),
    is_Some (assoc k (initParticipants getAgent refs acc))
    <-> is_Some (assoc k acc) \/ (k ∈ refs /\ is_Some (getAgent k)).
Proof.
  induction refs as [|p refs IH]; intros acc k; cbn [initParticipants].
  { split; [by left|]. intros [?|[Hk _]]; [done|]. by apply elem_of_nil in Hk. }
  destruct (getAgent p) as [agent|] eqn:Hp; rewrite IH.
  - rewrite assoc_obj_set_is_Some. split.
    + intros [[->|?]|[? ?]].
      * right. split; [by left|]. by rewrite Hp.
      * by left.
      * right. split; [by right|done].
    + intros [?|[Hk Hsome]]; [by left; right|].
      apply elem_of_cons in Hk as [->|Hk]; [by left; left|].
      by right.
  - split.
    + intros [?|[? ?]]; [by left|]. right. split; [by right|done].
    + intros [?|[Hk Hsome]]; [by left|].
      apply elem_of_cons in Hk as [->|Hk].
      * rewrite Hp in Hsome. by destruct Hsome.
      * by right.
Qed.

(** X20.  Every turn a dialogue records was spoken by one of the configured
    participants that the registry resolved when the dialogue started: a
    predefined turn whose speaker is not such a participant is passed over
    without a record and without an error. *)
Theorem executeDialogue_speakers (dialogueNode : WorkflowNode) w
    (theRunId : string) d :
  dialogue dialogueNode = Some d ->
  (forall t, t ∈ c_turns (dialogue_ dialogueNode w theRunId).2 ->
     t_speaker t ∈ participants d /\ is_Some (getAgent (t_speaker t)))
  /\ (forall turn ctx,
        assoc (speaker turn) (c_participants ctx) = None ->
        turn_ turn w ctx = (Ok tt, ctx)).
Proof.
  intros Hd. split.
  - rewrite (executeDialogue_context _ _ _ _ Hd).
    set (limit := Js.num_or (maxTurns d) (Z.of_nat (length (turns d)))).
    assert (spokenByParticipants (startContext getAgent d)) as Hstart.
    { intros t Ht. by apply elem_of_nil in Ht. }
    pose proof (runMode_keeps resolve callAgent JSON_stringify uuidv4 clock
                  spokenByParticipants (fun _ => True) w I
                  (fun turn ctx H => conj (executeTurn_spoken turn w ctx H) I)
                  d limit (startContext getAgent d) Hstart) as [Hinv _].
    destruct (runMode_extends d w limit (startContext getAgent d))
      as (extra & (_ & _ & Hp) & _).
    intros t Ht. specialize (Hinv t Ht). rewrite Hp in Hinv.
    apply initParticipants_keys in Hinv as [[? ?]|?]; done.
  - intros turn ctx Hnone.
    pose proof (executeTurn_cases resolve callAgent JSON_stringify uuidv4 clock
                  turn w ctx) as H.
    by rewrite Hnone in H.
Qed.

(** X21.  In a round-robin dialogue whose participants are all non-empty
    and known to the registry, the turns are spoken in the order of the
    participants list, wrapping around: turn [i] is spoken by participant
    [i mod n].  This holds for the turns recorded before a failure as well. *)
Theorem roundRobin_speaking_order (dialogueNode : WorkflowNode) w
    (theRunId : string) d :
  dialogue dialogueNode = Some d -> mode d = "round-robin" ->
  (forall p, p ∈ participants d -> p <> EmptyString /\ is_Some (getAgent p)) ->
  forall i t,
    nth_error (c_turns (dialogue_ dialogueNode w theRunId).2) i = Some t ->
    nth_error (participants d) (i mod length (participants d))
    = Some (t_speaker t).
Proof.
  intros Hd Hmode Hall i t.
  rewrite (executeDialogue_context _ _ _ _ Hd).
  unfold runMode, executeRoundRobinDialogue.
  destruct (String.eqb_spec (mode d) "sequential") as [Hseq|_];
    [by rewrite Hmode in Hseq|].
  destruct (String.eqb_spec (mode d) "round-robin") as [_|Hrr]; [|done].
  destruct (roundRobinLoop_extends d
              (Z.to_nat (Js.num_or (maxTurns d) (Z.of_nat (length (turns d)))))
              w 0%nat (startContext getAgent d))
    as (extra & (Ht & _) & _ & Horder).
  rewrite Ht. simpl. intros Hi. apply (Horder) in Hi; [done|].
  intros p Hp. destruct (Hall p Hp) as [Hne Hsome]. split; [done|].
  apply initParticipants_keys. by right.
Qed.

End DialogueRuns.

Section DialogueRunWitnesses.

Import Template Dialogue.

Lemma executeDialogue_turn_bound_witness :
  Z.of_nat
    (length (c_turns
       (executeDialogue Template.resolve boardRegistry demoCall demoJson
          demoUuid demoClock demoAddCost boardNode [] "run-1").2)) <= 4.
Proof.
  pose proof (executeDialogue_turn_bound Template.resolve boardRegistry
                demoCall demoJson demoUuid demoClock demoAddCost boardNode []
                "run-1" _ eq_refl) as [Hbound _].
  exact Hbound.
Defined.

Lemma executeDialogue_speakers_witness :
  Forall (fun t => t_speaker t ∈ participants demoDialogue
                   /\ is_Some (demoRegistry (t_speaker t)))
    (c_turns (executeDialogue Template.resolve demoRegistry demoCall
                demoJson demoUuid demoClock demoAddCost demoNode []
                "run-1").2).
Proof.
  apply Forall_forall. intros t Ht.
  by apply (executeDialogue_speakers Template.resolve demoRegistry demoCall
              demoJson demoUuid demoClock demoAddCost demoNode [] "run-1"
              demoDialogue eq_refl).
Defined.

Lemma roundRobin_speaking_order_witness :
  exists t,
    nth_error
      (c_turns (executeDialogue Template.resolve boardRegistry demoCall
                  demoJson demoUuid demoClock demoAddCost boardNode []
                  "run-1").2) 3 = Some t
    /\ nth_error ["ceo-agent-v1"; "cto-agent-v1"; "cmo-agent-v1"] (3 mod 3)
       = Some (t_speaker t).
Proof.
  eexists. split; [vm_compute; reflexivity|].
  apply (roundRobin_speaking_order Template.resolve boardRegistry
           demoCall demoJson demoUuid demoClock demoAddCost boardNode []
           "run-1" _ eq_refl eq_refl); [|vm_compute; reflexivity].
  intros p Hp.
  repeat (apply elem_of_cons in Hp as [->|Hp]; [by split; [|eexists]|]).
  by apply elem_of_nil in Hp.
Defined.

End DialogueRunWitnesses.

(** ** The end condition of a dialogue *)

Section EndCondition.

Import Template Dialogue.

Variable resolve : string -> value -> result string.
Variable callAgent : nat -> string -> string -> result value.
Variable JSON_stringify : value -> string.
Variable uuidv4 : nat -> string.
Variable clock : nat -> Z.

Local Abbreviation turn_ := (executeTurn resolve callAgent JSON_stringify uuidv4 clock).
Local Abbreviation seq_ := (sequentialLoop resolve callAgent JSON_stringify uuidv4 clock).
Local Abbreviation rr_ := (roundRobinLoop resolve callAgent JSON_stringify uuidv4 clock).
Local Abbreviation dyn_ := (dynamicLoop resolve callAgent JSON_stringify uuidv4 clock).
Local Abbreviation mode_ := (runMode resolve callAgent JSON_stringify uuidv4 clock).

Implicit Types (d : DialogueConfig) (ctx : DialogueContext)
  (w : list (string * value)) (turn : DialogueTurn).

(** *** What the resolver is given *)





(** *** Loops whose turns begin only where the check fails *)

Section Guarded.

Variable d : DialogueConfig.
Variable w : list (string * value).
Variable Inv : DialogueContext -> Prop.
Hypothesis turn_keeps :
  forall turn ctx,
    Inv ctx -> endConditionMet resolve d ctx w = false ->
    Inv (turn_ turn w ctx).2.





End Guarded.



(** *** Only the check cuts a run short *)







End EndCondition.

Section EndConditionWitness.

Import Template Dialogue.


End EndConditionWitness.

(** ** Speaker selection and speaker labels *)

Section Speakers.

Import Template Dialogue.

Lemma existsb_eqb_elem_of (p : string) (l : list string) :
  existsb (String.eqb p) l = true <-> p ∈ l.
Proof.
  rewrite existsb_exists. split.
  - intros (x & Hin & Heq). apply String.eqb_eq in Heq as ->.
    by apply list_elem_of_In.
  - intros Hin. exists p. split; [by apply list_elem_of_In|].
    apply String.eqb_refl.
Qed.

Lemma length_slice_last {A} (n : nat) (xs : list A) :
  (length (Js.slice_last n xs) <= n)%nat.
Proof. unfold Js.slice_last. rewrite length_skipn. lia. Qed.

(** X22.  [selectNextSpeaker] returns a participant whenever there is one,
    and the empty string otherwise.  It returns one of the last two speakers
    only when every participant is among them, and then it is the first of
    the list; with three or more distinct participants the next speaker is
    never one of the last two. *)
Theorem selectNextSpeaker_spec (ps : list string) (ctx : DialogueContext) :
  let recent := List.map t_speaker (Js.slice_last 2 (c_turns ctx)) in
  let next := selectNextSpeaker ps ctx in
  (ps = [] -> next = EmptyString)
  /\ (ps <> [] -> next ∈ ps)
  /\ (next ∈ recent ->
      (forall p, p ∈ ps -> p ∈ recent) /\ next = nth 0 ps EmptyString)
  /\ (NoDup ps -> (3 <= length ps)%nat -> next ∉ recent).
Proof.
  intros recent next. subst next. unfold selectNextSpeaker. fold recent.
  destruct (List.find (fun p => negb (existsb (String.eqb p) recent)) ps)
    as [p|] eqn:Hfind.
  - apply find_some in Hfind as [Hin Hfresh].
    apply negb_true_iff in Hfresh.
    assert (p ∉ recent) as Hnot.
    { intros Hp. apply existsb_eqb_elem_of in Hp. congruence. }
    split; [by intros ->|].
    split; [intros _; by apply list_elem_of_In|].
    split; [done|]. done.
  - assert (forall p, p ∈ ps -> p ∈ recent) as Hall.
    { intros p Hp. apply existsb_eqb_elem_of.
      apply list_elem_of_In in Hp.
      pose proof (find_none _ _ Hfind p Hp) as Hn. simpl in Hn.
      by apply negb_false_iff in Hn. }
    split; [by intros ->|].
    split; [destruct ps; [done|]; intros _; by left|].
    split; [done|].
    intros Hnodup Hlen. exfalso.
    assert (length ps <= length recent)%nat as Hle.
    { apply List.NoDup_incl_length; [by apply NoDup_ListNoDup|].
      intros p Hp. apply list_elem_of_In, Hall. by apply list_elem_of_In. }
    subst recent. rewrite length_map in Hle.
    pose proof (length_slice_last 2 (c_turns ctx)). lia.
Qed.

Lemma split_on_head (sep : ascii) (s h : string) (t : list string) :
  Js.split_on sep s = h :: t -> Js.includes_char sep h = false.
Proof.
  revert h t. induction s as [|c s IH]; intros h t; simpl.
  - by intros [= <- <-].
  - destruct (Ascii.eqb c sep) eqn:E; [by intros [= <- <-]|].
    destruct (Js.split_on sep s) as [|h' t'] eqn:Hs.
    + intros [= <- <-]. simpl. by rewrite E.
    + intros [= <- <-]. simpl. rewrite E. by eapply IH.
Qed.

Lemma upper_char_facts (c : ascii) :
  Js.upper_char (Js.upper_char c) = Js.upper_char c
  /\ Ascii.eqb (Js.upper_char c) "-" = Ascii.eqb c "-".
Proof. by destruct c as [[] [] [] [] [] [] [] []]. Qed.

Lemma toUpperCase_facts (s : string) :
  Js.toUpperCase (Js.toUpperCase s) = Js.toUpperCase s
  /\ Js.includes_char "-" (Js.toUpperCase s) = Js.includes_char "-" s
  /\ (s <> EmptyString -> Js.toUpperCase s <> EmptyString).
Proof.
  induction s as [|c s (IH1 & IH2 & _)]; [done|]. simpl.
  destruct (upper_char_facts c) as [-> ->]. by rewrite IH1, IH2.
Qed.

(** X23.  The label [getSpeakerName] gives a speaker is never empty, holds
    no hyphen and no lower-case ASCII letter, and is its own label.  For a
    reference that starts with a non-empty text followed by a hyphen, or holds
    no hyphen at all, it is that text in upper case; a reference that is empty
    or starts with a hyphen is labelled UNKNOWN. *)
Theorem getSpeakerName_label (speakerRef : string) :
  let label := getSpeakerName speakerRef in
  label <> EmptyString
  /\ Js.includes_char "-" label = false
  /\ Js.toUpperCase label = label
  /\ getSpeakerName label = label
  /\ (forall first rest,
        first <> EmptyString -> Js.includes_char "-" first = false ->
        speakerRef = first \/ speakerRef = first ++ "-" ++ rest ->
        label = Js.toUpperCase first)
  /\ (forall rest,
        speakerRef = EmptyString \/ speakerRef = "-" ++ rest ->
        label = "UNKNOWN").
Proof.
  intros label.
  assert (exists stem, stem <> EmptyString
                       /\ Js.includes_char "-" stem = false
                       /\ label = Js.toUpperCase stem) as (stem & Hne & Hclean & Hlabel).
  { subst label. unfold getSpeakerName.
    destruct (split_on_cons "-" speakerRef) as (h & t & Hsplit).
    rewrite Hsplit. pose proof (split_on_head _ _ _ _ Hsplit) as Hh.
    destruct (String.eqb_spec h "") as [->|Hne].
    - by exists "UNKNOWN".
    - by exists h. }
  destruct (toUpperCase_facts stem) as (Hidem & Hhyphen & Hnonempty).
  assert (Js.includes_char "-" label = false) as Hlc
    by (rewrite Hlabel, Hhyphen; done).
  assert (label <> EmptyString) as Hln by (rewrite Hlabel; auto).
  split; [done|]. split; [done|].
  split; [by rewrite Hlabel|].
  split.
  { unfold getSpeakerName. rewrite (split_on_none _ _ Hlc).
    destruct (String.eqb_spec label ""); [done|].
    by rewrite Hlabel. }
  split.
  - intros first rest Hfne Hfclean Href.
    subst label. unfold getSpeakerName.
    assert (exists t, Js.split_on "-" speakerRef = first :: t) as [t ->].
    { destruct Href as [->| ->].
      - rewrite (split_on_none _ _ Hfclean). by eexists.
      - change (first ++ "-" ++ rest) with (first ++ String "-" rest).
        rewrite (split_on_app_sep _ _ _ Hfclean). by eexists. }
    by destruct (String.eqb_spec first "").
  - intros rest Href. subst label. unfold getSpeakerName.
    by destruct Href as [-> | ->].
Qed.

End Speakers.

(** ** The CLI validator accepts exactly the well-formed documents *)

Section CliAcceptance.

Import Template Validate.







End CliAcceptance.

(** ** The execution engine: unresolved markers and failing nodes *)

Section EngineRuns.

Import Template Runner.

Variable JSON_stringify : value -> string.
Variable post : nat -> string -> list (string * value) -> PostOutcome.
Variable clock : nat -> Z.
Variable verbose : bool.

Local Abbreviation run_ := (run JSON_stringify post clock verbose).
Local Abbreviation execute_ := (execute JSON_stringify post clock verbose).




End EngineRuns.

Section EngineWitnesses.

Import Template Runner.


(** The pipeline fixture: with the echo service both nodes complete and the
    workflow output is read from the second node; with the service down the
    first node fails and the second never runs.  With an output definition
    left empty both nodes complete and the execution fails all the same; with
    a number for the second node's [ref] it fails before that node. *)
Lemma pipeline_runs :
  let live := execute (fun _ => "{}") echoPost tickingClock false pipeline
                [("text", VStr "hi")] in
  let down := execute (fun _ => "{}") downPost tickingClock false pipeline
                [("text", VStr "hi")] in
  let empty := execute (fun _ => "{}") echoPost tickingClock false emptyOutput
                 [("text", VStr "hi")] in
  let number := execute (fun _ => "{}") echoPost tickingClock false numberRef
                  [("text", VStr "hi")] in
  x_status live = "completed"
  /\ outputs live = Some [("result", VStr "Output from step2")]
  /\ x_status down = "failed"
  /\ length (nodeResults down) = 1%nat
  /\ x_error down
     = Some "Node step1 failed: Agent call failed: connect ECONNREFUSED 127.0.0.1:3001"
  /\ x_status empty = "failed"
  /\ List.map (fun o => Engine.status (shown o)) (nodeResults empty)
     = ["completed"; "completed"]
  /\ x_error empty = Some "Cannot read properties of null (reading 'value')"
  /\ x_status number = "failed"
  /\ List.map (fun o => Engine.status (shown o)) (nodeResults number)
     = ["completed"]
  /\ x_error number = Some "node.ref.includes is not a function".
Proof. by vm_compute. Qed.

End EngineWitnesses.

(** ** A template that is one marker *)

Section SingleMarker.

Import Template.




End SingleMarker.

(** ** The order of the turns in a sequential dialogue *)

Section SequentialOrder.

Import Template Dialogue.

Variable resolve : string -> value -> result string.
Variable getAgent : string -> option Agent.
Variable callAgent : nat -> string -> string -> result value.
Variable JSON_stringify : value -> string.
Variable uuidv4 : nat -> string.
Variable clock : nat -> Z.
Variable addCost : string -> value -> string.

Local Abbreviation turn_ := (executeTurn resolve callAgent JSON_stringify uuidv4 clock).
Local Abbreviation seq_ := (sequentialLoop resolve callAgent JSON_stringify uuidv4 clock).
Local Abbreviation dialogue_ :=
  (executeDialogue resolve getAgent callAgent JSON_stringify uuidv4 clock addCost).

Lemma sequentialLoop_order (d : DialogueConfig) (remaining : list DialogueTurn)
    (w : list (string * value)) :
  forall ctx,
    exists extra,
      extendedBy ctx (seq_ d remaining w ctx).2 extra
      /\ sublist (List.map t_speaker extra) (List.map speaker remaining).
Proof.
  induction remaining as [|turn rest IH]; intros ctx;
    cbn [sequentialLoop]; unfold bind, getContext, ret.
  { exists []. split; [apply extendedBy_refl|constructor]. }
  destruct (endConditionMet resolve d ctx w).
  { exists []. split; [apply extendedBy_refl|apply sublist_nil_l]. }
  destruct (executeTurn_extends resolve callAgent JSON_stringify uuidv4 clock
              turn w ctx) as [Hsame|(t & Hext & Hs & _)].
  - destruct (turn_ turn w ctx) as [[[]|msg] ctx1]; simpl in *; subst ctx1.
    + destruct (IH ctx) as (extra & Hext & Hsub).
      exists extra. split; [done|]. by apply sublist_cons.
    + exists []. split; [apply extendedBy_refl|apply sublist_nil_l].
  - destruct (turn_ turn w ctx) as [[[]|msg] ctx1]; simpl in *.
    + destruct (IH ctx1) as (extra & Hext' & Hsub).
      exists ([t] ++ extra)%list. split; [by eapply extendedBy_trans|].
      simpl. rewrite Hs. by apply sublist_skip.
    + exists [t]. split; [done|]. simpl. rewrite Hs.
      apply sublist_skip, sublist_nil_l.
Qed.

(** X28.  A sequential dialogue takes the predefined turns in their order:
    the speakers of the recorded turns are, in order, speakers of predefined
    turns, each predefined turn being used at most once; turns are passed
    over but never reordered or repeated. *)
Theorem sequential_turn_order (dialogueNode : WorkflowNode)
    (w : list (string * value)) (theRunId : string) (d : DialogueConfig) :
  dialogue dialogueNode = Some d -> mode d = "sequential" ->
  sublist
    (List.map t_speaker (c_turns (dialogue_ dialogueNode w theRunId).2))
    (List.map speaker (turns d)).
Proof.
  intros Hd Hmode.
  rewrite (executeDialogue_context resolve getAgent callAgent JSON_stringify
             uuidv4 clock addCost _ _ _ _ Hd).
  unfold runMode, executeSequentialDialogue.
  destruct (String.eqb_spec (mode d) "sequential") as [_|?]; [|done].
  set (n := Z.to_nat _).
  destruct (sequentialLoop_order d (firstn n (turns d)) w
              (startContext getAgent d)) as (extra & (Ht & _) & Hsub).
  rewrite Ht. simpl. etransitivity; [exact Hsub|].
  rewrite <- (firstn_skipn n (turns d)) at 2. rewrite map_app.
  by apply sublist_inserts_r.
Qed.

End SequentialOrder.

Section SequentialOrderWitness.

Import Template Dialogue.

Lemma sequential_turn_order_witness :
  sublist
    (List.map t_speaker
       (c_turns (executeDialogue Template.resolve demoRegistry demoCall
                   demoJson demoUuid demoClock demoAddCost demoNode []
                   "run-1").2))
    ["ceo-agent-v1"; "cto-agent-v1"].
Proof.
  exact (sequential_turn_order Template.resolve demoRegistry demoCall demoJson
           demoUuid demoClock demoAddCost demoNode [] "run-1" demoDialogue
           eq_refl eq_refl).
Defined.

End SequentialOrderWitness.

(** ** Windows that cross midnight *)

Section OvernightWindows.

Import Schedule.




End OvernightWindows.

(** ** Workflow outputs of the execution engine *)

Section EngineOutputs.

Import Template Runner.

Lemma includes_marker (pre body post : string) :
  includes "{{" (pre ++ "{{" ++ body ++ "}}" ++ post) = true.
Proof.
  induction pre as [|c pre IH]; [by destruct body|].
  change (String c pre ++ ?x) with (String c (pre ++ x)).
  cbn [includes]. rewrite IH. apply orb_true_r.
Qed.

Lemma includes_marker_alone (body : string) :
  includes "{{" ("{{" ++ body ++ "}}") = true.
Proof. by destruct body. Qed.

(** The matches the scan returns are markers. *)
Lemma match_all_from_markers (s : string) :
  forall (skip : nat) (m : string),
    m ∈ match_all_from skip s ->
    exists body,
      m = "{{" ++ body ++ "}}" /\ body <> EmptyString
      /\ Js.includes_char "}" body = false.
Proof.
  induction s as [|c r IH]; intros skip m; cbn [match_all_from].
  { intros H. by apply elem_of_nil in H. }
  destruct skip as [|k]; [|apply IH].
  destruct (match_at (String c r)) as [m'|] eqn:E; [|apply IH].
  intros Hm. apply elem_of_cons in Hm as [->|Hm]; [|by eapply IH].
  destruct (match_at_spec _ _ E) as (body & post & _ & -> & Hne & Hb).
  by exists body.
Qed.

(** X30.  [computeOutputs] reads an output template through its first marker
    only and returns the value that marker names, not an interpolated text:
    the text around the marker and any further marker are dropped, so the
    output is the same as for the template that is the first marker alone.
    An output that is not a string, or a string without two opening braces,
    is passed on as written. *)
Theorem computeOutput_first_marker (results : list Engine.NodeResult)
    (key s m : string) (rest : list string) (v : value) :
  match_all s = m :: rest ->
  computeOutput results (key, VStr s) = computeOutput results (key, VStr m)
  /\ (match v with
      | VStr text => includes "{{" text = false
      | _ => True
      end -> computeOutput results (key, v) = [(key, v)]).
Proof.
  intros Hs. split.
  - assert (m ∈ match_all_from 0 s) as Hm by (fold (match_all s); rewrite Hs; by left).
    destruct (match_all_from_markers s 0 m Hm) as (body & -> & Hne & Hb).
    assert (has_marker s) as (pre & body' & post & -> & _).
    { apply (match_all_from_marker s 0). fold (match_all s). by rewrite Hs. }
    unfold computeOutput.
    rewrite includes_marker, includes_marker_alone.
    rewrite Hs, (match_all_single body Hne Hb). done.
  - destruct v; try done. simpl. by intros ->.
Qed.

End EngineOutputs.

Section EngineOutputWitness.

Import Template Runner.

Lemma computeOutput_first_marker_witness :
  computeOutput Engine.historyResults
    ("last", VStr "Result: {{history.length}} of {{history}}")
  = [("last", VNum 3)].
Proof.
  destruct (computeOutput_first_marker Engine.historyResults "last"
              "Result: {{history.length}} of {{history}}"
              "{{history.length}}" ["{{history}}"] VNull eq_refl)
    as [-> _].
  reflexivity.
Defined.

End EngineOutputWitness.
